(** * PandoraPFA: the calorimeter-hit helper (Helpers/CaloHitHelper.cc)

    A shallow embedding of [pandora::CaloHitHelper]: the availability
    queries, the nested calo-hit usage maps used during reclustering, the
    density-weight contribution and the simple isolation scheme.

    Conventions.
    - A [CaloHit*] is an address; the hit objects live in a hit memory, a
      total map from addresses to hit records, because the helper never
      creates or destroys a hit.
    - A [CaloHitUsageMap*] is an address into [usageMapHeap], the
      part of the free store that holds the usage maps the helper allocates
      with [new] and releases with [delete].  The registry, the parent vector
      and the current pointer all hold such addresses, so aliasing is kept.
    - A function returns [None] where the C++ has no defined behaviour
      (dereferencing or deleting a pointer that is not live, [back()] on an
      empty vector); otherwise [Some] of what it returns and the new state.
    - [float] is IEEE binary32, given by [spec_float] at precision 24 and
      maximal exponent 128. *)

From Stdlib Require Import ZArith NArith Bool.
From Stdlib Require Import Floats.SpecFloat.
From stdpp Require Import base option sorting gmap strings functions list.

Local Open Scope Z_scope.

(** ** Status codes (the ones the sources under study return or throw) *)

Inductive StatusCode : Set :=
  | STATUS_CODE_SUCCESS
  | STATUS_CODE_FAILURE
  | STATUS_CODE_NOT_FOUND
  | STATUS_CODE_NOT_ALLOWED
  | STATUS_CODE_INVALID_PARAMETER
  | STATUS_CODE_ALREADY_PRESENT
  | STATUS_CODE_ALREADY_INITIALIZED.

#[global] Instance StatusCode_eq_dec : EqDecision StatusCode.
Proof. solve_decision. Defined.

(** ** binary32 arithmetic *)

Module Float32.
Definition prec : Z := 24.
Definition emax : Z := 128.

Definition add : spec_float -> spec_float -> spec_float := SFadd prec emax.
Definition sub : spec_float -> spec_float -> spec_float := SFsub prec emax.
Definition mul : spec_float -> spec_float -> spec_float := SFmul prec emax.
Definition div : spec_float -> spec_float -> spec_float := SFdiv prec emax.
Definition sqrt : spec_float -> spec_float := SFsqrt prec emax.

(** Comparisons are those of IEEE 754: any comparison with a NaN but
    [!=] is false. *)
Definition eqb : spec_float -> spec_float -> bool := SFeqb.
Definition ltb : spec_float -> spec_float -> bool := SFltb.
Definition leb : spec_float -> spec_float -> bool := SFleb.
Definition gtb (x y : spec_float) : bool := SFltb y x.
Definition geb (x y : spec_float) : bool := SFleb y x.

(** The float nearest to an integer: the literals [0.], [1.], [100.f]. *)
Definition of_Z (z : Z) : spec_float := binary_normalize prec emax z 0 false.

Definition is_nan (x : spec_float) : bool :=
  match x with S754_nan => true | _ => false end.

Definition is_zero (x : spec_float) : bool :=
  match x with S754_zero _ => true | _ => false end.

(** Neither an infinity nor a NaN. *)
Definition is_finite (x : spec_float) : bool :=
  match x with S754_zero _ | S754_finite _ _ _ => true | _ => false end.
End Float32.

(** ** Objects/CartesianVector.cc *)

Record CartesianVector : Set := mkCartesianVector {
  m_x : spec_float;
  m_y : spec_float;
  m_z : spec_float
}.

Module CartesianVector.
Import Float32.

Definition GetMagnitudeSquared (v : CartesianVector) : spec_float :=
  add (add (mul (m_x v) (m_x v)) (mul (m_y v) (m_y v))) (mul (m_z v) (m_z v)).

Definition GetMagnitude (v : CartesianVector) : spec_float :=
  sqrt (GetMagnitudeSquared v).

Definition GetDotProduct (v rhs : CartesianVector) : spec_float :=
  add (add (mul (m_x v) (m_x rhs)) (mul (m_y v) (m_y rhs))) (mul (m_z v) (m_z rhs)).

Definition GetCrossProduct (v rhs : CartesianVector) : CartesianVector :=
  mkCartesianVector
    (sub (mul (m_y v) (m_z rhs)) (mul (m_y rhs) (m_z v)))
    (sub (mul (m_z v) (m_x rhs)) (mul (m_z rhs) (m_x v)))
    (sub (mul (m_x v) (m_y rhs)) (mul (m_x rhs) (m_y v))).

(** [operator+] and [operator-] *)
Definition plus (lhs rhs : CartesianVector) : CartesianVector :=
  mkCartesianVector (add (m_x lhs) (m_x rhs)) (add (m_y lhs) (m_y rhs))
                    (add (m_z lhs) (m_z rhs)).

Definition minus (lhs rhs : CartesianVector) : CartesianVector :=
  mkCartesianVector (sub (m_x lhs) (m_x rhs)) (sub (m_y lhs) (m_y rhs))
                    (sub (m_z lhs) (m_z rhs)).
End CartesianVector.

(** ** Hits *)

Inductive HitType : Set := ECAL | HCAL | MUON.
Inductive DetectorRegion : Set := BARREL | ENDCAP.

#[global] Instance HitType_eq_dec : EqDecision HitType.
Proof. solve_decision. Defined.

(** Modelled from the spec: the fields of a hit (Objects/CaloHit.h is not
    part of the sources).  These are the attributes of the data model that
    CaloHitHelper.cc reads and writes: the position, the hit type and region,
    the ground-truth availability flag [m_isAvailable], which the helper
    accesses directly, and the derived properties behind [GetDensityWeight],
    [AddSurroundingEnergy], [SetIsolatedFlag] and [SetPossibleMipFlag]. *)
Record CaloHit : Set := mkCaloHit {
  m_positionVector : CartesianVector;
  m_hitType : HitType;
  m_detectorRegion : DetectorRegion;
  m_isAvailable : bool;
  m_densityWeight : spec_float;
  m_surroundingEnergy : spec_float;
  m_isIsolated : bool;
  m_isPossibleMip : bool
}.

(** Addresses are numbers of type [N], both for [CaloHit*] and for
    [CaloHitUsageMap*].  [NULL] is address 0.  The hit objects, what each
    [CaloHit*] points to, are a function [mem : N -> CaloHit]. *)
Definition NULL : N := 0%N.

(** [pCaloHit->m_isAvailable = isAvailable] *)
Definition set_isAvailable (isAvailable : bool) (hit : CaloHit) : CaloHit :=
  mkCaloHit (m_positionVector hit) (m_hitType hit) (m_detectorRegion hit)
            isAvailable (m_densityWeight hit) (m_surroundingEnergy hit)
            (m_isIsolated hit) (m_isPossibleMip hit).

(** Modelled from the spec: [CaloHit::SetIsolatedFlag] (Objects/CaloHit.h is
    not part of the sources) stores its argument in the isolated flag, a
    derived output written by the property calculator, and nothing else. *)
Definition SetIsolatedFlag (isolatedFlag : bool) (hit : CaloHit) : CaloHit :=
  mkCaloHit (m_positionVector hit) (m_hitType hit) (m_detectorRegion hit)
            (m_isAvailable hit) (m_densityWeight hit) (m_surroundingEnergy hit)
            isolatedFlag (m_isPossibleMip hit).

(** ** Containers *)

(** [CaloHitList] is a [std::set<CaloHit*>]: a [list N], its iteration
    sequence.  [OrderedCaloHitList] is a [std::map] from pseudolayer to hit
    list: a [list (Z * list N)], its iteration sequence, one pair per layer.
    [CaloHitUsageMap] is a [std::map<CaloHit*, bool>]: a [gmap N bool]. *)

(** The entries of a usage map in iteration order, which for a [std::map]
    keyed by pointers is by ascending address. *)
Definition entry_le (x y : N * bool) : Prop := (x.1 <= y.1)%N.

#[global] Instance entry_le_dec (x y : N * bool) : Decision (entry_le x y).
Proof. unfold entry_le. apply _. Defined.

Definition usageMapEntries (m : gmap N bool) : list (N * bool) :=
  merge_sort entry_le (map_to_list m).

(** ** The static state of CaloHitHelper *)

Record Manager : Type := mkManager {
  m_nReclusteringProcesses : Z;                   (* unsigned int *)
  m_pCurrentUsageMap : N;                         (* CaloHitUsageMap* *)
  m_parentCaloHitUsageMaps : list N;              (* vector, back() is last *)
  m_nestedUsageMapNames : list (list string);     (* vector of StringVector* *)
  m_nameToCaloHitUsageMap : gmap string N;        (* name -> CaloHitUsageMap* *)
  usageMapHeap : gmap N (gmap N bool)             (* the live usage maps *)
}.

#[global] Instance Manager_eq_dec : EqDecision Manager.
Proof. solve_decision. Defined.

(** The state the static initialisers give. *)
Definition initialManager : Manager :=
  mkManager 0 NULL [] [] ∅ ∅.

(** [unsigned int] arithmetic is modulo 2^32. *)
Definition wrap32 (z : Z) : Z := z mod 2 ^ 32.

(** [new CaloHitUsageMap]: an address that is neither null nor live. *)
Definition newAddress (heap : gmap N (gmap N bool)) : N :=
  fresh ({[ NULL ]} ∪ dom heap : gset N).

(** [delete p]: nothing for a null pointer, else [p] must be live. *)
Definition deleteMap (p : N) (heap : gmap N (gmap N bool))
  : option (gmap N (gmap N bool)) :=
  if decide (p = NULL) then Some heap
  else match heap !! p with
       | Some _ => Some (delete p heap)
       | None => None
       end.

(** ** Availability queries *)

Definition lookupAvailable (m : gmap N bool) (pCaloHit : N) : bool :=
  match m !! pCaloHit with
  | None => false
  | Some second => if negb second then false else true
  end.

Definition IsCaloHitAvailable (mem : N -> CaloHit) (s : Manager) (pCaloHit : N)
  : option bool :=
  if decide (0 = m_nReclusteringProcesses s) then
    Some (m_isAvailable (mem pCaloHit))
  else
    m ← usageMapHeap s !! m_pCurrentUsageMap s;
    Some (lookupAvailable m pCaloHit).

Fixpoint AreCaloHitsAvailable_loop0 (mem : N -> CaloHit) (l : list N) : bool :=
  match l with
  | [] => true
  | h :: l' => if negb (m_isAvailable (mem h)) then false
               else AreCaloHitsAvailable_loop0 mem l'
  end.

Fixpoint AreCaloHitsAvailable_loop (s : Manager) (l : list N) : option bool :=
  match l with
  | [] => Some true
  | h :: l' =>
      m ← usageMapHeap s !! m_pCurrentUsageMap s;
      if negb (lookupAvailable m h) then Some false
      else AreCaloHitsAvailable_loop s l'
  end.

Definition AreCaloHitsAvailable (mem : N -> CaloHit) (s : Manager)
  (caloHitList : list N) : option bool :=
  if decide (0 = m_nReclusteringProcesses s) then
    Some (AreCaloHitsAvailable_loop0 mem caloHitList)
  else AreCaloHitsAvailable_loop s caloHitList.

(** ** Setting availability *)

Definition setCurrentEntry (s : Manager) (m : gmap N bool) (pCaloHit : N)
  (isAvailable : bool) : Manager :=
  mkManager (m_nReclusteringProcesses s) (m_pCurrentUsageMap s)
            (m_parentCaloHitUsageMaps s) (m_nestedUsageMapNames s)
            (m_nameToCaloHitUsageMap s)
            (<[m_pCurrentUsageMap s := <[pCaloHit := isAvailable]> m]> (usageMapHeap s)).

Definition SetCaloHitAvailability (mem : N -> CaloHit) (s : Manager)
  (pCaloHit : N) (isAvailable : bool)
  : option (StatusCode * (N -> CaloHit) * Manager) :=
  if decide (0 = m_nReclusteringProcesses s) then
    Some (STATUS_CODE_SUCCESS,
          <[pCaloHit := set_isAvailable isAvailable (mem pCaloHit)]> mem, s)
  else
    m ← usageMapHeap s !! m_pCurrentUsageMap s;
    match m !! pCaloHit with
    | None => Some (STATUS_CODE_NOT_FOUND, mem, s)
    | Some _ => Some (STATUS_CODE_SUCCESS, mem, setCurrentEntry s m pCaloHit isAvailable)
    end.

(** The two loops of the overload taking a [CaloHitList]. *)
Fixpoint SetCaloHitAvailability_loop0 (mem : N -> CaloHit) (l : list N)
  (isAvailable : bool) : N -> CaloHit :=
  match l with
  | [] => mem
  | h :: l' =>
      SetCaloHitAvailability_loop0
        (<[h := set_isAvailable isAvailable (mem h)]> mem) l' isAvailable
  end.

Fixpoint SetCaloHitAvailability_loop (s : Manager) (l : list N)
  (isAvailable : bool) : option (StatusCode * Manager) :=
  match l with
  | [] => Some (STATUS_CODE_SUCCESS, s)
  | h :: l' =>
      m ← usageMapHeap s !! m_pCurrentUsageMap s;
      match m !! h with
      | None => Some (STATUS_CODE_NOT_FOUND, s)
      | Some _ => SetCaloHitAvailability_loop (setCurrentEntry s m h isAvailable) l' isAvailable
      end
  end.

Definition SetCaloHitAvailabilityList (mem : N -> CaloHit) (s : Manager)
  (caloHitList : list N) (isAvailable : bool)
  : option (StatusCode * (N -> CaloHit) * Manager) :=
  if decide (0 = m_nReclusteringProcesses s) then
    Some (STATUS_CODE_SUCCESS, SetCaloHitAvailability_loop0 mem caloHitList isAvailable, s)
  else
    '(rc, s') ← SetCaloHitAvailability_loop s caloHitList isAvailable;
    Some (rc, mem, s').

(** [RemoveUnavailableCaloHits(CaloHitList &)]: erases the hits that are not
    available. *)
Fixpoint RemoveUnavailableCaloHitsList (mem : N -> CaloHit) (s : Manager)
  (caloHitList : list N) : option (list N) :=
  match caloHitList with
  | [] => Some []
  | h :: l' =>
      b ← IsCaloHitAvailable mem s h;
      rest ← RemoveUnavailableCaloHitsList mem s l';
      Some (if negb b then rest else h :: rest)
  end.

(** ** Creating usage maps *)

(** The seeding loops of [CreateInitialCaloHitUsageMap]: one entry [false]
    per hit; [insert(...).second] is false, and the function gives up, when
    the hit is already a key.  The result is the map built so far and whether
    every insertion succeeded. *)
Fixpoint seedHits (l : list N) (m : gmap N bool) : bool * gmap N bool :=
  match l with
  | [] => (true, m)
  | h :: l' =>
      match m !! h with
      | Some _ => (false, m)
      | None => seedHits l' (<[h := false]> m)
      end
  end.

Fixpoint seedLayers (ol : list (Z * list N)) (m : gmap N bool)
  : bool * gmap N bool :=
  match ol with
  | [] => (true, m)
  | (_, hits) :: ol' =>
      let '(ok, m') := seedHits hits m in
      if ok then seedLayers ol' m' else (false, m')
  end.

Definition CreateInitialCaloHitUsageMap (s : Manager) (usageMapName : string)
  (pOrderedCaloHitList : list (Z * list N)) : option (StatusCode * Manager) :=
  (* if (0 < m_nReclusteringProcesses++) push_back(m_pCurrentUsageMap) *)
  let n := wrap32 (m_nReclusteringProcesses s + 1) in
  let parents :=
    if decide (0 < m_nReclusteringProcesses s)
    then m_parentCaloHitUsageMaps s ++ [m_pCurrentUsageMap s]
    else m_parentCaloHitUsageMaps s in
  (* m_pCurrentUsageMap = new CaloHitUsageMap *)
  let p := newAddress (usageMapHeap s) in
  let heap := <[p := ∅]> (usageMapHeap s) in
  match m_nameToCaloHitUsageMap s !! usageMapName with
  | Some _ =>
      Some (STATUS_CODE_FAILURE,
            mkManager n p parents (m_nestedUsageMapNames s)
                      (m_nameToCaloHitUsageMap s) heap)
  | None =>
      let registry := <[usageMapName := p]> (m_nameToCaloHitUsageMap s) in
      let '(ok, m) := seedLayers pOrderedCaloHitList ∅ in
      if ok then
        Some (STATUS_CODE_SUCCESS,
              mkManager n p parents (m_nestedUsageMapNames s ++ [[usageMapName]])
                        registry (<[p := m]> heap))
      else
        Some (STATUS_CODE_FAILURE,
              mkManager n p parents (m_nestedUsageMapNames s)
                        registry (<[p := m]> heap))
  end.

(** [m_nestedUsageMapNames.back()->push_back(name)]; [back()] of an empty
    vector is undefined. *)
Definition pushNameOnBack (names : list (list string)) (name : string)
  : option (list (list string)) :=
  back ← last names;
  Some (removelast names ++ [back ++ [name]]).

Definition CreateAdditionalCaloHitUsageMap (s : Manager) (usageMapName : string)
  : option (StatusCode * Manager) :=
  if decide (0 = m_nReclusteringProcesses s) then
    Some (STATUS_CODE_NOT_ALLOWED, s)
  else
    (* new CaloHitUsageMap, copy-constructed from the current map *)
    current ← usageMapHeap s !! m_pCurrentUsageMap s;
    let p := newAddress (usageMapHeap s) in
    let heap := <[p := current]> (usageMapHeap s) in
    match m_nameToCaloHitUsageMap s !! usageMapName with
    | Some _ =>
        Some (STATUS_CODE_FAILURE,
              mkManager (m_nReclusteringProcesses s) (m_pCurrentUsageMap s)
                        (m_parentCaloHitUsageMaps s) (m_nestedUsageMapNames s)
                        (m_nameToCaloHitUsageMap s) heap)
    | None =>
        let registry := <[usageMapName := p]> (m_nameToCaloHitUsageMap s) in
        let heap' := <[p := (λ _ : bool, true) <$> current]> heap in
        names ← pushNameOnBack (m_nestedUsageMapNames s) usageMapName;
        Some (STATUS_CODE_SUCCESS,
              mkManager (m_nReclusteringProcesses s) p
                        (m_parentCaloHitUsageMaps s) names registry heap')
    end.

(** ** Clearing usage maps *)

(** [delete] of each pointer in turn. *)
Fixpoint deleteMaps (ps : list N) (heap : gmap N (gmap N bool))
  : option (gmap N (gmap N bool)) :=
  match ps with
  | [] => Some heap
  | p :: ps' => heap' ← deleteMap p heap; deleteMaps ps' heap'
  end.

Definition ClearCaloHitUsageMaps (s : Manager) : option (StatusCode * Manager) :=
  heap ← deleteMaps (map_to_list (m_nameToCaloHitUsageMap s)).*2 (usageMapHeap s);
  let registry : gmap string N := ∅ in
  let parents : list N := [] in
  let names : list (list string) := [] in
  if negb (bool_decide (registry = ∅)) || negb (bool_decide (parents = []))
     || negb (bool_decide (names = [])) then
    Some (STATUS_CODE_FAILURE,
          mkManager (m_nReclusteringProcesses s) (m_pCurrentUsageMap s)
                    parents names registry heap)
  else
    Some (STATUS_CODE_SUCCESS, mkManager 0 NULL parents names registry heap).

(** The loop of [ClearMostRecentCaloHitUsageMaps] over the names of the most
    recent level: the registry and the heap once it ends, and the status it
    ends with. *)
Fixpoint clearNames (names : list string) (registry : gmap string N)
  (heap : gmap N (gmap N bool))
  : option (StatusCode * gmap string N * gmap N (gmap N bool)) :=
  match names with
  | [] => Some (STATUS_CODE_SUCCESS, registry, heap)
  | name :: names' =>
      match registry !! name with
      | None => Some (STATUS_CODE_NOT_FOUND, registry, heap)
      | Some p =>
          heap' ← deleteMap p heap;
          clearNames names' (delete name registry) heap'
      end
  end.

Definition ClearMostRecentCaloHitUsageMaps (s : Manager)
  : option (StatusCode * Manager) :=
  pUsageMapNames ← last (m_nestedUsageMapNames s);
  '(rc, registry, heap) ← clearNames pUsageMapNames (m_nameToCaloHitUsageMap s)
                                      (usageMapHeap s);
  if decide (rc = STATUS_CODE_SUCCESS) then
    Some (STATUS_CODE_SUCCESS,
          mkManager (m_nReclusteringProcesses s) (m_pCurrentUsageMap s)
                    (m_parentCaloHitUsageMaps s)
                    (removelast (m_nestedUsageMapNames s)) registry heap)
  else
    Some (rc,
          mkManager (m_nReclusteringProcesses s) (m_pCurrentUsageMap s)
                    (m_parentCaloHitUsageMaps s) (m_nestedUsageMapNames s)
                    registry heap).

(** ** Applying a usage map *)

(** The loop of the branch that ends the last reclustering process: each
    entry is written to the hit's own flag. *)
Fixpoint writeBack (entries : list (N * bool)) (mem : N -> CaloHit) : N -> CaloHit :=
  match entries with
  | [] => mem
  | (pCaloHit, second) :: entries' =>
      writeBack entries' (<[pCaloHit := set_isAvailable second (mem pCaloHit)]> mem)
  end.

(** The loop of the other branch: each entry overwrites the entry of the
    same hit in the map at [pCurrent]; a hit that is not a key there ends the
    loop with [STATUS_CODE_FAILURE]. *)
Fixpoint mergeIntoCurrent (entries : list (N * bool)) (pCurrent : N)
  (heap : gmap N (gmap N bool)) : option (StatusCode * gmap N (gmap N bool)) :=
  match entries with
  | [] => Some (STATUS_CODE_SUCCESS, heap)
  | (pCaloHit, second) :: entries' =>
      current ← heap !! pCurrent;
      match current !! pCaloHit with
      | None => Some (STATUS_CODE_FAILURE, heap)
      | Some _ =>
          mergeIntoCurrent entries' pCurrent
                           (<[pCurrent := <[pCaloHit := second]> current]> heap)
      end
  end.

Definition ApplyCaloHitUsageMap (mem : N -> CaloHit) (s : Manager)
  (usageMapName : string) : option (StatusCode * (N -> CaloHit) * Manager) :=
  if decide (0 = m_nReclusteringProcesses s) then
    Some (STATUS_CODE_NOT_ALLOWED, mem, s)
  else
    match m_nameToCaloHitUsageMap s !! usageMapName with
    | None => Some (STATUS_CODE_NOT_FOUND, mem, s)
    | Some pUsageMap =>
        (* if (1 == m_nReclusteringProcesses--) *)
        let n := wrap32 (m_nReclusteringProcesses s - 1) in
        if decide (1 = m_nReclusteringProcesses s) then
          usageMap ← usageMapHeap s !! pUsageMap;
          let mem' := writeBack (usageMapEntries usageMap) mem in
          '(rc, s') ← ClearCaloHitUsageMaps
                        (mkManager n (m_pCurrentUsageMap s)
                                   (m_parentCaloHitUsageMaps s)
                                   (m_nestedUsageMapNames s)
                                   (m_nameToCaloHitUsageMap s) (usageMapHeap s));
          Some (rc, mem', s')
        else
          pCurrent ← last (m_parentCaloHitUsageMaps s);
          let parents := removelast (m_parentCaloHitUsageMaps s) in
          usageMap ← usageMapHeap s !! pUsageMap;
          '(rc, heap) ← mergeIntoCurrent (usageMapEntries usageMap) pCurrent
                                          (usageMapHeap s);
          if decide (rc = STATUS_CODE_SUCCESS) then
            '(rc', s') ← ClearMostRecentCaloHitUsageMaps
                           (mkManager n pCurrent parents (m_nestedUsageMapNames s)
                                      (m_nameToCaloHitUsageMap s) heap);
            Some (rc', mem, s')
          else
            Some (rc, mem,
                  mkManager n pCurrent parents (m_nestedUsageMapNames s)
                            (m_nameToCaloHitUsageMap s) heap)
    end.

(** ** Auxiliary definitions for the statements *)

(** The manager with another heap of usage maps. *)
Definition withHeap (s : Manager) (heap : gmap N (gmap N bool)) : Manager :=
  mkManager (m_nReclusteringProcesses s) (m_pCurrentUsageMap s)
            (m_parentCaloHitUsageMaps s) (m_nestedUsageMapNames s)
            (m_nameToCaloHitUsageMap s) heap.

(** A usage map after [second = isAvailable] on each of the hits of [l]. *)
Definition setEntries (l : list N) (isAvailable : bool) (m : gmap N bool)
  : gmap N bool :=
  foldl (fun acc h => <[h := isAvailable]> acc) m l.

(** ** The invariant of the static state

    What the successful calls of the helper keep true of its state: the
    counter is the number of nesting levels; the registry holds exactly the
    names of the levels, no name twice, each name with a live usage map of
    its own; each parent usage map is registered under a name of the level it
    was current in, and the current usage map under a name of the most
    recent level. *)

Definition registeredIn (registry : gmap string N) (p : N) (level : list string)
  : Prop :=
  Exists (fun name => registry !! name = Some p) level.

Definition ManagerInvariant (s : Manager) : Prop :=
  m_nReclusteringProcesses s = Z.of_nat (length (m_nestedUsageMapNames s))
  /\ m_nReclusteringProcesses s < 2 ^ 32
  /\ NoDup (concat (m_nestedUsageMapNames s))
  /\ dom (m_nameToCaloHitUsageMap s)
     = (list_to_set (concat (m_nestedUsageMapNames s)) : gset string)
  /\ NoDup (map_to_list (m_nameToCaloHitUsageMap s)).*2
  /\ map_Forall (fun _ p => p <> NULL /\ is_Some (usageMapHeap s !! p))
                (m_nameToCaloHitUsageMap s)
  /\ Forall2 (registeredIn (m_nameToCaloHitUsageMap s))
             (m_parentCaloHitUsageMaps s)
             (removelast (m_nestedUsageMapNames s))
  /\ match last (m_nestedUsageMapNames s) with
     | None => True
     | Some level =>
         registeredIn (m_nameToCaloHitUsageMap s) (m_pCurrentUsageMap s) level
     end.

#[global] Instance registeredIn_dec registry p level :
  Decision (registeredIn registry p level).
Proof. unfold registeredIn. apply _. Defined.

#[global] Instance ManagerInvariant_dec (s : Manager) : Decision (ManagerInvariant s).
Proof. unfold ManagerInvariant. destruct (last (m_nestedUsageMapNames s)); apply _. Defined.

(** A usage map after each of [entries] has overwritten the entry of its
    hit. *)
Definition overwriteEntries (entries : list (N * bool)) (m : gmap N bool)
  : gmap N bool :=
  foldl (fun acc e => <[e.1 := e.2]> acc) m entries.

(** A registry after [erase] of each of [names]. *)
Definition eraseNames (names : list string) (registry : gmap string N)
  : gmap string N :=
  foldl (fun acc name => delete name acc) registry names.

(** A heap after [delete] of each of [ps]. *)
Definition freeMaps (ps : list N) (heap : gmap N (gmap N bool))
  : gmap N (gmap N bool) :=
  foldl (fun acc p => delete p acc) heap ps.

(** ** Settings *)

(** Modelled from the spec: the read-only scalar configuration the helper
    reads from [PandoraSettings::GetInstance()] (Pandora/PandoraSettings.h is
    not part of the sources): the maximum hit separation, the density-weight
    power and the density-weight cuts of the simple isolation scheme. *)
Record PandoraSettings : Set := mkPandoraSettings {
  GetCaloHitMaxSeparation : spec_float;
  GetDensityWeightPower : N;                             (* unsigned int *)
  GetIsolationDensityWeightCutECal : spec_float;
  GetIsolationDensityWeightCutHCal : spec_float
}.

(** ** Density weight *)

(** [rN] after the loop [for (i = 0; i < densityWeightPower; ++i) rN *= r]. *)
Definition powerOfR (densityWeightPower : N) (r : spec_float) : spec_float :=
  N.iter densityWeightPower (fun rN => Float32.mul rN r) (Float32.of_Z 1).

(** The loop of [GetDensityWeightContribution]; [inl] is the status code of
    the [StatusCodeException] thrown, [inr] the value returned. *)
Fixpoint GetDensityWeightContribution_loop (caloHitMaxSeparationSquared : spec_float)
  (densityWeightPower : N) (mem : N -> CaloHit) (pCaloHit : N)
  (positionVector : CartesianVector) (positionMagnitude : spec_float)
  (l : list N) (densityWeightContribution : spec_float)
  : StatusCode + spec_float :=
  match l with
  | [] => inr densityWeightContribution
  | iter :: l' =>
      if decide (pCaloHit = iter) then
        GetDensityWeightContribution_loop caloHitMaxSeparationSquared
          densityWeightPower mem pCaloHit positionVector positionMagnitude l'
          densityWeightContribution
      else
        let positionDifference :=
          CartesianVector.minus positionVector (m_positionVector (mem iter)) in
        if Float32.gtb (CartesianVector.GetMagnitudeSquared positionDifference)
                       caloHitMaxSeparationSquared then
          GetDensityWeightContribution_loop caloHitMaxSeparationSquared
            densityWeightPower mem pCaloHit positionVector positionMagnitude l'
            densityWeightContribution
        else
          let crossProduct :=
            CartesianVector.GetCrossProduct positionVector positionDifference in
          let r := Float32.div (CartesianVector.GetMagnitude crossProduct)
                               positionMagnitude in
          let rN := powerOfR densityWeightPower r in
          if Float32.eqb (Float32.of_Z 0) rN then inl STATUS_CODE_FAILURE
          else
            GetDensityWeightContribution_loop caloHitMaxSeparationSquared
              densityWeightPower mem pCaloHit positionVector positionMagnitude l'
              (Float32.add densityWeightContribution
                           (Float32.div (Float32.of_Z 100) rN))
  end.

Definition GetDensityWeightContribution (settings : PandoraSettings)
  (mem : N -> CaloHit) (pCaloHit : N) (pCaloHitList : list N)
  : StatusCode + spec_float :=
  let caloHitMaxSeparation := GetCaloHitMaxSeparation settings in
  let caloHitMaxSeparationSquared :=
    Float32.mul caloHitMaxSeparation caloHitMaxSeparation in
  let densityWeightPower := GetDensityWeightPower settings in
  let positionVector := m_positionVector (mem pCaloHit) in
  let positionMagnitude := CartesianVector.GetMagnitude positionVector in
  GetDensityWeightContribution_loop caloHitMaxSeparationSquared densityWeightPower
    mem pCaloHit positionVector positionMagnitude pCaloHitList (Float32.of_Z 0).

(** ** The simple isolation scheme *)

(** Modelled from the spec: [CaloHit::GetDensityWeight] (Objects/CaloHit.h is
    not part of the sources) returns the density weight stored in the hit. *)
Definition GetDensityWeight (hit : CaloHit) : spec_float := m_densityWeight hit.

Definition isolationDensityWeightCut (settings : PandoraSettings) (hit : CaloHit)
  : spec_float :=
  if decide (ECAL = m_hitType hit) then GetIsolationDensityWeightCutECal settings
  else GetIsolationDensityWeightCutHCal settings.

Fixpoint ApplySimpleIsolationScheme (settings : PandoraSettings)
  (caloHitVector : list N) (mem : N -> CaloHit) : N -> CaloHit :=
  match caloHitVector with
  | [] => mem
  | pCaloHit :: rest =>
      let cut := isolationDensityWeightCut settings (mem pCaloHit) in
      ApplySimpleIsolationScheme settings rest
        (if Float32.ltb (GetDensityWeight (mem pCaloHit)) cut
         then <[pCaloHit := SetIsolatedFlag true (mem pCaloHit)]> mem
         else mem)
  end.

(** ** Removing unavailable hits from an ordered calo hit list *)

(** [unavailableHits.insert(hit)] on a [std::set]: the sequence stays
    ascending and holds no hit twice. *)
Fixpoint CaloHitList_insert (hit : N) (l : list N) : list N :=
  match l with
  | [] => [hit]
  | a :: l' =>
      if (hit <? a)%N then hit :: l
      else if (hit =? a)%N then l
      else a :: CaloHitList_insert hit l'
  end.

Fixpoint collectUnavailableHits (mem : N -> CaloHit) (s : Manager)
  (hits : list N) (unavailableHits : list N) : option (list N) :=
  match hits with
  | [] => Some unavailableHits
  | hit :: hits' =>
      available ← IsCaloHitAvailable mem s hit;
      collectUnavailableHits mem s hits'
        (if negb available then CaloHitList_insert hit unavailableHits
         else unavailableHits)
  end.

Fixpoint collectUnavailableLayers (mem : N -> CaloHit) (s : Manager)
  (orderedCaloHitList : list (Z * list N)) (unavailableHits : list N)
  : option (list N) :=
  match orderedCaloHitList with
  | [] => Some unavailableHits
  | (_, hits) :: layers =>
      unavailableHits' ← collectUnavailableHits mem s hits unavailableHits;
      collectUnavailableLayers mem s layers unavailableHits'
  end.

(** [Remove] stands for [OrderedCaloHitList::Remove(const CaloHitList &)],
    which is not part of the sources: it returns a status code and leaves the
    ordered list in a new state. *)
Definition RemoveUnavailableCaloHits
  (Remove : list (Z * list N) -> list N -> StatusCode * list (Z * list N))
  (mem : N -> CaloHit) (s : Manager) (orderedCaloHitList : list (Z * list N))
  : option (StatusCode * list (Z * list N)) :=
  unavailableHits ← collectUnavailableLayers mem s orderedCaloHitList [];
  if negb (bool_decide (unavailableHits = [])) then
    let '(rc, orderedCaloHitList') := Remove orderedCaloHitList unavailableHits in
    if negb (bool_decide (rc = STATUS_CODE_SUCCESS)) then Some (rc, orderedCaloHitList')
    else Some (STATUS_CODE_SUCCESS, orderedCaloHitList')
  else Some (STATUS_CODE_SUCCESS, orderedCaloHitList).

(** What the helper relies on from [Remove]: after a successful removal no
    removed hit is left in any layer, and no layer holds a hit it did not
    hold before. *)
Definition RemoveContract
  (Remove : list (Z * list N) -> list N -> StatusCode * list (Z * list N)) : Prop :=
  forall orderedCaloHitList hits orderedCaloHitList',
    Remove orderedCaloHitList hits = (STATUS_CODE_SUCCESS, orderedCaloHitList') ->
    forall layer remaining hit,
      (layer, remaining) ∈ orderedCaloHitList' -> hit ∈ remaining ->
      (hit ∉ hits)
      /\ exists before, (layer, before) ∈ orderedCaloHitList /\ hit ∈ before.

(** Modelled from the spec: [OrderedCaloHitList::Remove]
    (Objects/OrderedCaloHitList.cc is not part of the sources), the removal
    operation that accepts a set of hits to discard and returns a
    success/failure signal: it erases the given hits from every layer, drops
    the layers left empty and reports success. *)
Definition OrderedCaloHitList_Remove (orderedCaloHitList : list (Z * list N))
  (hits : list N) : StatusCode * list (Z * list N) :=
  (STATUS_CODE_SUCCESS,
   filter (fun layer => layer.2 <> [])
          ((fun layer : Z * list N =>
              (layer.1, filter (fun hit => hit ∉ hits) layer.2))
             <$> orderedCaloHitList)).

(** A position whose three coordinates are numbers, none an infinity. *)
Definition finitePosition (v : CartesianVector) : bool :=
  Float32.is_finite (m_x v) && Float32.is_finite (m_y v) && Float32.is_finite (m_z v).

(** ** Concrete data for the examples *)

(** An available ECAL barrel hit at integer coordinates, with density weight
    [w] and no other property set. *)
Definition hitAt (x y z w : Z) : CaloHit :=
  mkCaloHit (mkCartesianVector (Float32.of_Z x) (Float32.of_Z y) (Float32.of_Z z))
            ECAL BARREL true (Float32.of_Z w) (Float32.of_Z 0) false false.

(** Settings with maximum separation 10, both isolation cuts 5 and the given
    density-weight power. *)
Definition settingsWithPower (densityWeightPower : N) : PandoraSettings :=
  mkPandoraSettings (Float32.of_Z 10) densityWeightPower
                    (Float32.of_Z 5) (Float32.of_Z 5).

(** Every hit at (1, 0, 0); every hit at the origin. *)
Definition hitsAtOne : N -> CaloHit := fun _ => hitAt 1 0 0 0.
Definition hitsAtOrigin : N -> CaloHit := fun _ => hitAt 0 0 0 0.

(** ** The states the successful calls lead to *)

(** The usage map [CreateInitialCaloHitUsageMap] builds from hits that are
    pairwise distinct: every hit with value [false]. *)
Definition seedMap (hits : list N) (m : gmap N bool) : gmap N bool :=
  foldl (fun acc h => <[h := false]> acc) m hits.

(** The hits of an ordered calo hit list, layer after layer. *)
Definition allHits (orderedCaloHitList : list (Z * list N)) : list N :=
  concat orderedCaloHitList.*2.

Definition initialisedManager (s : Manager) (usageMapName : string)
  (orderedCaloHitList : list (Z * list N)) : Manager :=
  let p := newAddress (usageMapHeap s) in
  mkManager (m_nReclusteringProcesses s + 1) p
            (if decide (0 < m_nReclusteringProcesses s)
             then m_parentCaloHitUsageMaps s ++ [m_pCurrentUsageMap s]
             else m_parentCaloHitUsageMaps s)
            (m_nestedUsageMapNames s ++ [[usageMapName]])
            (<[usageMapName := p]> (m_nameToCaloHitUsageMap s))
            (<[p := seedMap (allHits orderedCaloHitList) ∅]> (usageMapHeap s)).

Definition siblingManager (s : Manager) (usageMapName : string)
  (current : gmap N bool) (levels : list (list string)) (back : list string)
  : Manager :=
  let p := newAddress (usageMapHeap s) in
  mkManager (m_nReclusteringProcesses s) p (m_parentCaloHitUsageMaps s)
            (levels ++ [back ++ [usageMapName]])
            (<[usageMapName := p]> (m_nameToCaloHitUsageMap s))
            (<[p := (fun _ : bool => true) <$> current]> (usageMapHeap s)).

Definition clearedManager (s : Manager) : Manager :=
  mkManager 0 NULL [] [] ∅
            (freeMaps (map_to_list (m_nameToCaloHitUsageMap s)).*2 (usageMapHeap s)).

Definition mergedManager (s : Manager) (usageMap : gmap N bool) (pParent : N)
  (parent : gmap N bool) (levels : list (list string)) (back : list string)
  : Manager :=
  mkManager (m_nReclusteringProcesses s - 1) pParent
            (removelast (m_parentCaloHitUsageMaps s)) levels
            (eraseNames back (m_nameToCaloHitUsageMap s))
            (freeMaps (omap (fun name => m_nameToCaloHitUsageMap s !! name) back)
                      (<[pParent := overwriteEntries (usageMapEntries usageMap) parent]>
                         (usageMapHeap s))).

(** ** The sibling-isolation scenario

    [CreateInitial("h0", {A, B})] with no reclustering process open, then
    [CreateAdditional("h1")], then [A] set unavailable, then [Apply("h1")]
    and at last [Apply("h0")].  The result is the status codes of the first
    four calls, the status code of the last one, and the hits and the state
    at the end. *)
Definition siblingIsolationScenario (mem : N -> CaloHit) (A B : N) (layer : Z)
  : option (list StatusCode * StatusCode * (N -> CaloHit) * Manager) :=
  '(rc1, s1) ← CreateInitialCaloHitUsageMap initialManager "h0" [(layer, [A; B])];
  '(rc2, s2) ← CreateAdditionalCaloHitUsageMap s1 "h1";
  '(rc3, mem3, s3) ← SetCaloHitAvailability mem s2 A false;
  '(rc4, mem4, s4) ← ApplyCaloHitUsageMap mem3 s3 "h1";
  '(rc5, mem5, s5) ← ApplyCaloHitUsageMap mem4 s4 "h0";
  Some ([rc1; rc2; rc3; rc4], rc5, mem5, s5).

(** The state after [CreateInitial("h0", {1, 2})] on the initial state, and
    the state after [CreateInitial("h1", {1, 2})] on that one. *)
Definition oneLevelManager : Manager :=
  initialisedManager initialManager "h0" [(0, [1%N; 2%N])].

Definition twoLevelManager : Manager :=
  initialisedManager oneLevelManager "h1" [(0, [1%N; 2%N])].

(** Two levels where the usage map of the second level has a hit, 3, that
    the usage map of the first level does not have. *)
Definition mismatchedManager : Manager :=
  initialisedManager oneLevelManager "h1" [(0, [1%N; 2%N; 3%N])].

(** The usage map with hits 1 and 2, both [false]. *)
Definition seedOneTwo : gmap N bool := seedMap [1%N; 2%N] ∅.

(** Hit 1 unavailable, every other hit available. *)
Definition hitOneUnavailable : N -> CaloHit :=
  <[1%N := set_isAvailable false (hitAt 1 0 0 0)]> hitsAtOne.

(** Hit 1 with density weight 7, hit 2 with density weight 0 and already
    isolated. *)
Definition isolationHits : N -> CaloHit :=
  <[1%N := hitAt 1 0 0 7]> (<[2%N := SetIsolatedFlag true (hitAt 1 0 0 0)]> hitsAtOne).

(** ** Auxiliary definitions for the density weight *)

(** A hit of the list that takes part in the density weight of [pCaloHit]:
    another hit, not farther away than the maximum separation. *)
Definition contributes (settings : PandoraSettings) (mem : N -> CaloHit)
  (pCaloHit iter : N) : Prop :=
  pCaloHit <> iter
  /\ Float32.gtb
       (CartesianVector.GetMagnitudeSquared
          (CartesianVector.minus (m_positionVector (mem pCaloHit))
                                 (m_positionVector (mem iter))))
       (Float32.mul (GetCaloHitMaxSeparation settings) (GetCaloHitMaxSeparation settings))
     = false.

#[global] Instance contributes_dec settings mem pCaloHit iter :
  Decision (contributes settings mem pCaloHit iter).
Proof. unfold contributes. apply _. Defined.

(** What the proofs carry through the arithmetic to show that a value is not
    below zero: a zero, a number or an infinity with the sign bit clear, or
    the NaN ([spec_float] has one NaN, with no sign; nothing is said here of
    the sign bit of a NaN of the machine). *)
Definition signClear (x : spec_float) : bool :=
  match x with
  | S754_zero s | S754_infinity s | S754_finite s _ _ => negb s
  | S754_nan => true
  end.

(** ** binary64 arithmetic, for the subexpressions the C++ evaluates in
    [double] *)

Module Float64.
Definition prec : Z := 53.
Definition emax : Z := 1024.

Definition mul : spec_float -> spec_float -> spec_float := SFmul prec emax.
Definition gtb (x y : spec_float) : bool := SFltb y x.

(** The double nearest to an integer: the literal [10.]. *)
Definition of_Z (z : Z) : spec_float := binary_normalize prec emax z 0 false.

(** The conversion of a [float] to [double]: the same number, with the
    mantissa and the exponent of its binary64 representation. *)
Definition of_float (x : spec_float) : spec_float :=
  match x with
  | S754_finite s m e => binary_round prec emax s m e
  | _ => x
  end.
End Float64.

(** ** Counting the nearby hits for the isolation flag *)

(** The loop of [IsolationCountNearbyHits]; the settings it reads are its
    first two arguments, and the count is an [unsigned int]. *)
Fixpoint IsolationCountNearbyHits_loop (caloHitMaxSeparation isolationCutDistance : spec_float)
  (mem : N -> CaloHit) (pCaloHit : N) (positionVector : CartesianVector)
  (positionMagnitude : spec_float) (l : list N) (nearbyHitsFound : Z) : Z :=
  match l with
  | [] => nearbyHitsFound
  | iter :: l' =>
      if decide (pCaloHit = iter) then
        IsolationCountNearbyHits_loop caloHitMaxSeparation isolationCutDistance mem
          pCaloHit positionVector positionMagnitude l' nearbyHitsFound
      else
        let positionDifference :=
          CartesianVector.minus positionVector (m_positionVector (mem iter)) in
        let crossProduct :=
          CartesianVector.GetCrossProduct positionVector positionDifference in
        if Float64.gtb (Float64.of_float (CartesianVector.GetMagnitude positionDifference))
                       (Float64.mul (Float64.of_Z 10)
                                    (Float64.of_float caloHitMaxSeparation)) then
          IsolationCountNearbyHits_loop caloHitMaxSeparation isolationCutDistance mem
            pCaloHit positionVector positionMagnitude l' nearbyHitsFound
        else
          IsolationCountNearbyHits_loop caloHitMaxSeparation isolationCutDistance mem
            pCaloHit positionVector positionMagnitude l'
            (if Float32.ltb (Float32.div (CartesianVector.GetMagnitude crossProduct)
                                         positionMagnitude)
                            isolationCutDistance
             then wrap32 (nearbyHitsFound + 1) else nearbyHitsFound)
  end.

Definition IsolationCountNearbyHits
  (caloHitMaxSeparation isolationCutDistanceECal isolationCutDistanceHCal : spec_float)
  (mem : N -> CaloHit) (pCaloHit : N) (pCaloHitList : list N) : Z :=
  let positionVector := m_positionVector (mem pCaloHit) in
  let positionMagnitude := CartesianVector.GetMagnitude positionVector in
  let isolationCutDistance :=
    if decide (m_hitType (mem pCaloHit) = ECAL) then isolationCutDistanceECal
    else isolationCutDistanceHCal in
  IsolationCountNearbyHits_loop caloHitMaxSeparation isolationCutDistance mem pCaloHit
    positionVector positionMagnitude pCaloHitList 0.

(** A zero or a NaN. *)
Definition zeroOrNaN (x : spec_float) : bool :=
  match x with S754_zero _ | S754_nan => true | _ => false end.

(** ** Objects/Track.cc: associations of a track *)

(** The members of [Track] that the association functions read and write:
    the associated cluster, the Monte-Carlo particle, and the parent, sibling
    and daughter track lists, each a [std::set] of track addresses.  Clusters,
    particles and tracks are addresses, [NULL] being 0. *)
Record Track : Type := mkTrack {
  m_pAssociatedCluster : N;
  m_pMCParticle : N;
  m_parentTrackList : gset N;
  m_siblingTrackList : gset N;
  m_daughterTrackList : gset N
}.

#[global] Instance Track_eq_dec : EqDecision Track.
Proof. solve_decision. Defined.

Definition Track_SetMCParticle (t : Track) (pMCParticle : N) : StatusCode * Track :=
  if decide (NULL = pMCParticle) then (STATUS_CODE_FAILURE, t)
  else (STATUS_CODE_SUCCESS,
        mkTrack (m_pAssociatedCluster t) pMCParticle (m_parentTrackList t)
                (m_siblingTrackList t) (m_daughterTrackList t)).

Definition Track_SetAssociatedCluster (t : Track) (pCluster : N) : StatusCode * Track :=
  if decide (NULL = pCluster) then (STATUS_CODE_INVALID_PARAMETER, t)
  else if decide (NULL <> m_pAssociatedCluster t) then (STATUS_CODE_ALREADY_INITIALIZED, t)
  else (STATUS_CODE_SUCCESS,
        mkTrack pCluster (m_pMCParticle t) (m_parentTrackList t)
                (m_siblingTrackList t) (m_daughterTrackList t)).

Definition Track_RemoveAssociatedCluster (t : Track) (pCluster : N) : StatusCode * Track :=
  if decide (pCluster <> m_pAssociatedCluster t) then (STATUS_CODE_NOT_FOUND, t)
  else (STATUS_CODE_SUCCESS,
        mkTrack NULL (m_pMCParticle t) (m_parentTrackList t)
                (m_siblingTrackList t) (m_daughterTrackList t)).

Definition Track_AddParent (t : Track) (pTrack : N) : StatusCode * Track :=
  if decide (NULL = pTrack) then (STATUS_CODE_INVALID_PARAMETER, t)
  else if decide (pTrack ∈ m_parentTrackList t) then (STATUS_CODE_ALREADY_PRESENT, t)
  else (STATUS_CODE_SUCCESS,
        mkTrack (m_pAssociatedCluster t) (m_pMCParticle t)
                ({[pTrack]} ∪ m_parentTrackList t)
                (m_siblingTrackList t) (m_daughterTrackList t)).

Definition Track_AddDaughter (t : Track) (pTrack : N) : StatusCode * Track :=
  if decide (NULL = pTrack) then (STATUS_CODE_INVALID_PARAMETER, t)
  else if decide (pTrack ∈ m_daughterTrackList t) then (STATUS_CODE_ALREADY_PRESENT, t)
  else (STATUS_CODE_SUCCESS,
        mkTrack (m_pAssociatedCluster t) (m_pMCParticle t) (m_parentTrackList t)
                (m_siblingTrackList t) ({[pTrack]} ∪ m_daughterTrackList t)).

Definition Track_AddSibling (t : Track) (pTrack : N) : StatusCode * Track :=
  if decide (NULL = pTrack) then (STATUS_CODE_INVALID_PARAMETER, t)
  else if decide (pTrack ∈ m_siblingTrackList t) then (STATUS_CODE_ALREADY_PRESENT, t)
  else (STATUS_CODE_SUCCESS,
        mkTrack (m_pAssociatedCluster t) (m_pMCParticle t) (m_parentTrackList t)
                ({[pTrack]} ∪ m_siblingTrackList t) (m_daughterTrackList t)).

(** A track as the constructor leaves its associations: no cluster, no
    particle, no relatives. *)
Definition newTrack : Track := mkTrack NULL NULL ∅ ∅ ∅.

(** ** Sequences of calls

    A caller that makes the calls of a list in turn and goes on only while
    each returns [STATUS_CODE_SUCCESS]. *)

Inductive Call : Type :=
  | CallCreateInitial (usageMapName : string) (orderedCaloHitList : list (Z * list N))
  | CallCreateAdditional (usageMapName : string)
  | CallApply (usageMapName : string)
  | CallSetAvailability (pCaloHit : N) (isAvailable : bool)
  | CallSetAvailabilityList (caloHitList : list N) (isAvailable : bool).

Definition runCall (c : Call) (mem : N -> CaloHit) (s : Manager)
  : option (StatusCode * (N -> CaloHit) * Manager) :=
  match c with
  | CallCreateInitial usageMapName orderedCaloHitList =>
      '(rc, s') ← CreateInitialCaloHitUsageMap s usageMapName orderedCaloHitList;
      Some (rc, mem, s')
  | CallCreateAdditional usageMapName =>
      '(rc, s') ← CreateAdditionalCaloHitUsageMap s usageMapName;
      Some (rc, mem, s')
  | CallApply usageMapName => ApplyCaloHitUsageMap mem s usageMapName
  | CallSetAvailability pCaloHit isAvailable =>
      SetCaloHitAvailability mem s pCaloHit isAvailable
  | CallSetAvailabilityList caloHitList isAvailable =>
      SetCaloHitAvailabilityList mem s caloHitList isAvailable
  end.

(** The hits and the state after all the calls, when each of them returned
    success. *)
Fixpoint runSuccessfulCalls (cs : list Call) (mem : N -> CaloHit) (s : Manager)
  : option ((N -> CaloHit) * Manager) :=
  match cs with
  | [] => Some (mem, s)
  | c :: cs' =>
      '(rc, mem', s') ← runCall c mem s;
      if decide (rc = STATUS_CODE_SUCCESS) then runSuccessfulCalls cs' mem' s'
      else None
  end.

(** ** More example data *)

(** Hit 2 at (1, 1, 0), every other hit at (1, 0, 0). *)
Definition hitTwoAside : N -> CaloHit := <[2%N := hitAt 1 1 0 0]> hitsAtOne.

(** A reclustering: open a process over hits 1 and 2, release hit 1, add a
    sibling usage map, take hit 2 in it, and apply the sibling. *)
Definition reclusteringCalls : list Call :=
  [CallCreateInitial "h0" [(0, [1%N; 2%N])];
   CallSetAvailability 1 true;
   CallCreateAdditional "h1";
   CallSetAvailabilityList [2%N] false;
   CallApply "h1"].

(** A track associated with cluster 7. *)
Definition trackWithCluster : Track := mkTrack 7 NULL ∅ ∅ ∅.

(** * Properties *)

(** ** Availability queries *)

Lemma lookupAvailable_default (m : gmap N bool) (h : N) :
  lookupAvailable m h = default false (m !! h).
Proof. unfold lookupAvailable. destruct (m !! h) as [[]|]; reflexivity. Qed.

(** C5: with no reclustering process open, [IsCaloHitAvailable] returns the
    hit's own flag; with at least one open it returns the value the current
    usage map gives the hit, and [false], without any error, for a hit that
    is not a key of the current usage map. *)
Theorem IsCaloHitAvailable_spec (mem : N -> CaloHit) (s : Manager) (H : N) :
  (m_nReclusteringProcesses s = 0 ->
     IsCaloHitAvailable mem s H = Some (m_isAvailable (mem H)))
  /\ (forall current : gmap N bool,
        1 <= m_nReclusteringProcesses s ->
        usageMapHeap s !! m_pCurrentUsageMap s = Some current ->
        (forall value, current !! H = Some value ->
                       IsCaloHitAvailable mem s H = Some value)
        /\ (current !! H = None -> IsCaloHitAvailable mem s H = Some false)).
Proof.
  unfold IsCaloHitAvailable. split.
  - intros ->. by rewrite decide_True.
  - intros current Hdepth Hcur. rewrite decide_False by lia.
    rewrite Hcur. simpl. rewrite lookupAvailable_default.
    split; [intros value ->|intros ->]; reflexivity.
Qed.

(** ** Setting availability *)

Lemma withHeap_id (s : Manager) : withHeap s (usageMapHeap s) = s.
Proof. by destruct s. Qed.

Lemma setEntries_lookup_in (l : list N) v (m : gmap N bool) (h : N) :
  h ∈ l -> setEntries l v m !! h = Some v.
Proof.
  unfold setEntries. revert m. induction l as [|a l IH] using rev_ind; intros m Hin.
  - by apply elem_of_nil in Hin.
  - rewrite foldl_app. simpl. destruct (decide (a = h)) as [->|Hne].
    + by rewrite lookup_insert_eq.
    + rewrite lookup_insert_ne by done. apply IH.
      apply elem_of_app in Hin as [Hin|Hin]; [done|].
      apply list_elem_of_singleton in Hin. congruence.
Qed.

Lemma setEntries_lookup_notin (l : list N) v (m : gmap N bool) (h : N) :
  h ∉ l -> setEntries l v m !! h = m !! h.
Proof.
  unfold setEntries. revert m. induction l as [|a l IH]; intros m Hnin; [done|].
  simpl. rewrite IH by (intros ?; apply Hnin; by right).
  apply lookup_insert_ne. intros ->. apply Hnin. by left.
Qed.

(** The loop over hits that are all keys of the current usage map runs to
    the end of them. *)
Lemma SetCaloHitAvailability_loop_app (pre rest : list N) v :
  forall (s : Manager) (current : gmap N bool),
    usageMapHeap s !! m_pCurrentUsageMap s = Some current ->
    Forall (fun h => is_Some (current !! h)) pre ->
    SetCaloHitAvailability_loop s (pre ++ rest) v
    = SetCaloHitAvailability_loop
        (withHeap s (<[m_pCurrentUsageMap s := setEntries pre v current]> (usageMapHeap s)))
        rest v.
Proof.
  induction pre as [|h pre IH]; intros s current Hcur Hall.
  - simpl. unfold setEntries. simpl. rewrite insert_id by done. by rewrite withHeap_id.
  - inversion Hall as [|? ? [b Hb] Hpre]; subst. simpl. rewrite Hcur. simpl. rewrite Hb.
    rewrite (IH _ (<[h := v]> current)).
    + unfold setCurrentEntry, withHeap. simpl. by rewrite insert_insert_eq.
    + unfold setCurrentEntry. simpl. by rewrite lookup_insert_eq.
    + eapply Forall_impl; [exact Hpre|]. intros h' [b' Hb']. simpl.
      destruct (decide (h = h')) as [->|Hne].
      * rewrite lookup_insert_eq. eauto.
      * rewrite lookup_insert_ne by done. eauto.
Qed.

(** C6: with no reclustering process open, [SetCaloHitAvailability] succeeds
    and sets the hit's own flag; with at least one open it updates the entry
    of the hit in the current usage map and returns [STATUS_CODE_NOT_FOUND]
    for a hit that is not a key of it; the overload taking a list has updated
    the entries of the hits before the first unknown one when it returns
    [STATUS_CODE_NOT_FOUND]. *)
Theorem SetCaloHitAvailability_spec (mem : N -> CaloHit) (s : Manager) (H : N) (v : bool) :
  (m_nReclusteringProcesses s = 0 ->
     exists mem',
       SetCaloHitAvailability mem s H v = Some (STATUS_CODE_SUCCESS, mem', s)
       /\ m_isAvailable (mem' H) = v
       /\ forall H', H' <> H -> mem' H' = mem H')
  /\ (forall current : gmap N bool,
        1 <= m_nReclusteringProcesses s ->
        usageMapHeap s !! m_pCurrentUsageMap s = Some current ->
        (is_Some (current !! H) ->
           SetCaloHitAvailability mem s H v
           = Some (STATUS_CODE_SUCCESS, mem,
                   withHeap s (<[m_pCurrentUsageMap s := <[H := v]> current]> (usageMapHeap s))))
        /\ (current !! H = None ->
              SetCaloHitAvailability mem s H v = Some (STATUS_CODE_NOT_FOUND, mem, s))
        /\ (forall pre post : list N,
              Forall (fun h => is_Some (current !! h)) pre ->
              current !! H = None ->
              exists current',
                SetCaloHitAvailabilityList mem s (pre ++ H :: post) v
                = Some (STATUS_CODE_NOT_FOUND, mem,
                        withHeap s (<[m_pCurrentUsageMap s := current']> (usageMapHeap s)))
                /\ (forall h, h ∈ pre -> current' !! h = Some v)
                /\ (forall h, h ∉ pre -> current' !! h = current !! h))).
Proof.
  split.
  - intros Hdepth. unfold SetCaloHitAvailability. rewrite decide_True by done.
    eexists. split; [reflexivity|]. split.
    + by rewrite fn_lookup_insert.
    + intros H' Hne. by rewrite fn_lookup_insert_ne.
  - intros current Hdepth Hcur. split; [|split].
    + intros [b Hb]. unfold SetCaloHitAvailability. rewrite decide_False by lia.
      rewrite Hcur. simpl. by rewrite Hb.
    + intros Hnone. unfold SetCaloHitAvailability. rewrite decide_False by lia.
      rewrite Hcur. simpl. by rewrite Hnone.
    + intros pre post Hpre Hnone. exists (setEntries pre v current).
      split; [|split].
      * unfold SetCaloHitAvailabilityList. rewrite decide_False by lia.
        rewrite (SetCaloHitAvailability_loop_app pre (H :: post) v s current Hcur Hpre).
        simpl. rewrite lookup_insert_eq. simpl.
        rewrite setEntries_lookup_notin; [by rewrite Hnone|].
        intros Hin. rewrite Forall_forall in Hpre. apply Hpre in Hin as [? ?]. congruence.
      * intros h Hin. by apply setEntries_lookup_in.
      * intros h Hnin. by apply setEntries_lookup_notin.
Qed.

(** ** Usage maps, entries and the loops over them *)

Lemma usageMapEntries_perm (m : gmap N bool) : usageMapEntries m ≡ₚ map_to_list m.
Proof. apply merge_sort_Permutation. Qed.

Lemma elem_of_usageMapEntries (m : gmap N bool) (h : N) (v : bool) :
  (h, v) ∈ usageMapEntries m <-> m !! h = Some v.
Proof. rewrite usageMapEntries_perm. apply elem_of_map_to_list. Qed.

Lemma NoDup_usageMapEntries (m : gmap N bool) : NoDup (usageMapEntries m).*1.
Proof. rewrite usageMapEntries_perm. apply NoDup_fst_map_to_list. Qed.

Lemma elem_of_usageMapEntries_keys (m : gmap N bool) (h : N) :
  h ∈ (usageMapEntries m).*1 <-> is_Some (m !! h).
Proof.
  rewrite list_elem_of_fmap. split.
  - intros [[h' v] [-> Hin]]. apply elem_of_usageMapEntries in Hin. eauto.
  - intros [v Hv]. exists (h, v). split; [done|]. by apply elem_of_usageMapEntries.
Qed.

Lemma writeBack_notin (entries : list (N * bool)) (mem : N -> CaloHit) (h : N) :
  h ∉ entries.*1 -> writeBack entries mem h = mem h.
Proof.
  revert mem. induction entries as [|[a b] entries IH]; intros mem Hnin; [done|].
  simpl in *. rewrite IH by (intros ?; apply Hnin; by right).
  apply fn_lookup_insert_ne. intros ->. apply Hnin. by left.
Qed.

Lemma writeBack_in (entries : list (N * bool)) (mem : N -> CaloHit) (h : N) (v : bool) :
  NoDup entries.*1 -> (h, v) ∈ entries ->
  writeBack entries mem h = set_isAvailable v (mem h).
Proof.
  revert mem. induction entries as [|[a b] entries IH]; intros mem Hnd Hin.
  - by apply elem_of_nil in Hin.
  - simpl in *. apply NoDup_cons in Hnd as [Ha Hnd].
    apply elem_of_cons in Hin as [Heq|Hin].
    + injection Heq as <- <-. rewrite writeBack_notin by done.
      by rewrite fn_lookup_insert.
    + rewrite IH by done. rewrite fn_lookup_insert_ne; [done|].
      intros ->. apply Ha. apply list_elem_of_fmap. by exists (h, v).
Qed.

Lemma overwriteEntries_notin (entries : list (N * bool)) (m : gmap N bool) (h : N) :
  h ∉ entries.*1 -> overwriteEntries entries m !! h = m !! h.
Proof.
  unfold overwriteEntries. revert m.
  induction entries as [|[a b] entries IH]; intros m Hnin; [done|].
  simpl in *. rewrite IH by (intros ?; apply Hnin; by right).
  apply lookup_insert_ne. intros ->. apply Hnin. by left.
Qed.

Lemma overwriteEntries_in (entries : list (N * bool)) (m : gmap N bool) (h : N) (v : bool) :
  NoDup entries.*1 -> (h, v) ∈ entries -> overwriteEntries entries m !! h = Some v.
Proof.
  revert m. induction entries as [|[a b] entries IH]; intros m Hnd Hin.
  - by apply elem_of_nil in Hin.
  - simpl in *. apply NoDup_cons in Hnd as [Ha Hnd].
    apply elem_of_cons in Hin as [Heq|Hin].
    + injection Heq as <- <-.
      change (overwriteEntries entries (<[h := v]> m) !! h = Some v).
      rewrite overwriteEntries_notin by done. by rewrite lookup_insert_eq.
    + by apply IH.
Qed.

Lemma mergeIntoCurrent_ok (entries : list (N * bool)) (pCurrent : N) :
  forall (heap : gmap N (gmap N bool)) (current : gmap N bool),
    heap !! pCurrent = Some current ->
    Forall (fun e => is_Some (current !! e.1)) entries ->
    mergeIntoCurrent entries pCurrent heap
    = Some (STATUS_CODE_SUCCESS, <[pCurrent := overwriteEntries entries current]> heap).
Proof.
  induction entries as [|[h v] entries IH]; intros heap current Hcur Hall.
  - simpl. by rewrite insert_id.
  - inversion Hall as [|? ? [b Hb] Hrest]; subst. simpl in *. rewrite Hcur. simpl.
    rewrite Hb. rewrite (IH _ (<[h := v]> current)).
    + by rewrite insert_insert_eq.
    + by rewrite lookup_insert_eq.
    + eapply Forall_impl; [exact Hrest|]. intros [h' v'] [b' Hb']. simpl in *.
      destruct (decide (h = h')) as [->|Hne].
      * rewrite lookup_insert_eq. eauto.
      * rewrite lookup_insert_ne by done. eauto.
Qed.

Lemma mergeIntoCurrent_fail (entries : list (N * bool)) (pCurrent : N) :
  forall (heap : gmap N (gmap N bool)) (current : gmap N bool),
    heap !! pCurrent = Some current ->
    Exists (fun e => current !! e.1 = None) entries ->
    exists heap', mergeIntoCurrent entries pCurrent heap = Some (STATUS_CODE_FAILURE, heap').
Proof.
  induction entries as [|[h v] entries IH]; intros heap current Hcur Hex.
  - inversion Hex.
  - simpl. rewrite Hcur. simpl. destruct (current !! h) as [b|] eqn:Hb; [|eauto].
    apply (IH _ (<[h := v]> current)).
    + by rewrite lookup_insert_eq.
    + inversion Hex as [? ? Hhead|? ? Htail]; subst; simpl in *; [congruence|].
      eapply Exists_impl; [exact Htail|]. intros [h' v'] Hnone. simpl in *.
      rewrite lookup_insert_ne; [done|]. intros ->. congruence.
Qed.

Lemma freeMaps_lookup (ps : list N) (heap : gmap N (gmap N bool)) (p : N) :
  freeMaps ps heap !! p = if decide (p ∈ ps) then None else heap !! p.
Proof.
  unfold freeMaps. revert heap. induction ps as [|a ps IH]; intros heap; [done|].
  simpl. rewrite IH. destruct (decide (p ∈ ps)) as [Hin|Hnin].
  - rewrite decide_True; [done|by right].
  - destruct (decide (a = p)) as [->|Hne].
    + rewrite lookup_delete_eq. rewrite decide_True; [done|by left].
    + rewrite lookup_delete_ne by done. rewrite decide_False; [done|].
      intros Hin. apply elem_of_cons in Hin as [->|?]; done.
Qed.

Lemma eraseNames_lookup (names : list string) (registry : gmap string N) (name : string) :
  eraseNames names registry !! name
  = if decide (name ∈ names) then None else registry !! name.
Proof.
  unfold eraseNames. revert registry. induction names as [|a names IH]; intros registry; [done|].
  simpl. rewrite IH. destruct (decide (name ∈ names)) as [Hin|Hnin].
  - rewrite decide_True; [done|by right].
  - destruct (decide (a = name)) as [->|Hne].
    + rewrite lookup_delete_eq. rewrite decide_True; [done|by left].
    + rewrite lookup_delete_ne by done. rewrite decide_False; [done|].
      intros Hin. apply elem_of_cons in Hin as [->|?]; done.
Qed.

Lemma deleteMaps_ok (ps : list N) :
  forall heap : gmap N (gmap N bool),
    NoDup ps ->
    Forall (fun p => p <> NULL /\ is_Some (heap !! p)) ps ->
    deleteMaps ps heap = Some (freeMaps ps heap).
Proof.
  induction ps as [|p ps IH]; intros heap Hnd Hall; [done|].
  apply NoDup_cons in Hnd as [Hp Hnd].
  inversion Hall as [|? ? [Hnull [m Hm]] Hrest]; subst.
  simpl. unfold deleteMap. rewrite decide_False by done. rewrite Hm. simpl.
  apply IH; [done|]. rewrite Forall_forall in Hrest |- *.
  intros q Hq. destruct (Hrest q Hq) as [Hqn Hqs]. split; [done|].
  rewrite lookup_delete_ne; [done|]. intros ->. done.
Qed.

Lemma omap_ext_in {A B} (f g : A -> option B) (l : list A) :
  (forall x, x ∈ l -> f x = g x) -> omap f l = omap g l.
Proof.
  induction l as [|a l IH]; intros Hfg; [done|]. csimpl.
  rewrite (Hfg a) by (by left). rewrite IH; [done|].
  intros x Hx. apply Hfg. by right.
Qed.

Lemma clearNames_ok (names : list string) :
  forall (registry : gmap string N) (heap : gmap N (gmap N bool)),
    NoDup names ->
    NoDup (omap (fun name => registry !! name) names) ->
    Forall (fun name => exists p, registry !! name = Some p /\ p <> NULL
                                  /\ is_Some (heap !! p)) names ->
    clearNames names registry heap
    = Some (STATUS_CODE_SUCCESS, eraseNames names registry,
            freeMaps (omap (fun name => registry !! name) names) heap).
Proof.
  induction names as [|name names IH]; intros registry heap Hnd Hptrs Hall; [done|].
  apply NoDup_cons in Hnd as [Hname Hnd].
  inversion Hall as [|? ? (p & Hp & Hnull & [m Hm]) Hrest]; subst.
  simpl in *. rewrite Hp in *. simpl in *. apply NoDup_cons in Hptrs as [Hpnin Hptrs].
  unfold deleteMap. rewrite decide_False by done. rewrite Hm. simpl.
  assert (Hsame : omap (fun n => delete name registry !! n) names
                  = omap (fun n => registry !! n) names).
  { apply omap_ext_in. intros n Hn.
    rewrite lookup_delete_ne; [done|]. intros ->. done. }
  rewrite IH; [by rewrite Hsame|done|by rewrite Hsame|].
  rewrite Forall_forall in Hrest |- *. intros n Hn.
  destruct (Hrest n Hn) as (q & Hq & Hqn & Hqs).
  exists q. rewrite lookup_delete_ne by (intros ->; done). split; [done|]. split; [done|].
  rewrite lookup_delete_ne; [done|]. intros ->. apply Hpnin.
  apply list_elem_of_omap. eauto.
Qed.

(** ** Consequences of the invariant *)

Lemma invariant_registry_live (s : Manager) (name : string) (p : N) :
  ManagerInvariant s -> m_nameToCaloHitUsageMap s !! name = Some p ->
  p <> NULL /\ is_Some (usageMapHeap s !! p).
Proof. intros (_ & _ & _ & _ & _ & Hlive & _) Hp. exact (Hlive name p Hp). Qed.

Lemma invariant_registry_inj (s : Manager) (n1 n2 : string) (p : N) :
  ManagerInvariant s ->
  m_nameToCaloHitUsageMap s !! n1 = Some p ->
  m_nameToCaloHitUsageMap s !! n2 = Some p -> n1 = n2.
Proof.
  intros (_ & _ & _ & _ & Hnd & _) H1 H2.
  apply elem_of_map_to_list in H1, H2.
  apply list_elem_of_lookup in H1 as [i Hi], H2 as [j Hj].
  assert (i = j) as ->.
  { eapply NoDup_lookup; [exact Hnd| |]; rewrite list_lookup_fmap.
    - by rewrite Hi.
    - by rewrite Hj. }
  congruence.
Qed.

Lemma invariant_registry_pointers (s : Manager) :
  ManagerInvariant s ->
  Forall (fun p => p <> NULL /\ is_Some (usageMapHeap s !! p))
         (map_to_list (m_nameToCaloHitUsageMap s)).*2.
Proof.
  intros (_ & _ & _ & _ & _ & Hlive & _). rewrite Forall_forall. intros p Hp.
  apply list_elem_of_fmap in Hp as [[name q] [-> Hin]].
  apply elem_of_map_to_list in Hin. exact (Hlive name q Hin).
Qed.

(** ** What each call returns on a state that meets the invariant *)

Lemma newAddress_fresh (heap : gmap N (gmap N bool)) :
  newAddress heap <> NULL /\ heap !! newAddress heap = None.
Proof.
  pose proof (is_fresh ({[NULL]} ∪ dom heap : gset N)) as Hfresh.
  fold (newAddress heap) in Hfresh. split.
  - intros Heq. apply Hfresh. rewrite Heq. set_solver.
  - apply not_elem_of_dom. set_solver.
Qed.

Lemma invariant_levels (s : Manager) :
  ManagerInvariant s -> 1 <= m_nReclusteringProcesses s ->
  exists levels back, m_nestedUsageMapNames s = levels ++ [back].
Proof.
  intros (Hdepth & _) Hpos.
  destruct (last (m_nestedUsageMapNames s)) as [back|] eqn:Hlast.
  - apply last_Some in Hlast as [levels ->]. eauto.
  - apply last_None in Hlast. rewrite Hlast in Hdepth. simpl in Hdepth. lia.
Qed.

Lemma invariant_back_names (s : Manager) (levels : list (list string)) (back : list string) :
  ManagerInvariant s -> m_nestedUsageMapNames s = levels ++ [back] ->
  NoDup back
  /\ NoDup (omap (fun name => m_nameToCaloHitUsageMap s !! name) back)
  /\ Forall (fun name => exists p, m_nameToCaloHitUsageMap s !! name = Some p
                                   /\ p <> NULL /\ is_Some (usageMapHeap s !! p)) back.
Proof.
  intros Hinv Hlevels.
  pose proof Hinv as (_ & _ & Hnd & Hdom & _). rewrite Hlevels in Hnd, Hdom.
  rewrite concat_app in Hnd, Hdom. simpl in Hnd, Hdom. rewrite app_nil_r in Hnd, Hdom.
  apply NoDup_app in Hnd as (_ & _ & Hback).
  assert (Hreg : forall name, name ∈ back ->
            exists p, m_nameToCaloHitUsageMap s !! name = Some p
                      /\ p <> NULL /\ is_Some (usageMapHeap s !! p)).
  { intros name Hin.
    assert (Hd : name ∈ dom (m_nameToCaloHitUsageMap s)).
    { rewrite Hdom. apply elem_of_list_to_set, elem_of_app. by right. }
    apply elem_of_dom in Hd as [p Hp]. exists p. split; [done|].
    by apply (invariant_registry_live s name). }
  split; [done|]. split; [|by apply Forall_forall].
  clear Hdom Hlevels. induction back as [|name back IH]; [constructor|].
  apply NoDup_cons in Hback as [Hname Hback]. csimpl.
  destruct (Hreg name) as (p & Hp & _); [by left|]. rewrite Hp.
  apply NoDup_cons. split.
  - intros Hin. apply list_elem_of_omap in Hin as (name' & Hin' & Hp').
    apply Hname. by rewrite (invariant_registry_inj s name name' p).
  - apply IH; [done|]. intros n Hn. apply Hreg. by right.
Qed.

Lemma invariant_parent_registered (s : Manager) (levels : list (list string))
  (back : list string) (pParent : N) :
  ManagerInvariant s -> m_nestedUsageMapNames s = levels ++ [back] ->
  last (m_parentCaloHitUsageMaps s) = Some pParent ->
  exists name, m_nameToCaloHitUsageMap s !! name = Some pParent /\ name ∉ back.
Proof.
  intros Hinv Hlevels Hlast.
  pose proof Hinv as (_ & _ & Hnd & _ & _ & _ & Hparents & _).
  rewrite Hlevels in Hnd, Hparents. rewrite removelast_last in Hparents.
  apply last_Some in Hlast as [parents Hlast]. rewrite Hlast in Hparents.
  apply Forall2_app_inv_l in Hparents as (levels' & prev & _ & Hprev & ->).
  inversion Hprev as [|? level ? ? Hreg Hnil]; subst. inversion Hnil; subst.
  apply Exists_exists in Hreg as (name & Hin & Hp). exists name. split; [done|].
  rewrite !concat_app in Hnd. simpl in Hnd. rewrite !app_nil_r in Hnd.
  apply NoDup_app in Hnd as (_ & Hdisj & _). apply Hdisj.
  apply elem_of_app. by right.
Qed.

Lemma seedMap_lookup (hits : list N) (m : gmap N bool) (h : N) :
  seedMap hits m !! h = if decide (h ∈ hits) then Some false else m !! h.
Proof.
  unfold seedMap. revert m. induction hits as [|a hits IH]; intros m; [done|].
  simpl. rewrite IH. destruct (decide (h ∈ hits)) as [Hin|Hnin].
  - rewrite decide_True; [done|by right].
  - destruct (decide (a = h)) as [->|Hne].
    + rewrite lookup_insert_eq. rewrite decide_True; [done|by left].
    + rewrite lookup_insert_ne by done. rewrite decide_False; [done|].
      intros Hin. apply elem_of_cons in Hin as [->|?]; done.
Qed.

Lemma seedHits_ok (hits : list N) :
  forall m : gmap N bool,
    NoDup hits -> (forall h, h ∈ hits -> m !! h = None) ->
    seedHits hits m = (true, seedMap hits m).
Proof.
  induction hits as [|h hits IH]; intros m Hnd Hnew; [done|].
  apply NoDup_cons in Hnd as [Hh Hnd]. simpl. rewrite (Hnew h) by (by left).
  apply IH; [done|]. intros h' Hin. rewrite lookup_insert_ne by (intros ->; done).
  apply Hnew. by right.
Qed.

Lemma seedLayers_ok (orderedCaloHitList : list (Z * list N)) :
  forall m : gmap N bool,
    NoDup (allHits orderedCaloHitList) ->
    (forall h, h ∈ allHits orderedCaloHitList -> m !! h = None) ->
    seedLayers orderedCaloHitList m = (true, seedMap (allHits orderedCaloHitList) m).
Proof.
  unfold allHits.
  induction orderedCaloHitList as [|[layer hits] layers IH]; intros m Hnd Hnew; [done|].
  simpl in *. apply NoDup_app in Hnd as (Hhits & Hdisj & Hrest).
  rewrite seedHits_ok; [|done|by intros h Hin; apply Hnew, elem_of_app; left].
  rewrite IH; [|done|].
  - unfold seedMap. by rewrite foldl_app.
  - intros h Hin. rewrite seedMap_lookup. rewrite decide_False.
    + apply Hnew, elem_of_app. by right.
    + intros Hin'. by apply (Hdisj h).
Qed.

Lemma CreateInitialCaloHitUsageMap_run (s : Manager) (usageMapName : string)
  (orderedCaloHitList : list (Z * list N)) :
  0 <= m_nReclusteringProcesses s -> m_nReclusteringProcesses s + 1 < 2 ^ 32 ->
  m_nameToCaloHitUsageMap s !! usageMapName = None ->
  NoDup (allHits orderedCaloHitList) ->
  CreateInitialCaloHitUsageMap s usageMapName orderedCaloHitList
  = Some (STATUS_CODE_SUCCESS, initialisedManager s usageMapName orderedCaloHitList).
Proof.
  intros Hpos Hlt Hname Hnd. unfold CreateInitialCaloHitUsageMap. rewrite Hname.
  rewrite seedLayers_ok; [|done|by intros; apply lookup_empty].
  unfold initialisedManager, wrap32. rewrite Z.mod_small by lia.
  by rewrite insert_insert_eq.
Qed.

Lemma CreateAdditionalCaloHitUsageMap_run (s : Manager) (usageMapName : string)
  (current : gmap N bool) (levels : list (list string)) (back : list string) :
  m_nReclusteringProcesses s <> 0 ->
  usageMapHeap s !! m_pCurrentUsageMap s = Some current ->
  m_nameToCaloHitUsageMap s !! usageMapName = None ->
  m_nestedUsageMapNames s = levels ++ [back] ->
  CreateAdditionalCaloHitUsageMap s usageMapName
  = Some (STATUS_CODE_SUCCESS, siblingManager s usageMapName current levels back).
Proof.
  intros Hdepth Hcur Hname Hlevels.
  unfold CreateAdditionalCaloHitUsageMap. rewrite decide_False by done.
  rewrite Hcur. simpl. rewrite Hname.
  unfold pushNameOnBack. rewrite Hlevels, last_snoc. simpl. rewrite removelast_last.
  unfold siblingManager. by rewrite insert_insert_eq.
Qed.

Lemma ApplyCaloHitUsageMap_last_run (mem : N -> CaloHit) (s : Manager)
  (name : string) (pUsageMap : N) (usageMap : gmap N bool) :
  ManagerInvariant s ->
  m_nReclusteringProcesses s = 1 ->
  m_nameToCaloHitUsageMap s !! name = Some pUsageMap ->
  usageMapHeap s !! pUsageMap = Some usageMap ->
  ApplyCaloHitUsageMap mem s name
  = Some (STATUS_CODE_SUCCESS, writeBack (usageMapEntries usageMap) mem, clearedManager s).
Proof.
  intros Hinv Hdepth HN Hmap.
  unfold ApplyCaloHitUsageMap. rewrite decide_False by lia. rewrite HN.
  rewrite decide_True by done. rewrite Hmap. simpl.
  unfold ClearCaloHitUsageMaps. simpl.
  rewrite deleteMaps_ok;
    [|by destruct Hinv as (_ & _ & _ & _ & Hnd & _)
     |by apply invariant_registry_pointers].
  reflexivity.
Qed.

Lemma ApplyCaloHitUsageMap_nested_fail (mem : N -> CaloHit) (s : Manager)
  (name : string) (pUsageMap : N) (usageMap : gmap N bool)
  (pParent : N) (parent : gmap N bool) :
  m_nReclusteringProcesses s <> 0 -> m_nReclusteringProcesses s <> 1 ->
  m_nameToCaloHitUsageMap s !! name = Some pUsageMap ->
  usageMapHeap s !! pUsageMap = Some usageMap ->
  last (m_parentCaloHitUsageMaps s) = Some pParent ->
  usageMapHeap s !! pParent = Some parent ->
  (exists hit, is_Some (usageMap !! hit) /\ parent !! hit = None) ->
  exists s', ApplyCaloHitUsageMap mem s name = Some (STATUS_CODE_FAILURE, mem, s').
Proof.
  intros Hd0 Hd1 Hname Hmap Hlast Hparent (hit & [value Hv] & Hnone).
  unfold ApplyCaloHitUsageMap. rewrite decide_False by done. rewrite Hname.
  rewrite decide_False by done. rewrite Hlast. simpl. rewrite Hmap. simpl.
  destruct (mergeIntoCurrent_fail (usageMapEntries usageMap) pParent
              (usageMapHeap s) parent Hparent) as [heap' ->].
  { apply Exists_exists. exists (hit, value).
    split; [by apply elem_of_usageMapEntries|done]. }
  simpl. eauto.
Qed.

Lemma ApplyCaloHitUsageMap_nested_run (mem : N -> CaloHit) (s : Manager)
  (name : string) (pUsageMap : N) (usageMap : gmap N bool)
  (pParent : N) (parent : gmap N bool)
  (levels : list (list string)) (back : list string) :
  ManagerInvariant s ->
  2 <= m_nReclusteringProcesses s ->
  m_nameToCaloHitUsageMap s !! name = Some pUsageMap ->
  usageMapHeap s !! pUsageMap = Some usageMap ->
  last (m_parentCaloHitUsageMaps s) = Some pParent ->
  usageMapHeap s !! pParent = Some parent ->
  m_nestedUsageMapNames s = levels ++ [back] ->
  (forall hit, is_Some (usageMap !! hit) -> is_Some (parent !! hit)) ->
  ApplyCaloHitUsageMap mem s name
  = Some (STATUS_CODE_SUCCESS, mem, mergedManager s usageMap pParent parent levels back).
Proof.
  intros Hinv Hdepth Hname Hmap Hlast Hparent Hlevels Hkeys.
  assert (Hlt : m_nReclusteringProcesses s < 2 ^ 32) by apply Hinv.
  unfold ApplyCaloHitUsageMap. rewrite decide_False by lia. rewrite Hname.
  rewrite decide_False by lia. rewrite Hlast. simpl. rewrite Hmap. simpl.
  rewrite (mergeIntoCurrent_ok _ _ _ parent Hparent).
  2:{ apply Forall_forall. intros [hit value] Hin.
      apply elem_of_usageMapEntries in Hin. apply Hkeys. simpl. eauto. }
  simpl.
  destruct (invariant_back_names s levels back Hinv Hlevels) as (Hnd & Hptrs & Hlive).
  unfold ClearMostRecentCaloHitUsageMaps. simpl.
  rewrite Hlevels, last_snoc. simpl.
  rewrite clearNames_ok; [|done|done|].
  2:{ eapply Forall_impl; [exact Hlive|]. intros n (p & Hp & Hnull & Hsome).
      exists p. split; [done|]. split; [done|].
      destruct (decide (pParent = p)) as [->|Hne].
      - rewrite lookup_insert_eq. eauto.
      - by rewrite lookup_insert_ne. }
  simpl. rewrite removelast_last. unfold mergedManager, wrap32.
  rewrite Z.mod_small by lia. reflexivity.
Qed.

(** ** Applying the usage map of the last open reclustering process *)

(** C1: when exactly one reclustering process is open and [name] is that of
    a registered usage map, [ApplyCaloHitUsageMap name] succeeds, every hit
    of that usage map has its own availability flag set to the value the map
    gives it, and afterwards the registry, the vector of parent usage maps
    and the vector of nested names are empty and the counter is 0. *)
Theorem ApplyCaloHitUsageMap_last (mem : N -> CaloHit) (s : Manager)
  (name : string) (pUsageMap : N) (usageMap : gmap N bool) :
  ManagerInvariant s ->
  m_nReclusteringProcesses s = 1 ->
  m_nameToCaloHitUsageMap s !! name = Some pUsageMap ->
  usageMapHeap s !! pUsageMap = Some usageMap ->
  exists mem' s',
    ApplyCaloHitUsageMap mem s name = Some (STATUS_CODE_SUCCESS, mem', s')
    /\ (forall hit value, usageMap !! hit = Some value ->
                          m_isAvailable (mem' hit) = value
                          /\ mem' hit = set_isAvailable value (mem hit))
    /\ (forall hit, usageMap !! hit = None -> mem' hit = mem hit)
    /\ m_nameToCaloHitUsageMap s' = ∅
    /\ m_parentCaloHitUsageMaps s' = []
    /\ m_nestedUsageMapNames s' = []
    /\ m_nReclusteringProcesses s' = 0.
Proof.
  intros Hinv Hdepth Hname Hmap. eexists _, _.
  split; [by apply (ApplyCaloHitUsageMap_last_run mem s name pUsageMap usageMap)|].
  split; [|split; [|done]].
  - intros hit value Hv.
    assert (Hwritten : writeBack (usageMapEntries usageMap) mem hit
                       = set_isAvailable value (mem hit)).
    { apply writeBack_in.
      - apply NoDup_usageMapEntries.
      - by apply elem_of_usageMapEntries. }
    split; [|exact Hwritten]. rewrite Hwritten. reflexivity.
  - intros hit Hnone. apply writeBack_notin.
    rewrite elem_of_usageMapEntries_keys, Hnone. by intros [? ?].
Qed.

(** ** Creating a sibling usage map *)

(** C7: [CreateAdditionalCaloHitUsageMap] returns [STATUS_CODE_NOT_ALLOWED]
    when no reclustering process is open; otherwise, for a name not yet
    registered, it creates a usage map with the keys of the current one and
    every value [true], whatever the values of the current one, registers it
    under the name, appends the name to the names of the most recent level,
    makes the new map the current one and leaves the counter as it was. *)
Theorem CreateAdditionalCaloHitUsageMap_spec (s : Manager) (name : string) :
  (m_nReclusteringProcesses s = 0 ->
     CreateAdditionalCaloHitUsageMap s name = Some (STATUS_CODE_NOT_ALLOWED, s))
  /\ (forall current : gmap N bool,
        ManagerInvariant s ->
        1 <= m_nReclusteringProcesses s ->
        usageMapHeap s !! m_pCurrentUsageMap s = Some current ->
        m_nameToCaloHitUsageMap s !! name = None ->
        exists (s' : Manager) (sibling : gmap N bool),
          CreateAdditionalCaloHitUsageMap s name = Some (STATUS_CODE_SUCCESS, s')
          /\ usageMapHeap s !! m_pCurrentUsageMap s' = None
          /\ usageMapHeap s' = <[m_pCurrentUsageMap s' := sibling]> (usageMapHeap s)
          /\ dom sibling = dom current
          /\ (forall hit, is_Some (current !! hit) -> sibling !! hit = Some true)
          /\ m_nameToCaloHitUsageMap s'
             = <[name := m_pCurrentUsageMap s']> (m_nameToCaloHitUsageMap s)
          /\ (exists levels back,
                m_nestedUsageMapNames s = levels ++ [back]
                /\ m_nestedUsageMapNames s' = levels ++ [back ++ [name]])
          /\ m_nReclusteringProcesses s' = m_nReclusteringProcesses s
          /\ m_parentCaloHitUsageMaps s' = m_parentCaloHitUsageMaps s).
Proof.
  split.
  - intros Hdepth. unfold CreateAdditionalCaloHitUsageMap. by rewrite decide_True.
  - intros current Hinv Hdepth Hcur Hname.
    destruct (invariant_levels s Hinv Hdepth) as (levels & back & Hlevels).
    destruct (newAddress_fresh (usageMapHeap s)) as [_ Hfresh].
    exists (siblingManager s name current levels back),
           ((fun _ : bool => true) <$> current).
    split; [apply CreateAdditionalCaloHitUsageMap_run; [lia|done..]|].
    simpl. split; [done|]. split; [done|].
    split; [by rewrite dom_fmap_L|]. split.
    { intros hit [b Hb]. by rewrite lookup_fmap, Hb. }
    split; [done|]. split; [|done]. by exists levels, back.
Qed.

(** ** Applying a usage map to its parent *)


(** ** Comparisons of binary32 numbers *)

Lemma SFcompare_antisym (x y : spec_float) :
  SFcompare y x = CompOpp <$> SFcompare x y.
Proof.
  destruct x as [sx|sx| |sx mx ex], y as [sy|sy| |sy my ey]; simpl;
    try reflexivity; try (destruct sx; reflexivity); try (destruct sy; reflexivity);
    try (destruct sx, sy; reflexivity).
  f_equal. rewrite (Z.compare_antisym ey ex).
  change (Pos.compare_cont Eq my mx) with (Pos.compare my mx).
  change (Pos.compare_cont Eq mx my) with (Pos.compare mx my).
  rewrite (Pos.compare_antisym my mx).
  destruct sx, sy; simpl; try reflexivity;
    destruct (ey ?= ex); simpl; try reflexivity;
    destruct (my ?= mx)%positive; reflexivity.
Qed.

Lemma Float32_geb_not_ltb (x y : spec_float) :
  Float32.geb x y = true -> Float32.ltb x y = false.
Proof.
  unfold Float32.geb, Float32.ltb, SFleb, SFltb.
  rewrite (SFcompare_antisym y x).
  destruct (SFcompare y x) as [[]|]; simpl; congruence.
Qed.

(** ** The simple isolation scheme *)

Lemma ApplySimpleIsolationScheme_each (settings : PandoraSettings) (caloHitVector : list N) :
  forall (mem : N -> CaloHit) (hit : N),
    (ApplySimpleIsolationScheme settings caloHitVector mem hit = mem hit
     \/ ApplySimpleIsolationScheme settings caloHitVector mem hit
        = SetIsolatedFlag true (mem hit))
    /\ (Float32.ltb (GetDensityWeight (mem hit))
                    (isolationDensityWeightCut settings (mem hit)) = false ->
        ApplySimpleIsolationScheme settings caloHitVector mem hit = mem hit).
Proof.
  induction caloHitVector as [|p rest IH]; intros mem hit; [by split; [left|]|].
  simpl.
  set (mem1 := if Float32.ltb (GetDensityWeight (mem p))
                              (isolationDensityWeightCut settings (mem p))
               then <[p := SetIsolatedFlag true (mem p)]> mem else mem).
  destruct (IH mem1 hit) as [Hcases Hkeep].
  assert (Hmem1 : mem1 hit = mem hit
                  \/ (mem1 hit = SetIsolatedFlag true (mem hit)
                      /\ Float32.ltb (GetDensityWeight (mem hit))
                           (isolationDensityWeightCut settings (mem hit)) = true)).
  { unfold mem1.
    destruct (Float32.ltb (GetDensityWeight (mem p)) _) eqn:Htest; [|by left].
    destruct (decide (p = hit)) as [->|Hne].
    - right. by rewrite fn_lookup_insert.
    - left. by rewrite fn_lookup_insert_ne. }
  split.
  - destruct Hmem1 as [Heq|[Heq _]], Hcases as [Hc|Hc]; rewrite Hc, Heq; auto.
  - intros Htest. destruct Hmem1 as [Heq|[_ Habs]]; [|congruence].
    rewrite Hkeep; [done|]. by rewrite Heq.
Qed.

(** C10: [ApplySimpleIsolationScheme] only ever sets the isolated flag of a
    hit to [true]: each hit is left as it was or differs by that flag alone,
    a flag that was set stays set, a hit whose density weight is greater than
    or equal to the cut of its hit type is left exactly as it was, and the
    availability flag, the density weight, the surrounding energy and the
    possible-mip flag of every hit are untouched. *)
Theorem ApplySimpleIsolationScheme_frame (settings : PandoraSettings)
  (caloHitVector : list N) (mem : N -> CaloHit) (hit : N) :
  let mem' := ApplySimpleIsolationScheme settings caloHitVector mem in
  (mem' hit = mem hit \/ mem' hit = SetIsolatedFlag true (mem hit))
  /\ (m_isIsolated (mem hit) = true -> m_isIsolated (mem' hit) = true)
  /\ (Float32.geb (GetDensityWeight (mem hit))
                  (isolationDensityWeightCut settings (mem hit)) = true ->
      mem' hit = mem hit)
  /\ m_isAvailable (mem' hit) = m_isAvailable (mem hit)
  /\ m_densityWeight (mem' hit) = m_densityWeight (mem hit)
  /\ m_surroundingEnergy (mem' hit) = m_surroundingEnergy (mem hit)
  /\ m_isPossibleMip (mem' hit) = m_isPossibleMip (mem hit).
Proof.
  intros mem'. subst mem'.
  destruct (ApplySimpleIsolationScheme_each settings caloHitVector mem hit)
    as [Hcases Hkeep].
  split; [exact Hcases|]. split; [|split].
  - intros Hset. destruct Hcases as [-> | ->]; [done|reflexivity].
  - intros Hge. apply Hkeep. by apply Float32_geb_not_ltb.
  - destruct Hcases as [-> | ->]; repeat split.
Qed.

(** ** Removing unavailable hits from an ordered calo hit list *)

Lemma elem_of_CaloHitList_insert (hit x : N) (l : list N) :
  x ∈ CaloHitList_insert hit l <-> x = hit \/ x ∈ l.
Proof.
  induction l as [|a l IH]; simpl.
  - rewrite list_elem_of_singleton, elem_of_nil. tauto.
  - destruct (hit <? a)%N eqn:Hlt.
    + rewrite !elem_of_cons. tauto.
    + destruct (hit =? a)%N eqn:Heq.
      * apply N.eqb_eq in Heq as ->. rewrite !elem_of_cons. tauto.
      * rewrite !elem_of_cons, IH. tauto.
Qed.

Lemma collectUnavailableHits_elem (mem : N -> CaloHit) (s : Manager) (hits : list N) :
  forall acc acc',
    collectUnavailableHits mem s hits acc = Some acc' ->
    (forall x, x ∈ acc -> x ∈ acc')
    /\ (forall hit, hit ∈ hits ->
          IsCaloHitAvailable mem s hit = Some true
          \/ (IsCaloHitAvailable mem s hit = Some false /\ hit ∈ acc')).
Proof.
  induction hits as [|h hits IH]; intros acc acc' Hrun; simpl in Hrun.
  - injection Hrun as <-. split; [done|]. intros hit Hin. by apply elem_of_nil in Hin.
  - destruct (IsCaloHitAvailable mem s h) as [b|] eqn:Hb; [|done]. simpl in Hrun.
    destruct (IH _ _ Hrun) as [Hsub Hhits]. split.
    + intros x Hx. apply Hsub. destruct b; simpl; [done|].
      apply elem_of_CaloHitList_insert. by right.
    + intros hit Hin. apply elem_of_cons in Hin as [->|Hin]; [|by apply Hhits].
      destruct b; [by left|]. right. split; [done|]. apply Hsub. simpl.
      apply elem_of_CaloHitList_insert. by left.
Qed.

Lemma collectUnavailableLayers_elem (mem : N -> CaloHit) (s : Manager)
  (orderedCaloHitList : list (Z * list N)) :
  forall acc acc',
    collectUnavailableLayers mem s orderedCaloHitList acc = Some acc' ->
    (forall x, x ∈ acc -> x ∈ acc')
    /\ (forall layer hits hit,
          (layer, hits) ∈ orderedCaloHitList -> hit ∈ hits ->
          IsCaloHitAvailable mem s hit = Some true
          \/ (IsCaloHitAvailable mem s hit = Some false /\ hit ∈ acc')).
Proof.
  induction orderedCaloHitList as [|[layer0 hits0] layers IH]; intros acc acc' Hrun;
    simpl in Hrun.
  - injection Hrun as <-. split; [done|]. intros ? ? ? Hin. by apply elem_of_nil in Hin.
  - destruct (collectUnavailableHits mem s hits0 acc) as [acc0|] eqn:Hhits0; [|done].
    simpl in Hrun. destruct (collectUnavailableHits_elem _ _ _ _ _ Hhits0) as [Hsub0 Hin0].
    destruct (IH _ _ Hrun) as [Hsub Hin]. split; [by auto|].
    intros layer hits hit Hlayer Hhit.
    apply elem_of_cons in Hlayer as [Heq|Hlayer]; [|by eapply Hin].
    injection Heq as -> ->. destruct (Hin0 hit Hhit) as [?|[? ?]]; [by left|].
    right. split; [done|]. by apply Hsub.
Qed.

Lemma collectUnavailableHits_none (mem : N -> CaloHit) (s : Manager) (hits : list N) :
  forall acc,
    (forall hit, hit ∈ hits -> IsCaloHitAvailable mem s hit = Some true) ->
    collectUnavailableHits mem s hits acc = Some acc.
Proof.
  induction hits as [|h hits IH]; intros acc Hall; [done|]. simpl.
  rewrite (Hall h) by (by left). simpl. apply IH. intros hit Hin. apply Hall. by right.
Qed.

Lemma collectUnavailableLayers_none (mem : N -> CaloHit) (s : Manager)
  (orderedCaloHitList : list (Z * list N)) :
  forall acc,
    (forall layer hits hit, (layer, hits) ∈ orderedCaloHitList -> hit ∈ hits ->
                            IsCaloHitAvailable mem s hit = Some true) ->
    collectUnavailableLayers mem s orderedCaloHitList acc = Some acc.
Proof.
  induction orderedCaloHitList as [|[layer0 hits0] layers IH]; intros acc Hall; [done|].
  simpl. rewrite collectUnavailableHits_none.
  - simpl. apply IH. intros layer hits hit Hlayer. apply (Hall layer). by right.
  - intros hit. apply (Hall layer0). by left.
Qed.

(** C9: [RemoveUnavailableCaloHits] on an ordered calo hit list is
    idempotent: with the availability of the hits unchanged, a second call on
    the list the first call leaves removes nothing, succeeds and leaves the
    same list. *)
Theorem RemoveUnavailableCaloHits_idempotent
  (Remove : list (Z * list N) -> list N -> StatusCode * list (Z * list N))
  (mem : N -> CaloHit) (s : Manager)
  (orderedCaloHitList once : list (Z * list N)) :
  RemoveContract Remove ->
  RemoveUnavailableCaloHits Remove mem s orderedCaloHitList
  = Some (STATUS_CODE_SUCCESS, once) ->
  RemoveUnavailableCaloHits Remove mem s once = Some (STATUS_CODE_SUCCESS, once).
Proof.
  intros Hcontract Hfirst. unfold RemoveUnavailableCaloHits in Hfirst.
  destruct (collectUnavailableLayers mem s orderedCaloHitList [])
    as [unavailableHits|] eqn:Hcollect; [|done]. simpl in Hfirst.
  destruct (collectUnavailableLayers_elem _ _ _ _ _ Hcollect) as [_ Hhits].
  assert (Havailable : forall layer hits hit, (layer, hits) ∈ once -> hit ∈ hits ->
                                              IsCaloHitAvailable mem s hit = Some true).
  { destruct (bool_decide (unavailableHits = [])) eqn:Hempty; simpl in Hfirst.
    - injection Hfirst as <-. apply bool_decide_eq_true in Hempty as ->.
      intros layer hits hit Hlayer Hhit.
      destruct (Hhits layer hits hit Hlayer Hhit) as [?|[_ Hin]]; [done|].
      by apply elem_of_nil in Hin.
    - destruct (Remove orderedCaloHitList unavailableHits) as [rc removed] eqn:Hremove.
      destruct (bool_decide (rc = STATUS_CODE_SUCCESS)) eqn:Hrc; simpl in Hfirst;
        [|injection Hfirst as -> _; by apply bool_decide_eq_false in Hrc].
      injection Hfirst as <-. apply bool_decide_eq_true in Hrc as ->.
      intros layer hits hit Hlayer Hhit.
      destruct (Hcontract _ _ _ Hremove layer hits hit Hlayer Hhit)
        as (Hnotin & before & Hbefore & Hhit').
      destruct (Hhits layer before hit Hbefore Hhit') as [?|[_ Hin]]; done. }
  unfold RemoveUnavailableCaloHits.
  rewrite (collectUnavailableLayers_none mem s once [] Havailable). reflexivity.
Qed.

(** The removal modelled from the specification meets the contract. *)
Lemma OrderedCaloHitList_Remove_contract : RemoveContract OrderedCaloHitList_Remove.
Proof.
  intros orderedCaloHitList hits removed Hremove layer remaining hit Hlayer Hhit.
  unfold OrderedCaloHitList_Remove in Hremove. injection Hremove as <-.
  apply list_elem_of_filter in Hlayer as [_ Hlayer].
  apply list_elem_of_fmap in Hlayer as ([layer0 before] & Heq & Hbefore).
  simpl in Heq. injection Heq as -> ->.
  apply list_elem_of_filter in Hhit as [Hnotin Hhit]. split; [done|]. eauto.
Qed.

Lemma collectUnavailableHits_defined (mem : N -> CaloHit) (s : Manager) (hits : list N) :
  forall acc,
    0 = m_nReclusteringProcesses s \/ is_Some (usageMapHeap s !! m_pCurrentUsageMap s) ->
    is_Some (collectUnavailableHits mem s hits acc).
Proof.
  induction hits as [|h hits IH]; intros acc Hdefined; [by eexists|]. simpl.
  assert (Havailable : is_Some (IsCaloHitAvailable mem s h)).
  { unfold IsCaloHitAvailable. destruct (decide (0 = m_nReclusteringProcesses s)); [eauto|].
    destruct Hdefined as [?|[m ->]]; [done|]. simpl. eauto. }
  destruct Havailable as [b ->]. simpl. by apply IH.
Qed.

Lemma collectUnavailableLayers_defined (mem : N -> CaloHit) (s : Manager)
  (orderedCaloHitList : list (Z * list N)) :
  forall acc,
    0 = m_nReclusteringProcesses s \/ is_Some (usageMapHeap s !! m_pCurrentUsageMap s) ->
    is_Some (collectUnavailableLayers mem s orderedCaloHitList acc).
Proof.
  induction orderedCaloHitList as [|[layer hits] layers IH]; intros acc Hdefined;
    [by eexists|].
  simpl. destruct (collectUnavailableHits_defined mem s hits acc Hdefined) as [acc' ->].
  simpl. by apply IH.
Qed.

(** With the removal modelled from the specification the call returns, and
    returns success, whenever the availability of a hit can be read: no
    reclustering process is open, or the current usage map is live. *)
Lemma RemoveUnavailableCaloHits_returns (mem : N -> CaloHit) (s : Manager)
  (orderedCaloHitList : list (Z * list N)) :
  0 = m_nReclusteringProcesses s \/ is_Some (usageMapHeap s !! m_pCurrentUsageMap s) ->
  exists once,
    RemoveUnavailableCaloHits OrderedCaloHitList_Remove mem s orderedCaloHitList
    = Some (STATUS_CODE_SUCCESS, once).
Proof.
  intros Hdefined. unfold RemoveUnavailableCaloHits.
  destruct (collectUnavailableLayers_defined mem s orderedCaloHitList [] Hdefined)
    as [unavailableHits ->].
  simpl. destruct (bool_decide (unavailableHits = [])); simpl; eauto.
Qed.

(** ** Density weight: binary32 facts *)

Lemma Float32_sub_diag (x : spec_float) :
  Float32.is_finite x = true -> Float32.sub x x = S754_zero false.
Proof.
  destruct x as [s|s| |s m e]; try done; intros _.
  - by destruct s.
  - unfold Float32.sub, SFsub. rewrite Z.sub_diag. reflexivity.
Qed.

Lemma Float32_mul_zero_r (x y : spec_float) :
  Float32.is_finite x = true -> Float32.is_zero y = true ->
  Float32.is_zero (Float32.mul x y) = true.
Proof. by destruct x, y. Qed.

Lemma Float32_mul_zero_l (x y : spec_float) :
  Float32.is_zero x = true -> Float32.is_finite y = true ->
  Float32.is_zero (Float32.mul x y) = true.
Proof. by destruct x, y. Qed.

Lemma Float32_sub_zeros (x y : spec_float) :
  Float32.is_zero x = true -> Float32.is_zero y = true ->
  Float32.is_zero (Float32.sub x y) = true.
Proof. destruct x as [[]| | |], y as [[]| | |]; done. Qed.

Lemma Float32_square_zero (x : spec_float) :
  Float32.is_zero x = true -> Float32.mul x x = S754_zero false.
Proof. destruct x as [[]| | |]; done. Qed.

Lemma binary_round_aux_sign (prec emax : Z) (sx : bool) (mx ex : Z) (lx : location) :
  match binary_round_aux prec emax sx mx ex lx with
  | S754_zero s | S754_infinity s | S754_finite s _ _ => s = sx
  | S754_nan => True
  end.
Proof.
  unfold binary_round_aux.
  destruct (shr_fexp prec emax mx ex lx) as [mrs' e'].
  destruct (shr_fexp prec emax _ e' loc_Exact) as [mrs'' e''].
  destruct (shr_m mrs''); [done| |done]. by destruct (Z.leb _ _).
Qed.

(** A square is never below zero. *)
Lemma Float32_square_not_negative (x : spec_float) :
  Float32.ltb (Float32.mul x x) (S754_zero false) = false.
Proof.
  destruct x as [s|s| |s m e]; try (by destruct s); try done.
  unfold Float32.mul, SFmul.
  pose proof (binary_round_aux_sign Float32.prec Float32.emax (xorb s s)
                (Z.pos (m * m)) (e + e) loc_Exact) as Hsign.
  change (IntDef.Z.add e e) with (e + e) in *.
  change (PosDef.Pos.mul m m) with (m * m)%positive in *.
  destruct (binary_round_aux _ _ _ _ _ _) as [s'|s'| |s' m' e']; try done;
    subst s'; by destruct s.
Qed.

Lemma Float32_div_zero (mag : spec_float) :
  Float32.ltb (S754_zero false) mag = true ->
  Float32.div (S754_zero false) mag = S754_zero false.
Proof. destruct mag as [s|[]| |[] m e]; done. Qed.

Lemma powerOfR_zero (densityWeightPower : N) (r : spec_float) :
  Float32.is_zero r = true ->
  powerOfR densityWeightPower r = Float32.of_Z 1
  \/ Float32.is_zero (powerOfR densityWeightPower r) = true.
Proof.
  intros Hr. unfold powerOfR.
  induction densityWeightPower as [|n IH] using N.peano_ind; [by left|].
  rewrite N.iter_succ. right. destruct IH as [-> | IH].
  - by apply Float32_mul_zero_r.
  - apply Float32_mul_zero_l; [done|]. by destruct r.
Qed.

Lemma powerOfR_zero_pos (densityWeightPower : N) (r : spec_float) :
  Float32.is_zero r = true -> (1 <= densityWeightPower)%N ->
  Float32.is_zero (powerOfR densityWeightPower r) = true.
Proof.
  intros Hr Hpos.
  replace densityWeightPower with (N.succ (N.pred densityWeightPower)) by lia.
  unfold powerOfR. rewrite N.iter_succ. fold (powerOfR (N.pred densityWeightPower) r).
  destruct (powerOfR_zero (N.pred densityWeightPower) r Hr) as [-> | Hz].
  - by apply Float32_mul_zero_r.
  - apply Float32_mul_zero_l; [done|]. by destruct r.
Qed.

(** ** Density weight: a neighbour at the position of the hit *)

Lemma minus_diag (p : CartesianVector) :
  finitePosition p = true ->
  CartesianVector.minus p p
  = mkCartesianVector (S754_zero false) (S754_zero false) (S754_zero false).
Proof.
  unfold finitePosition. intros Hfin.
  apply andb_prop in Hfin as [Hfin Hz]. apply andb_prop in Hfin as [Hx Hy].
  unfold CartesianVector.minus. by rewrite !Float32_sub_diag.
Qed.

Lemma GetMagnitude_zeros (v : CartesianVector) :
  Float32.is_zero (m_x v) = true -> Float32.is_zero (m_y v) = true ->
  Float32.is_zero (m_z v) = true ->
  CartesianVector.GetMagnitude v = S754_zero false.
Proof.
  intros Hx Hy Hz. unfold CartesianVector.GetMagnitude, CartesianVector.GetMagnitudeSquared.
  by rewrite !Float32_square_zero.
Qed.

Lemma GetCrossProduct_zero (p : CartesianVector) :
  finitePosition p = true ->
  CartesianVector.GetMagnitude
    (CartesianVector.GetCrossProduct p
       (mkCartesianVector (S754_zero false) (S754_zero false) (S754_zero false)))
  = S754_zero false.
Proof.
  unfold finitePosition. intros Hfin.
  apply andb_prop in Hfin as [Hfin Hz]. apply andb_prop in Hfin as [Hx Hy].
  apply GetMagnitude_zeros; unfold CartesianVector.GetCrossProduct; cbn [m_x m_y m_z];
    apply Float32_sub_zeros;
    (by apply Float32_mul_zero_r) || (by apply Float32_mul_zero_l).
Qed.

(** The step of the loop at a distinct hit at the position of [pCaloHit]
    throws, whatever has been accumulated. *)
Lemma GetDensityWeightContribution_loop_coincident
  (caloHitMaxSeparation : spec_float) (densityWeightPower : N)
  (mem : N -> CaloHit) (pCaloHit iter : N) (l : list N) (acc : spec_float) :
  let positionVector := m_positionVector (mem pCaloHit) in
  iter <> pCaloHit ->
  m_positionVector (mem iter) = positionVector ->
  finitePosition positionVector = true ->
  Float32.ltb (Float32.of_Z 0) (CartesianVector.GetMagnitude positionVector) = true ->
  (1 <= densityWeightPower)%N ->
  GetDensityWeightContribution_loop
    (Float32.mul caloHitMaxSeparation caloHitMaxSeparation) densityWeightPower
    mem pCaloHit positionVector (CartesianVector.GetMagnitude positionVector)
    (iter :: l) acc
  = inl STATUS_CODE_FAILURE.
Proof.
  intros positionVector Hne Hsame Hfin Hmag Hpower. simpl.
  rewrite decide_False by done. rewrite Hsame, (minus_diag _ Hfin).
  change (CartesianVector.GetMagnitudeSquared _) with (S754_zero false).
  unfold Float32.gtb. fold (Float32.ltb (Float32.mul caloHitMaxSeparation caloHitMaxSeparation)
                                         (S754_zero false)).
  rewrite Float32_square_not_negative.
  rewrite (GetCrossProduct_zero _ Hfin).
  rewrite (Float32_div_zero _ Hmag).
  pose proof (powerOfR_zero_pos densityWeightPower (S754_zero false) eq_refl Hpower) as Hz.
  destruct (powerOfR densityWeightPower (S754_zero false)); done.
Qed.

(** C8, as the code has it: for a hit with a finite position whose magnitude
    is computed above zero, and a density-weight power of at least one, a
    hit list that holds a distinct hit at the very same position makes
    [GetDensityWeightContribution] throw [STATUS_CODE_FAILURE]; it returns no
    value, neither a zero nor a NaN. *)
Theorem GetDensityWeightContribution_coincident (settings : PandoraSettings)
  (mem : N -> CaloHit) (H H' : N) (pCaloHitList : list N) :
  H' ∈ pCaloHitList ->
  H' <> H ->
  m_positionVector (mem H') = m_positionVector (mem H) ->
  finitePosition (m_positionVector (mem H)) = true ->
  Float32.ltb (Float32.of_Z 0)
              (CartesianVector.GetMagnitude (m_positionVector (mem H))) = true ->
  (1 <= GetDensityWeightPower settings)%N ->
  GetDensityWeightContribution settings mem H pCaloHitList = inl STATUS_CODE_FAILURE.
Proof.
  intros Hin Hne Hsame Hfin Hmag Hpower. unfold GetDensityWeightContribution.
  generalize (Float32.of_Z 0).
  induction pCaloHitList as [|iter l IH]; intros acc; [by apply elem_of_nil in Hin|].
  destruct (decide (iter = H')) as [->|Hother].
  - by apply GetDensityWeightContribution_loop_coincident.
  - apply elem_of_cons in Hin as [Heq|Hin]; [congruence|].
    specialize (IH Hin). simpl.
    destruct (decide (H = iter)); [by apply IH|].
    destruct (Float32.gtb _ _); [by apply IH|].
    destruct (Float32.eqb _ _); [done|by apply IH].
Qed.

(** With power 0 no division by [r] takes place: a distinct hit at the very
    position of the hit contributes 100 and nothing is thrown.  So the
    statement of C8 for every hit and every configuration does not hold. *)
Lemma GetDensityWeightContribution_power_zero :
  ~ (forall (settings : PandoraSettings) (mem : N -> CaloHit) (H H' : N)
            (pCaloHitList : list N),
        H' ∈ pCaloHitList -> H' <> H ->
        m_positionVector (mem H') = m_positionVector (mem H) ->
        GetDensityWeightContribution settings mem H pCaloHitList
        = inl STATUS_CODE_FAILURE).
Proof.
  intros Hall.
  assert (Hrun : GetDensityWeightContribution (settingsWithPower 0) hitsAtOne 1%N [2%N]
                 = inr (Float32.of_Z 100)) by (vm_compute; reflexivity).
  rewrite (Hall (settingsWithPower 0) hitsAtOne 1%N 2%N [2%N]) in Hrun;
    [discriminate Hrun|by left|done|reflexivity].
Qed.

(** For a hit at the origin the magnitude of the position is zero, [r] is
    0/0, and the sum silently becomes a NaN. *)
Example GetDensityWeightContribution_at_origin :
  GetDensityWeightContribution (settingsWithPower 2) hitsAtOrigin 1%N [2%N]
  = inr S754_nan.
Proof. vm_compute. reflexivity. Qed.

Lemma GetDensityWeightContribution_coincident_witness :
  GetDensityWeightContribution (settingsWithPower 2) hitsAtOne 1%N [3%N; 2%N]
  = inl STATUS_CODE_FAILURE.
Proof.
  apply (GetDensityWeightContribution_coincident (settingsWithPower 2) hitsAtOne 1%N 2%N).
  - by right; left.
  - done.
  - reflexivity.
  - vm_compute. reflexivity.
  - vm_compute. reflexivity.
  - vm_compute. discriminate.
Defined.

(** ** The invariant is kept *)

Lemma registry_inj_NoDup (registry : gmap string N) :
  (forall n1 n2 p, registry !! n1 = Some p -> registry !! n2 = Some p -> n1 = n2) ->
  NoDup (map_to_list registry).*2.
Proof.
  intros Hinj. apply NoDup_fmap_2_strong; [|apply NoDup_map_to_list].
  intros [n1 p1] [n2 p2] H1 H2 Heq. simpl in Heq. subst p2.
  apply elem_of_map_to_list in H1, H2. by rewrite (Hinj n1 n2 p1).
Qed.

Lemma NoDup_registry_inj (registry : gmap string N) (n1 n2 : string) (p : N) :
  NoDup (map_to_list registry).*2 ->
  registry !! n1 = Some p -> registry !! n2 = Some p -> n1 = n2.
Proof.
  intros Hnd H1 H2.
  apply elem_of_map_to_list in H1, H2.
  apply list_elem_of_lookup in H1 as [i Hi], H2 as [j Hj].
  assert (i = j) as ->.
  { eapply NoDup_lookup; [exact Hnd| |]; rewrite list_lookup_fmap.
    - by rewrite Hi.
    - by rewrite Hj. }
  congruence.
Qed.

Lemma registeredIn_insert (registry : gmap string N) (name : string) (p q : N)
  (level : list string) :
  registry !! name = None -> registeredIn registry q level ->
  registeredIn (<[name := p]> registry) q level.
Proof.
  intros Hname Hreg. unfold registeredIn in *.
  eapply Exists_impl; [exact Hreg|]. intros n Hn. simpl in *.
  rewrite lookup_insert_ne; [done|]. intros ->. congruence.
Qed.

Lemma registeredIn_erase (registry : gmap string N) (names level : list string) (q : N) :
  (forall n, n ∈ level -> n ∉ names) -> registeredIn registry q level ->
  registeredIn (eraseNames names registry) q level.
Proof.
  unfold registeredIn. rewrite !Exists_exists. intros Hdisj (n & Hin & Hn).
  exists n. split; [done|]. rewrite eraseNames_lookup. rewrite decide_False; [done|].
  by apply Hdisj.
Qed.

Lemma Forall2_impl_Forall_r {A B} (P Q : A -> B -> Prop) (R : B -> Prop)
  (l : list A) (k : list B) :
  Forall2 P l k -> Forall R k -> (forall x y, P x y -> R y -> Q x y) -> Forall2 Q l k.
Proof.
  intros HP HR Himpl. induction HP as [|x y l k Hxy HP IH]; [constructor|].
  inversion HR; subst. constructor; auto.
Qed.

Lemma ManagerInvariant_initial : ManagerInvariant initialManager.
Proof.
  unfold ManagerInvariant, initialManager. simpl.
  split; [done|]. split; [done|]. split; [constructor|].
  split; [by rewrite dom_empty_L|].
  split; [rewrite map_to_list_empty; constructor|].
  split; [apply map_Forall_empty|]. split; [constructor|done].
Qed.

Lemma ManagerInvariant_withHeap (s : Manager) (heap : gmap N (gmap N bool)) :
  ManagerInvariant s ->
  (forall p, is_Some (usageMapHeap s !! p) -> is_Some (heap !! p)) ->
  ManagerInvariant (withHeap s heap).
Proof.
  intros (H1 & H2 & H3 & H4 & H5 & H6 & H7 & H8) Hlive.
  unfold ManagerInvariant. simpl.
  split; [done|]. split; [done|]. split; [done|]. split; [done|]. split; [done|].
  split; [|by split].
  intros name p Hp. destruct (H6 name p Hp) as [Hnull Hsome]. split; auto.
Qed.

(** What a registration under a fresh name at a fresh address keeps. *)
Lemma registry_insert_fresh (registry : gmap string N) (heap : gmap N (gmap N bool))
  (name : string) (p : N) (m : gmap N bool) :
  registry !! name = None -> p <> NULL -> heap !! p = None ->
  NoDup (map_to_list registry).*2 ->
  map_Forall (fun _ q => q <> NULL /\ is_Some (heap !! q)) registry ->
  NoDup (map_to_list (<[name := p]> registry)).*2
  /\ map_Forall (fun _ q => q <> NULL /\ is_Some (<[p := m]> heap !! q))
                (<[name := p]> registry).
Proof.
  intros Hname Hnull Hfresh Hnd Hlive. split.
  - rewrite map_to_list_insert by done. csimpl. apply NoDup_cons. split; [|done].
    intros Hin. apply list_elem_of_fmap in Hin as ([n q] & Heq & Hin). simpl in Heq. subst q.
    apply elem_of_map_to_list in Hin. destruct (Hlive n p Hin) as [_ [? ?]]. congruence.
  - apply map_Forall_insert_2.
    + split; [done|]. rewrite lookup_insert_eq. eauto.
    + intros n q Hq. destruct (Hlive n q Hq) as [Hqn Hqs]. split; [done|].
      destruct (decide (p = q)) as [->|Hne].
      * rewrite lookup_insert_eq. eauto.
      * by rewrite lookup_insert_ne.
Qed.

Lemma not_registered_not_in_levels (s : Manager) (name : string) :
  ManagerInvariant s -> m_nameToCaloHitUsageMap s !! name = None ->
  name ∉ concat (m_nestedUsageMapNames s).
Proof.
  intros (_ & _ & _ & Hdom & _) Hname Hin.
  apply (not_elem_of_dom (m_nameToCaloHitUsageMap s) name) in Hname.
  apply Hname. rewrite Hdom. by apply elem_of_list_to_set.
Qed.

Lemma ManagerInvariant_initialised (s : Manager) (name : string)
  (orderedCaloHitList : list (Z * list N)) :
  ManagerInvariant s ->
  m_nReclusteringProcesses s + 1 < 2 ^ 32 ->
  m_nameToCaloHitUsageMap s !! name = None ->
  ManagerInvariant (initialisedManager s name orderedCaloHitList).
Proof.
  intros Hinv Hlt Hname.
  pose proof (not_registered_not_in_levels s name Hinv Hname) as Hnotin.
  destruct (newAddress_fresh (usageMapHeap s)) as [Hnull Hfresh].
  pose proof Hinv as (Hdepth & _ & Hnd & Hdom & Hptrs & Hlive & Hparents & Hcur).
  destruct (registry_insert_fresh _ _ name _ (seedMap (allHits orderedCaloHitList) ∅)
              Hname Hnull Hfresh Hptrs Hlive) as [Hptrs' Hlive'].
  unfold ManagerInvariant, initialisedManager. simpl.
  split; [rewrite length_app; simpl; lia|]. split; [done|].
  split.
  { rewrite concat_app. simpl. apply NoDup_app. split; [done|]. split.
    - intros x Hx Hx'. apply list_elem_of_singleton in Hx'. by subst.
    - apply NoDup_singleton. }
  split.
  { rewrite dom_insert_L, Hdom, concat_app, list_to_set_app_L. simpl. set_solver. }
  split; [done|]. split; [done|].
  rewrite removelast_last, last_snoc. split.
  - destruct (decide (0 < m_nReclusteringProcesses s)) as [Hpos|Hzero].
    + destruct (invariant_levels s Hinv) as (levels & back & Hlevels); [lia|].
      rewrite Hlevels in *. rewrite removelast_last in Hparents. rewrite last_snoc in Hcur.
      apply Forall2_app.
      * eapply Forall2_impl; [exact Hparents|]. intros q level. by apply registeredIn_insert.
      * constructor; [|constructor]. by apply registeredIn_insert.
    + destruct (m_nestedUsageMapNames s) as [|level levels] eqn:Hlevels;
        [|simpl in Hdepth; lia].
      simpl in Hparents. apply Forall2_nil_inv_r in Hparents. rewrite Hparents. constructor.
  - constructor. by rewrite lookup_insert_eq.
Qed.

Lemma ManagerInvariant_sibling (s : Manager) (name : string) (current : gmap N bool)
  (levels : list (list string)) (back : list string) :
  ManagerInvariant s ->
  m_nameToCaloHitUsageMap s !! name = None ->
  m_nestedUsageMapNames s = levels ++ [back] ->
  ManagerInvariant (siblingManager s name current levels back).
Proof.
  intros Hinv Hname Hlevels.
  pose proof (not_registered_not_in_levels s name Hinv Hname) as Hnotin.
  destruct (newAddress_fresh (usageMapHeap s)) as [Hnull Hfresh].
  pose proof Hinv as (Hdepth & Hlt & Hnd & Hdom & Hptrs & Hlive & Hparents & Hcur).
  destruct (registry_insert_fresh _ _ name _ ((fun _ : bool => true) <$> current)
              Hname Hnull Hfresh Hptrs Hlive) as [Hptrs' Hlive'].
  rewrite Hlevels in *. rewrite concat_app in Hnd, Hdom, Hnotin.
  simpl in Hnd, Hdom, Hnotin. rewrite app_nil_r in Hnd, Hdom, Hnotin.
  rewrite removelast_last in Hparents.
  unfold ManagerInvariant, siblingManager. simpl.
  split; [rewrite length_app in *; simpl in *; lia|]. split; [done|].
  split.
  { rewrite concat_app. simpl. rewrite app_nil_r, app_assoc.
    apply NoDup_app. split; [done|]. split.
    - intros x Hx Hx'. apply list_elem_of_singleton in Hx'. by subst.
    - apply NoDup_singleton. }
  split.
  { rewrite dom_insert_L, Hdom, concat_app. simpl.
    rewrite app_nil_r, !list_to_set_app_L. simpl. set_solver. }
  split; [done|]. split; [done|].
  rewrite removelast_last, last_snoc. split.
  - eapply Forall2_impl; [exact Hparents|]. intros q level. by apply registeredIn_insert.
  - apply Exists_app. right. constructor. by rewrite lookup_insert_eq.
Qed.

Lemma ManagerInvariant_cleared (s : Manager) : ManagerInvariant (clearedManager s).
Proof.
  unfold ManagerInvariant, clearedManager. simpl.
  split; [done|]. split; [done|]. split; [constructor|].
  split; [by rewrite dom_empty_L|].
  split; [rewrite map_to_list_empty; constructor|].
  split; [apply map_Forall_empty|]. split; [constructor|done].
Qed.

Lemma ManagerInvariant_merged (s : Manager) (usageMap : gmap N bool) (pParent : N)
  (parent : gmap N bool) (levels : list (list string)) (back : list string) :
  ManagerInvariant s ->
  2 <= m_nReclusteringProcesses s ->
  last (m_parentCaloHitUsageMaps s) = Some pParent ->
  m_nestedUsageMapNames s = levels ++ [back] ->
  ManagerInvariant (mergedManager s usageMap pParent parent levels back).
Proof.
  intros Hinv Hdepth2 Hlast Hlevels.
  pose proof Hinv as (Hdepth & Hlt & Hnd & Hdom & Hptrs & Hlive & Hparents & Hcur).
  rewrite Hlevels in *. rewrite concat_app in Hnd, Hdom.
  simpl in Hnd, Hdom. rewrite app_nil_r in Hnd, Hdom.
  rewrite removelast_last in Hparents.
  apply NoDup_app in Hnd as (Hndlevels & Hdisj & Hndback).
  apply last_Some in Hlast as [parents Hlast]. rewrite Hlast in *.
  apply Forall2_app_inv_l in Hparents as (levels' & prev & Hparents & Hprev & ->).
  inversion Hprev as [|? prevLevel ? ? HregP Hnil]; subst. inversion Hnil; subst.
  clear Hprev Hnil.
  assert (Hout : forall level, level ∈ levels' ++ [prevLevel] ->
                               forall n, n ∈ level -> n ∉ back).
  { intros level Hlevel n Hn. apply Hdisj. apply list_elem_of_In, in_concat.
    exists level. split; by apply list_elem_of_In. }
  unfold ManagerInvariant, mergedManager. simpl.
  split; [rewrite !length_app in *; simpl in *; lia|]. split; [lia|].
  split; [done|]. split.
  { apply set_eq. intros n. rewrite elem_of_dom, eraseNames_lookup.
    rewrite elem_of_list_to_set. destruct (decide (n ∈ back)) as [Hin|Hnin].
    - split; [by intros [? ?]|]. intros Hn. by destruct (Hdisj n Hn).
    - rewrite <- elem_of_dom, Hdom, elem_of_list_to_set, elem_of_app. tauto. }
  split.
  { apply registry_inj_NoDup. intros n1 n2 p. rewrite !eraseNames_lookup.
    destruct (decide (n1 ∈ back)); [done|]. destruct (decide (n2 ∈ back)); [done|].
    by apply NoDup_registry_inj. }
  split.
  { intros n q. rewrite eraseNames_lookup. destruct (decide (n ∈ back)) as [|Hnin]; [done|].
    intros Hq. destruct (Hlive n q Hq) as [Hqn Hqs]. split; [done|].
    rewrite freeMaps_lookup. rewrite decide_False.
    - destruct (decide (pParent = q)) as [->|Hne].
      + rewrite lookup_insert_eq. eauto.
      + by rewrite lookup_insert_ne.
    - intros Hin. apply list_elem_of_omap in Hin as (n' & Hn' & Hq').
      apply Hnin. by rewrite (NoDup_registry_inj _ n n' q Hptrs Hq Hq'). }
  rewrite Hlast, !removelast_last, last_snoc. split.
  - apply (Forall2_impl_Forall_r _ _ (fun level => forall n, n ∈ level -> n ∉ back)
             _ _ Hparents).
    + apply Forall_forall. intros level Hlevel. apply (Hout level).
      apply elem_of_app. by left.
    + intros q level Hq Hlevel. by apply registeredIn_erase.
  - apply registeredIn_erase; [|done]. apply Hout. apply elem_of_app. right. by left.
Qed.

(** Every successful call leads from a state that meets the invariant to
    one that meets it. *)
Lemma SetCaloHitAvailability_invariant (mem mem' : N -> CaloHit) (s s' : Manager)
  (pCaloHit : N) (isAvailable : bool) (rc : StatusCode) :
  ManagerInvariant s ->
  SetCaloHitAvailability mem s pCaloHit isAvailable = Some (rc, mem', s') ->
  ManagerInvariant s'.
Proof.
  intros Hinv. unfold SetCaloHitAvailability.
  destruct (decide (0 = m_nReclusteringProcesses s)); [by intros [= _ _ <-]|].
  destruct (usageMapHeap s !! m_pCurrentUsageMap s) as [m|] eqn:Hcur; [|done]. simpl.
  destruct (m !! pCaloHit); [|by intros [= _ _ <-]]. intros [= _ _ <-].
  apply (ManagerInvariant_withHeap s); [done|]. intros p Hp.
  destruct (decide (m_pCurrentUsageMap s = p)) as [->|Hne].
  - rewrite lookup_insert_eq. eauto.
  - by rewrite lookup_insert_ne.
Qed.

Lemma invariant_current_live (s : Manager) :
  ManagerInvariant s -> 1 <= m_nReclusteringProcesses s ->
  is_Some (usageMapHeap s !! m_pCurrentUsageMap s).
Proof.
  intros Hinv Hdepth.
  destruct (invariant_levels s Hinv Hdepth) as (levels & back & Hlevels).
  pose proof Hinv as (_ & _ & _ & _ & _ & _ & _ & Hcur).
  rewrite Hlevels, last_snoc in Hcur.
  apply Exists_exists in Hcur as (name & _ & Hname).
  by apply (invariant_registry_live s name).
Qed.

Lemma invariant_parent (s : Manager) :
  ManagerInvariant s -> 2 <= m_nReclusteringProcesses s ->
  exists pParent parent levels back,
    last (m_parentCaloHitUsageMaps s) = Some pParent
    /\ usageMapHeap s !! pParent = Some parent
    /\ m_nestedUsageMapNames s = levels ++ [back].
Proof.
  intros Hinv Hdepth.
  destruct (invariant_levels s Hinv) as (levels & back & Hlevels); [lia|].
  pose proof Hinv as (Hlen & _ & _ & _ & _ & _ & Hparents & _).
  rewrite Hlevels in Hlen, Hparents. rewrite removelast_last in Hparents.
  rewrite length_app in Hlen. simpl in Hlen.
  apply Forall2_length in Hparents.
  destruct (last (m_parentCaloHitUsageMaps s)) as [pParent|] eqn:Hlast.
  - destruct (invariant_parent_registered s levels back pParent Hinv Hlevels Hlast)
      as (name & Hname & _).
    destruct (invariant_registry_live s name pParent Hinv Hname) as [_ [parent Hparent]].
    by exists pParent, parent, levels, back.
  - apply last_None in Hlast. rewrite Hlast in Hparents. simpl in Hparents. lia.
Qed.


Lemma CreateAdditionalCaloHitUsageMap_outcomes (s : Manager) (name : string) :
  ManagerInvariant s ->
  (m_nReclusteringProcesses s = 0
   /\ CreateAdditionalCaloHitUsageMap s name = Some (STATUS_CODE_NOT_ALLOWED, s))
  \/ (is_Some (m_nameToCaloHitUsageMap s !! name)
      /\ exists heap, CreateAdditionalCaloHitUsageMap s name
                      = Some (STATUS_CODE_FAILURE, withHeap s heap))
  \/ (exists s', CreateAdditionalCaloHitUsageMap s name = Some (STATUS_CODE_SUCCESS, s')
                 /\ ManagerInvariant s').
Proof.
  intros Hinv.
  destruct (decide (0 = m_nReclusteringProcesses s)) as [Hzero|Hopen].
  { left. split; [done|]. unfold CreateAdditionalCaloHitUsageMap. by rewrite decide_True. }
  right.
  assert (Hpos : 1 <= m_nReclusteringProcesses s).
  { destruct Hinv as [Hlen _]. lia. }
  destruct (invariant_current_live s Hinv Hpos) as [current Hcur].
  destruct (m_nameToCaloHitUsageMap s !! name) as [p|] eqn:Hname.
  - left. split; [eauto|]. unfold CreateAdditionalCaloHitUsageMap.
    rewrite decide_False by done. rewrite Hcur. simpl. rewrite Hname. eauto.
  - right. destruct (invariant_levels s Hinv Hpos) as (levels & back & Hlevels).
    eexists. split.
    + by apply (CreateAdditionalCaloHitUsageMap_run s name current levels back).
    + by apply ManagerInvariant_sibling.
Qed.

Lemma CreateInitialCaloHitUsageMap_outcomes (s : Manager) (name : string)
  (orderedCaloHitList : list (Z * list N)) :
  (exists s', CreateInitialCaloHitUsageMap s name orderedCaloHitList
              = Some (STATUS_CODE_FAILURE, s'))
  \/ (exists s', CreateInitialCaloHitUsageMap s name orderedCaloHitList
                 = Some (STATUS_CODE_SUCCESS, s')
                 /\ (ManagerInvariant s -> m_nReclusteringProcesses s + 1 < 2 ^ 32 ->
                     ManagerInvariant s')).
Proof.
  unfold CreateInitialCaloHitUsageMap.
  destruct (m_nameToCaloHitUsageMap s !! name) as [p|] eqn:Hname; [left; eauto|].
  destruct (seedLayers orderedCaloHitList ∅) as [[] m]; [|left; eauto].
  right. eexists. split; [reflexivity|]. intros Hinv Hlt.
  pose proof (ManagerInvariant_initialised s name orderedCaloHitList Hinv Hlt Hname) as Hnew.
  apply (ManagerInvariant_withHeap _
           (<[newAddress (usageMapHeap s) := m]>
              (<[newAddress (usageMapHeap s) := ∅]> (usageMapHeap s)))) in Hnew.
  - unfold withHeap, initialisedManager in Hnew. simpl in Hnew.
    unfold wrap32. rewrite Z.mod_small; [done|]. destruct Hinv as [Hlen _]. lia.
  - intros p. unfold initialisedManager. simpl.
    destruct (decide (newAddress (usageMapHeap s) = p)) as [->|Hne].
    + rewrite !lookup_insert_eq. eauto.
    + by rewrite !lookup_insert_ne.
Qed.


(** ** Creating a usage map under a name that is taken *)

(** C2 (where the code departs from it): on a state that meets the
    invariant, [CreateInitialCaloHitUsageMap] called with a name that is
    already registered returns [STATUS_CODE_FAILURE] only after it has
    incremented the counter and pushed the current usage map on the vector
    of parents: the counter and the vector are not as they were before the
    call, and the state no longer meets the invariant. *)
Theorem CreateInitialCaloHitUsageMap_name_taken (s : Manager) (name : string)
  (orderedCaloHitList : list (Z * list N)) :
  ManagerInvariant s ->
  is_Some (m_nameToCaloHitUsageMap s !! name) ->
  exists s',
    CreateInitialCaloHitUsageMap s name orderedCaloHitList
    = Some (STATUS_CODE_FAILURE, s')
    /\ m_nReclusteringProcesses s' = wrap32 (m_nReclusteringProcesses s + 1)
    /\ m_nReclusteringProcesses s' <> m_nReclusteringProcesses s
    /\ m_parentCaloHitUsageMaps s'
       = m_parentCaloHitUsageMaps s ++ [m_pCurrentUsageMap s]
    /\ m_nameToCaloHitUsageMap s' = m_nameToCaloHitUsageMap s
    /\ ~ ManagerInvariant s'.
Proof.
  intros Hinv [p Hname].
  pose proof Hinv as (Hlen & Hlt & _ & Hdom & _).
  assert (Hopen : 1 <= m_nReclusteringProcesses s).
  { destruct (m_nestedUsageMapNames s) as [|level levels]; [|simpl in Hlen; lia].
    apply (elem_of_dom_2 (m_nameToCaloHitUsageMap s)) in Hname.
    rewrite Hdom in Hname. simpl in Hname. by apply elem_of_empty in Hname. }
  assert (Hwrap : wrap32 (m_nReclusteringProcesses s + 1) <> m_nReclusteringProcesses s).
  { unfold wrap32. destruct (decide (m_nReclusteringProcesses s + 1 < 2 ^ 32)) as [Hs|Hs].
    - rewrite Z.mod_small by lia. lia.
    - replace (m_nReclusteringProcesses s + 1) with (2 ^ 32) by lia.
      rewrite Z.mod_same by lia. lia. }
  unfold CreateInitialCaloHitUsageMap. rewrite Hname. rewrite decide_True by lia.
  eexists. split; [reflexivity|]. simpl.
  split; [done|]. split; [done|]. split; [done|]. split; [done|].
  intros (Hlen' & _). simpl in Hlen'. congruence.
Qed.

(** The example states are those the calls reach. *)
Example oneLevelManager_reached :
  CreateInitialCaloHitUsageMap initialManager "h0" [(0, [1%N; 2%N])]
  = Some (STATUS_CODE_SUCCESS, oneLevelManager).
Proof. vm_compute. reflexivity. Qed.

Example twoLevelManager_reached :
  CreateInitialCaloHitUsageMap oneLevelManager "h1" [(0, [1%N; 2%N])]
  = Some (STATUS_CODE_SUCCESS, twoLevelManager).
Proof. vm_compute. reflexivity. Qed.

Example mismatchedManager_reached :
  CreateInitialCaloHitUsageMap oneLevelManager "h1" [(0, [1%N; 2%N; 3%N])]
  = Some (STATUS_CODE_SUCCESS, mismatchedManager).
Proof. vm_compute. reflexivity. Qed.

Lemma ManagerInvariant_oneLevel : ManagerInvariant oneLevelManager.
Proof. apply (bool_decide_unpack _). vm_compute. exact I. Qed.

Lemma CreateInitialCaloHitUsageMap_name_taken_witness :
  exists s',
    CreateInitialCaloHitUsageMap oneLevelManager "h0" [(0, [1%N; 2%N])]
    = Some (STATUS_CODE_FAILURE, s')
    /\ m_nReclusteringProcesses s' = wrap32 (m_nReclusteringProcesses oneLevelManager + 1)
    /\ m_nReclusteringProcesses s' <> m_nReclusteringProcesses oneLevelManager
    /\ m_parentCaloHitUsageMaps s'
       = m_parentCaloHitUsageMaps oneLevelManager ++ [m_pCurrentUsageMap oneLevelManager]
    /\ m_nameToCaloHitUsageMap s' = m_nameToCaloHitUsageMap oneLevelManager
    /\ ~ ManagerInvariant s'.
Proof.
  apply (CreateInitialCaloHitUsageMap_name_taken oneLevelManager "h0" [(0, [1%N; 2%N])]).
  - apply (bool_decide_unpack _). vm_compute. exact I.
  - vm_compute. eauto.
Defined.

(** The same call spelt out: one reclustering process is open and no parent
    is saved before it, two are open and one parent is saved after it, and
    the vector of nested names still has one level. *)
Example CreateInitialCaloHitUsageMap_twice :
  m_nReclusteringProcesses oneLevelManager = 1
  /\ m_parentCaloHitUsageMaps oneLevelManager = []
  /\ exists s',
       CreateInitialCaloHitUsageMap oneLevelManager "h0" [(0, [1%N; 2%N])]
       = Some (STATUS_CODE_FAILURE, s')
       /\ m_nReclusteringProcesses s' = 2
       /\ m_parentCaloHitUsageMaps s' = [1%N]
       /\ m_nestedUsageMapNames s' = [["h0"]].
Proof.
  split; [reflexivity|]. split; [reflexivity|].
  eexists. split; [vm_compute; reflexivity|]. by vm_compute.
Qed.

(** ** The sibling-isolation scenario *)

(** C3, as the code has it: in the sibling-isolation scenario the first four
    calls succeed, the hits end with [A] unavailable and [B] available, "h0"
    is no longer registered, and the last call, [Apply("h0")], returns
    [STATUS_CODE_NOT_ALLOWED], since no reclustering process is open any
    more. *)
Theorem siblingIsolationScenario_spec (mem : N -> CaloHit) (A B : N) (layer : Z) :
  A <> B ->
  exists (mem' : N -> CaloHit) (s' : Manager),
    siblingIsolationScenario mem A B layer
    = Some ([STATUS_CODE_SUCCESS; STATUS_CODE_SUCCESS; STATUS_CODE_SUCCESS;
             STATUS_CODE_SUCCESS], STATUS_CODE_NOT_ALLOWED, mem', s')
    /\ m_isAvailable (mem' A) = false
    /\ m_isAvailable (mem' B) = true
    /\ m_nameToCaloHitUsageMap s' !! "h0" = None
    /\ m_nReclusteringProcesses s' = 0.
Proof.
  intros Hne. unfold siblingIsolationScenario.
  set (ol := [(layer, [A; B])]).
  rewrite (CreateInitialCaloHitUsageMap_run initialManager "h0" ol);
    [|done|done|apply lookup_empty|].
  2:{ unfold allHits, ol. simpl. apply NoDup_cons. split.
      - intros Hin. apply list_elem_of_singleton in Hin. done.
      - apply NoDup_singleton. }
  cbn [mbind option_bind].
  set (s1 := initialisedManager initialManager "h0" ol).
  assert (Hinv1 : ManagerInvariant s1).
  { apply ManagerInvariant_initialised; [apply ManagerInvariant_initial|done|apply lookup_empty]. }
  set (seed := seedMap (allHits ol) ∅).
  assert (HseedA : seed !! A = Some false).
  { unfold seed. rewrite seedMap_lookup, decide_True; [done|]. by left. }
  assert (HseedB : seed !! B = Some false).
  { unfold seed. rewrite seedMap_lookup, decide_True; [done|]. right. by left. }
  assert (Hfree : m_nameToCaloHitUsageMap s1 !! "h1" = None).
  { unfold s1, initialisedManager. cbn [m_nameToCaloHitUsageMap].
    by rewrite lookup_insert_ne. }
  rewrite (CreateAdditionalCaloHitUsageMap_run s1 "h1" seed [] ["h0"]);
    [|done|apply lookup_insert_eq|apply Hfree|done].
  cbn [mbind option_bind].
  set (s2 := siblingManager s1 "h1" seed [] ["h0"]).
  assert (Hinv2 : ManagerInvariant s2).
  { by apply ManagerInvariant_sibling. }
  set (p2 := newAddress (usageMapHeap s1)).
  set (sibling := (fun _ : bool => true) <$> seed).
  assert (Hcur2 : usageMapHeap s2 !! m_pCurrentUsageMap s2 = Some sibling).
  { apply lookup_insert_eq. }
  unfold SetCaloHitAvailability at 1. rewrite decide_False by done.
  rewrite Hcur2. cbn [mbind option_bind].
  assert (HsiblingA : sibling !! A = Some true) by (unfold sibling; by rewrite lookup_fmap, HseedA).
  rewrite HsiblingA. cbn [mbind option_bind].
  set (s3 := setCurrentEntry s2 sibling A false).
  assert (Hinv3 : ManagerInvariant s3).
  { apply (SetCaloHitAvailability_invariant mem mem s2 s3 A false STATUS_CODE_SUCCESS Hinv2).
    unfold SetCaloHitAvailability. rewrite decide_False by done.
    rewrite Hcur2. simpl. by rewrite HsiblingA. }
  rewrite (ApplyCaloHitUsageMap_last_run mem s3 "h1" p2 (<[A := false]> sibling));
    [|done|done|apply lookup_insert_eq|apply lookup_insert_eq].
  cbn [mbind option_bind].
  unfold ApplyCaloHitUsageMap at 1. rewrite decide_True by done.
  cbn [mbind option_bind].
  eexists _, _. split; [reflexivity|].
  split; [|split; [|done]].
  - rewrite (writeBack_in _ _ A false); [done|apply NoDup_usageMapEntries|].
    apply elem_of_usageMapEntries, lookup_insert_eq.
  - rewrite (writeBack_in _ _ B true); [done|apply NoDup_usageMapEntries|].
    apply elem_of_usageMapEntries. rewrite lookup_insert_ne by done.
    unfold sibling. by rewrite lookup_fmap, HseedB.
Qed.

Lemma siblingIsolationScenario_spec_witness :
  exists (mem' : N -> CaloHit) (s' : Manager),
    siblingIsolationScenario hitsAtOne 1%N 2%N 0
    = Some ([STATUS_CODE_SUCCESS; STATUS_CODE_SUCCESS; STATUS_CODE_SUCCESS;
             STATUS_CODE_SUCCESS], STATUS_CODE_NOT_ALLOWED, mem', s')
    /\ m_isAvailable (mem' 1%N) = false
    /\ m_isAvailable (mem' 2%N) = true
    /\ m_nameToCaloHitUsageMap s' !! "h0" = None
    /\ m_nReclusteringProcesses s' = 0.
Proof. apply (siblingIsolationScenario_spec hitsAtOne 1%N 2%N 0). discriminate. Defined.

(** The last call of the scenario does not return [STATUS_CODE_NOT_FOUND]:
    the check of the counter comes before the lookup of the name. *)
Lemma siblingIsolationScenario_not_NOT_FOUND :
  (fun r : list StatusCode * StatusCode * (N -> CaloHit) * Manager => r.1.1.2)
    <$> siblingIsolationScenario hitsAtOne 1%N 2%N 0
  <> Some STATUS_CODE_NOT_FOUND.
Proof. vm_compute. discriminate. Qed.

(** ** The statements at concrete inputs *)

Lemma IsCaloHitAvailable_spec_witness :
  IsCaloHitAvailable hitOneUnavailable initialManager 1%N = Some false
  /\ IsCaloHitAvailable hitsAtOne oneLevelManager 1%N = Some false
  /\ IsCaloHitAvailable hitsAtOne oneLevelManager 7%N = Some false.
Proof.
  split; [|split].
  - destruct (IsCaloHitAvailable_spec hitOneUnavailable initialManager 1%N) as [Hzero _].
    apply Hzero. reflexivity.
  - destruct (IsCaloHitAvailable_spec hitsAtOne oneLevelManager 1%N) as [_ Hopen].
    destruct (Hopen seedOneTwo) as [Hkey _]; [vm_compute; discriminate|vm_compute; reflexivity|].
    apply Hkey. vm_compute. reflexivity.
  - destruct (IsCaloHitAvailable_spec hitsAtOne oneLevelManager 7%N) as [_ Hopen].
    destruct (Hopen seedOneTwo) as [_ Hnokey]; [vm_compute; discriminate|vm_compute; reflexivity|].
    apply Hnokey. vm_compute. reflexivity.
Defined.

Lemma SetCaloHitAvailability_spec_witness :
  (exists mem',
     SetCaloHitAvailability hitsAtOne initialManager 1%N false
     = Some (STATUS_CODE_SUCCESS, mem', initialManager)
     /\ m_isAvailable (mem' 1%N) = false
     /\ forall H', H' <> 1%N -> mem' H' = hitsAtOne H')
  /\ SetCaloHitAvailability hitsAtOne oneLevelManager 1%N true
     = Some (STATUS_CODE_SUCCESS, hitsAtOne,
             withHeap oneLevelManager
               (<[m_pCurrentUsageMap oneLevelManager := <[1%N := true]> seedOneTwo]>
                  (usageMapHeap oneLevelManager)))
  /\ SetCaloHitAvailability hitsAtOne oneLevelManager 7%N true
     = Some (STATUS_CODE_NOT_FOUND, hitsAtOne, oneLevelManager)
  /\ exists current',
       SetCaloHitAvailabilityList hitsAtOne oneLevelManager ([1%N; 2%N] ++ 7%N :: [3%N]) true
       = Some (STATUS_CODE_NOT_FOUND, hitsAtOne,
               withHeap oneLevelManager
                 (<[m_pCurrentUsageMap oneLevelManager := current']>
                    (usageMapHeap oneLevelManager)))
       /\ (forall h, h ∈ [1%N; 2%N] -> current' !! h = Some true)
       /\ (forall h, h ∉ [1%N; 2%N] -> current' !! h = seedOneTwo !! h).
Proof.
  split; [|split; [|split]].
  - destruct (SetCaloHitAvailability_spec hitsAtOne initialManager 1%N false) as [Hzero _].
    apply Hzero. reflexivity.
  - destruct (SetCaloHitAvailability_spec hitsAtOne oneLevelManager 1%N true) as [_ Hopen].
    destruct (Hopen seedOneTwo) as [Hkey _]; [vm_compute; discriminate|vm_compute; reflexivity|].
    apply Hkey. vm_compute. eauto.
  - destruct (SetCaloHitAvailability_spec hitsAtOne oneLevelManager 7%N true) as [_ Hopen].
    destruct (Hopen seedOneTwo) as (_ & Hnokey & _);
      [vm_compute; discriminate|vm_compute; reflexivity|].
    apply Hnokey. vm_compute. reflexivity.
  - destruct (SetCaloHitAvailability_spec hitsAtOne oneLevelManager 7%N true) as [_ Hopen].
    destruct (Hopen seedOneTwo) as (_ & _ & Hlist);
      [vm_compute; discriminate|vm_compute; reflexivity|].
    apply Hlist.
    + repeat constructor; vm_compute; eauto.
    + vm_compute. reflexivity.
Defined.

Lemma ApplyCaloHitUsageMap_last_witness :
  exists mem' s',
    ApplyCaloHitUsageMap hitsAtOne oneLevelManager "h0"
    = Some (STATUS_CODE_SUCCESS, mem', s')
    /\ (forall hit value, seedOneTwo !! hit = Some value ->
                          m_isAvailable (mem' hit) = value
                          /\ mem' hit = set_isAvailable value (hitsAtOne hit))
    /\ (forall hit, seedOneTwo !! hit = None -> mem' hit = hitsAtOne hit)
    /\ m_nameToCaloHitUsageMap s' = ∅
    /\ m_parentCaloHitUsageMaps s' = []
    /\ m_nestedUsageMapNames s' = []
    /\ m_nReclusteringProcesses s' = 0.
Proof.
  apply (ApplyCaloHitUsageMap_last hitsAtOne oneLevelManager "h0" 1%N seedOneTwo).
  - apply (bool_decide_unpack _). vm_compute. exact I.
  - reflexivity.
  - vm_compute. reflexivity.
  - vm_compute. reflexivity.
Defined.

Lemma CreateAdditionalCaloHitUsageMap_spec_witness :
  CreateAdditionalCaloHitUsageMap initialManager "h1"
  = Some (STATUS_CODE_NOT_ALLOWED, initialManager)
  /\ exists (s' : Manager) (sibling : gmap N bool),
       CreateAdditionalCaloHitUsageMap oneLevelManager "h1"
       = Some (STATUS_CODE_SUCCESS, s')
       /\ usageMapHeap oneLevelManager !! m_pCurrentUsageMap s' = None
       /\ usageMapHeap s' = <[m_pCurrentUsageMap s' := sibling]> (usageMapHeap oneLevelManager)
       /\ dom sibling = dom seedOneTwo
       /\ (forall hit, is_Some (seedOneTwo !! hit) -> sibling !! hit = Some true)
       /\ m_nameToCaloHitUsageMap s'
          = <["h1" := m_pCurrentUsageMap s']> (m_nameToCaloHitUsageMap oneLevelManager)
       /\ (exists levels back,
             m_nestedUsageMapNames oneLevelManager = levels ++ [back]
             /\ m_nestedUsageMapNames s' = levels ++ [back ++ ["h1"]])
       /\ m_nReclusteringProcesses s' = m_nReclusteringProcesses oneLevelManager
       /\ m_parentCaloHitUsageMaps s' = m_parentCaloHitUsageMaps oneLevelManager.
Proof.
  split.
  - destruct (CreateAdditionalCaloHitUsageMap_spec initialManager "h1") as [Hzero _].
    apply Hzero. reflexivity.
  - destruct (CreateAdditionalCaloHitUsageMap_spec oneLevelManager "h1") as [_ Hopen].
    apply Hopen.
    + apply (bool_decide_unpack _). vm_compute. exact I.
    + vm_compute. discriminate.
    + vm_compute. reflexivity.
    + vm_compute. reflexivity.
Defined.


Lemma RemoveUnavailableCaloHits_idempotent_witness :
  RemoveUnavailableCaloHits OrderedCaloHitList_Remove hitOneUnavailable initialManager
                            [(0, [1%N; 2%N]); (1, [3%N])]
  = Some (STATUS_CODE_SUCCESS, [(0, [2%N]); (1, [3%N])])
  /\ RemoveUnavailableCaloHits OrderedCaloHitList_Remove hitOneUnavailable initialManager
                               [(0, [2%N]); (1, [3%N])]
     = Some (STATUS_CODE_SUCCESS, [(0, [2%N]); (1, [3%N])]).
Proof.
  assert (Hfirst : RemoveUnavailableCaloHits OrderedCaloHitList_Remove hitOneUnavailable
                     initialManager [(0, [1%N; 2%N]); (1, [3%N])]
                   = Some (STATUS_CODE_SUCCESS, [(0, [2%N]); (1, [3%N])])).
  { vm_compute. reflexivity. }
  split; [exact Hfirst|].
  apply (RemoveUnavailableCaloHits_idempotent OrderedCaloHitList_Remove hitOneUnavailable
           initialManager [(0, [1%N; 2%N]); (1, [3%N])]).
  - exact OrderedCaloHitList_Remove_contract.
  - exact Hfirst.
Defined.

Lemma ApplySimpleIsolationScheme_frame_witness :
  let mem' := ApplySimpleIsolationScheme (settingsWithPower 2) [1%N; 2%N; 3%N] isolationHits in
  mem' 1%N = isolationHits 1%N
  /\ m_isIsolated (mem' 2%N) = true
  /\ m_isAvailable (mem' 3%N) = m_isAvailable (isolationHits 3%N).
Proof.
  intros mem'. split; [|split].
  - destruct (ApplySimpleIsolationScheme_frame (settingsWithPower 2) [1%N; 2%N; 3%N]
                isolationHits 1%N) as (_ & _ & Hkeep & _).
    apply Hkeep. vm_compute. reflexivity.
  - destruct (ApplySimpleIsolationScheme_frame (settingsWithPower 2) [1%N; 2%N; 3%N]
                isolationHits 2%N) as (_ & Hset & _).
    apply Hset. reflexivity.
  - destruct (ApplySimpleIsolationScheme_frame (settingsWithPower 2) [1%N; 2%N; 3%N]
                isolationHits 3%N) as (_ & _ & _ & Havailable & _).
    exact Havailable.
Defined.

(** ** Reading back what was set *)

Lemma lookupAvailable_insert (m : gmap N bool) (h : N) (v : bool) :
  lookupAvailable (<[h := v]> m) h = v.
Proof. unfold lookupAvailable. rewrite lookup_insert_eq. by destruct v. Qed.

Lemma lookupAvailable_insert_ne (m : gmap N bool) (h h' : N) (v : bool) :
  h <> h' -> lookupAvailable (<[h := v]> m) h' = lookupAvailable m h'.
Proof. intros Hne. unfold lookupAvailable. by rewrite lookup_insert_ne. Qed.

(** X1: a hit whose availability was set with success reads back as set, and
    the availability of every other hit reads as before, whether or not a
    reclustering process is open. *)
Theorem SetCaloHitAvailability_then_IsCaloHitAvailable (mem mem' : N -> CaloHit)
  (s s' : Manager) (pCaloHit : N) (isAvailable : bool) :
  SetCaloHitAvailability mem s pCaloHit isAvailable
  = Some (STATUS_CODE_SUCCESS, mem', s') ->
  IsCaloHitAvailable mem' s' pCaloHit = Some isAvailable
  /\ forall other, other <> pCaloHit ->
                   IsCaloHitAvailable mem' s' other = IsCaloHitAvailable mem s other.
Proof.
  unfold SetCaloHitAvailability.
  destruct (decide (0 = m_nReclusteringProcesses s)) as [Hzero|Hopen].
  - intros [= <- <-]. unfold IsCaloHitAvailable.
    destruct (decide (0 = m_nReclusteringProcesses s)); [|done]. split.
    + by rewrite fn_lookup_insert.
    + intros other Hne. by rewrite fn_lookup_insert_ne.
  - destruct (usageMapHeap s !! m_pCurrentUsageMap s) as [m|] eqn:Hcur; [|done]. simpl.
    destruct (m !! pCaloHit) as [b|] eqn:Hkey; [|done]. intros [= <- <-].
    unfold IsCaloHitAvailable. simpl.
    destruct (decide (0 = m_nReclusteringProcesses s)); [done|].
    rewrite lookup_insert_eq, Hcur. simpl. split.
    + by rewrite lookupAvailable_insert.
    + intros other Hne. by rewrite lookupAvailable_insert_ne.
Qed.

(** ** Availability of a list of hits *)

Lemma AreCaloHitsAvailable_loop0_true (mem : N -> CaloHit) (l : list N) :
  AreCaloHitsAvailable_loop0 mem l = true
  <-> forall h, h ∈ l -> m_isAvailable (mem h) = true.
Proof.
  induction l as [|a l IH]; simpl.
  - split; [|done]. intros _ h Hin. by apply elem_of_nil in Hin.
  - destruct (m_isAvailable (mem a)) eqn:Ha; simpl.
    + rewrite IH. split.
      * intros Hall h Hin. apply elem_of_cons in Hin as [->|Hin]; auto.
      * intros Hall h Hin. apply Hall. by right.
    + split; [done|]. intros Hall. rewrite <- Ha. apply Hall. by left.
Qed.

Lemma AreCaloHitsAvailable_loop_true (s : Manager) (l : list N) :
  AreCaloHitsAvailable_loop s l = Some true
  <-> forall h, h ∈ l ->
        exists m, usageMapHeap s !! m_pCurrentUsageMap s = Some m
                  /\ lookupAvailable m h = true.
Proof.
  induction l as [|a l IH]; simpl.
  - split; [|done]. intros _ h Hin. by apply elem_of_nil in Hin.
  - destruct (usageMapHeap s !! m_pCurrentUsageMap s) as [m|] eqn:Hcur; simpl.
    + destruct (lookupAvailable m a) eqn:Ha; simpl.
      * rewrite IH. split.
        -- intros Hall h Hin. apply elem_of_cons in Hin as [->|Hin]; eauto.
        -- intros Hall h Hin. apply Hall. by right.
      * split; [done|]. intros Hall. destruct (Hall a) as (m' & [= <-] & Hm'); [by left|].
        congruence.
    + split; [done|]. intros Hall. destruct (Hall a) as (m' & Hm' & _); [by left|]. done.
Qed.

(** X2: [AreCaloHitsAvailable] returns [true] exactly when
    [IsCaloHitAvailable] returns [true] for every hit of the list; for the
    empty list it returns [true]. *)
Theorem AreCaloHitsAvailable_iff (mem : N -> CaloHit) (s : Manager)
  (caloHitList : list N) :
  (AreCaloHitsAvailable mem s caloHitList = Some true
   <-> forall h, h ∈ caloHitList -> IsCaloHitAvailable mem s h = Some true)
  /\ AreCaloHitsAvailable mem s [] = Some true.
Proof.
  unfold AreCaloHitsAvailable, IsCaloHitAvailable.
  destruct (decide (0 = m_nReclusteringProcesses s)) as [Hzero|Hopen]; (split; [|done]).
  - split.
    + intros [= Hall] h Hin. f_equal.
      by apply (proj1 (AreCaloHitsAvailable_loop0_true mem caloHitList)).
    + intros Hall. f_equal. apply AreCaloHitsAvailable_loop0_true.
      intros h Hin. specialize (Hall h Hin). by injection Hall.
  - rewrite AreCaloHitsAvailable_loop_true. split.
    + intros Hall h Hin. destruct (Hall h Hin) as (m & -> & Hm). simpl. by rewrite Hm.
    + intros Hall h Hin. specialize (Hall h Hin).
      destruct (usageMapHeap s !! m_pCurrentUsageMap s) as [m|]; [|done].
      simpl in Hall. exists m. split; [done|]. by injection Hall.
Qed.

(** ** Erasing the unavailable hits of a list *)

Lemma RemoveUnavailableCaloHitsList_elem (mem : N -> CaloHit) (s : Manager)
  (caloHitList : list N) :
  forall remaining,
    RemoveUnavailableCaloHitsList mem s caloHitList = Some remaining ->
    remaining
    = filter (fun h => IsCaloHitAvailable mem s h = Some true) caloHitList.
Proof.
  induction caloHitList as [|a l IH]; intros remaining Hrun; simpl in Hrun.
  - by injection Hrun as <-.
  - destruct (IsCaloHitAvailable mem s a) as [b|] eqn:Ha; [|done]. simpl in Hrun.
    destruct (RemoveUnavailableCaloHitsList mem s l) as [rest|]; [|done].
    simpl in Hrun. injection Hrun as <-. rewrite (IH rest eq_refl).
    destruct b; simpl.
    + rewrite filter_cons_True; by rewrite ?Ha.
    + rewrite filter_cons_False; [done|]. rewrite Ha. discriminate.
Qed.

(** X3: [RemoveUnavailableCaloHits] on a hit list keeps exactly the hits
    that are available, in their order, and a second call on what it leaves
    erases nothing more. *)
Theorem RemoveUnavailableCaloHitsList_spec (mem : N -> CaloHit) (s : Manager)
  (caloHitList remaining : list N) :
  RemoveUnavailableCaloHitsList mem s caloHitList = Some remaining ->
  sublist remaining caloHitList
  /\ (forall h, h ∈ remaining
                <-> h ∈ caloHitList /\ IsCaloHitAvailable mem s h = Some true)
  /\ RemoveUnavailableCaloHitsList mem s remaining = Some remaining.
Proof.
  intros Hrun. pose proof (RemoveUnavailableCaloHitsList_elem _ _ _ _ Hrun) as ->.
  split; [apply sublist_filter|].
  split; [intros h; rewrite list_elem_of_filter; tauto|].
  clear Hrun. induction caloHitList as [|a l IH]; [done|].
  destruct (decide (IsCaloHitAvailable mem s a = Some true)) as [Ha|Ha].
  - rewrite filter_cons_True by done. simpl. rewrite Ha. simpl. by rewrite IH.
  - by rewrite filter_cons_False.
Qed.

(** ** Setting the availability of a list of hits *)

Lemma set_isAvailable_twice (v : bool) (hit : CaloHit) :
  set_isAvailable v (set_isAvailable v hit) = set_isAvailable v hit.
Proof. reflexivity. Qed.

Lemma SetCaloHitAvailability_loop0_lookup (l : list N) (v : bool) :
  forall (mem : N -> CaloHit) (h : N),
    SetCaloHitAvailability_loop0 mem l v h
    = if decide (h ∈ l) then set_isAvailable v (mem h) else mem h.
Proof.
  induction l as [|a l IH]; intros mem h; simpl.
  - destruct (decide (h ∈ [])) as [Hin|]; [by apply elem_of_nil in Hin|done].
  - rewrite IH. destruct (decide (h ∈ l)) as [Hin|Hnin].
    + rewrite decide_True by (by right). destruct (decide (a = h)) as [->|Hne].
      * by rewrite fn_lookup_insert.
      * by rewrite fn_lookup_insert_ne.
    + destruct (decide (a = h)) as [->|Hne].
      * rewrite fn_lookup_insert. rewrite decide_True; [done|by left].
      * rewrite fn_lookup_insert_ne by done. rewrite decide_False; [done|].
        intros Hin. apply elem_of_cons in Hin as [->|?]; done.
Qed.

Lemma SetCaloHitAvailability_loop_success (l : list N) (v : bool) :
  forall s s' : Manager,
    SetCaloHitAvailability_loop s l v = Some (STATUS_CODE_SUCCESS, s') ->
    (l = [] /\ s' = s)
    \/ exists current,
         usageMapHeap s !! m_pCurrentUsageMap s = Some current
         /\ Forall (fun h => is_Some (current !! h)) l
         /\ s' = withHeap s (<[m_pCurrentUsageMap s := setEntries l v current]>
                               (usageMapHeap s)).
Proof.
  induction l as [|a l IH]; intros s s' Hrun; simpl in Hrun.
  - left. by injection Hrun as <-.
  - right. destruct (usageMapHeap s !! m_pCurrentUsageMap s) as [m|] eqn:Hcur; [|done].
    simpl in Hrun. destruct (m !! a) as [b|] eqn:Ha; [|done].
    exists m. split; [done|].
    destruct (IH _ _ Hrun) as [[-> ->]|(current & Hcur1 & Hkeys & ->)].
    + split; [repeat constructor; eauto|]. reflexivity.
    + simpl in Hcur1. rewrite lookup_insert_eq in Hcur1. injection Hcur1 as <-. split.
      * constructor; [eauto|]. eapply Forall_impl; [exact Hkeys|]. intros h. simpl.
        destruct (decide (a = h)) as [->|Hne]; [eauto|]. by rewrite lookup_insert_ne.
      * unfold withHeap, setCurrentEntry. simpl. by rewrite insert_insert_eq.
Qed.

(** X4: when the overload of [SetCaloHitAvailability] taking a list returns
    success, every hit of the list reads back as set and the availability of
    every hit outside the list reads as before. *)
Theorem SetCaloHitAvailabilityList_then_IsCaloHitAvailable (mem mem' : N -> CaloHit)
  (s s' : Manager) (caloHitList : list N) (isAvailable : bool) :
  SetCaloHitAvailabilityList mem s caloHitList isAvailable
  = Some (STATUS_CODE_SUCCESS, mem', s') ->
  (forall h, h ∈ caloHitList -> IsCaloHitAvailable mem' s' h = Some isAvailable)
  /\ (forall h, h ∉ caloHitList ->
                IsCaloHitAvailable mem' s' h = IsCaloHitAvailable mem s h).
Proof.
  unfold SetCaloHitAvailabilityList.
  destruct (decide (0 = m_nReclusteringProcesses s)) as [Hzero|Hopen].
  - intros [= <- <-]. unfold IsCaloHitAvailable.
    destruct (decide (0 = m_nReclusteringProcesses s)); [|done].
    split; intros h Hin; rewrite SetCaloHitAvailability_loop0_lookup.
    + by rewrite decide_True.
    + by rewrite decide_False.
  - destruct (SetCaloHitAvailability_loop s caloHitList isAvailable)
      as [[rc s1]|] eqn:Hloop; [|done].
    simpl. intros [= -> <- <-].
    destruct (SetCaloHitAvailability_loop_success _ _ _ _ Hloop)
      as [[-> ->]|(current & Hcur & Hkeys & ->)].
    + split; [|done]. intros h Hin. by apply elem_of_nil in Hin.
    + unfold IsCaloHitAvailable. simpl.
      destruct (decide (0 = m_nReclusteringProcesses s)); [done|].
      rewrite lookup_insert_eq, Hcur. simpl.
      split; intros h Hin; f_equal; unfold lookupAvailable.
      * rewrite setEntries_lookup_in by done. by destruct isAvailable.
      * by rewrite setEntries_lookup_notin.
Qed.

(** ** When the creation of an initial usage map succeeds *)

Lemma seedHits_true_iff (hits : list N) :
  forall m : gmap N bool,
    (seedHits hits m).1 = true <-> NoDup hits /\ forall h, h ∈ hits -> m !! h = None.
Proof.
  induction hits as [|a l IH]; intros m; simpl.
  - split; [|done]. intros _. split; [constructor|]. intros h Hin. by apply elem_of_nil in Hin.
  - destruct (m !! a) as [b|] eqn:Ha; simpl.
    + split; [done|]. intros [_ Hnew]. rewrite Hnew in Ha; [done|by left].
    + rewrite IH. rewrite NoDup_cons. split.
      * intros [Hnd Hnew]. split; [split; [|done]|].
        -- intros Hin. specialize (Hnew a Hin). by rewrite lookup_insert_eq in Hnew.
        -- intros h Hin. apply elem_of_cons in Hin as [->|Hin]; [done|].
           specialize (Hnew h Hin). destruct (decide (a = h)) as [->|Hne].
           ++ by rewrite lookup_insert_eq in Hnew.
           ++ by rewrite lookup_insert_ne in Hnew.
      * intros [[Hnotin Hnd] Hnew]. split; [done|]. intros h Hin.
        rewrite lookup_insert_ne by (intros ->; done). apply Hnew. by right.
Qed.

Lemma seedHits_values (hits : list N) :
  forall (m : gmap N bool) (h : N) (b : bool),
    (seedHits hits m).2 !! h = Some b -> m !! h = Some b \/ b = false.
Proof.
  induction hits as [|a l IH]; intros m h b; simpl; [by left|].
  destruct (m !! a) as [b'|] eqn:Ha; simpl; [by left|].
  intros Hlookup. destruct (IH _ _ _ Hlookup) as [Hold|]; [|by right].
  destruct (decide (a = h)) as [->|Hne].
  - rewrite lookup_insert_eq in Hold. right. congruence.
  - rewrite lookup_insert_ne in Hold by done. by left.
Qed.

Lemma seedLayers_true_iff (orderedCaloHitList : list (Z * list N)) :
  forall m : gmap N bool,
    (seedLayers orderedCaloHitList m).1 = true
    <-> NoDup (allHits orderedCaloHitList)
        /\ forall h, h ∈ allHits orderedCaloHitList -> m !! h = None.
Proof.
  unfold allHits.
  induction orderedCaloHitList as [|[layer hits] layers IH]; intros m; simpl.
  - split; [|done]. intros _. split; [constructor|]. intros h Hin. by apply elem_of_nil in Hin.
  - pose proof (seedHits_true_iff hits m) as Hhits.
    destruct (seedHits hits m) as [ok m'] eqn:Hseed. simpl in Hhits.
    rewrite NoDup_app. destruct ok.
    + destruct (proj1 Hhits eq_refl) as [Hnd Hnew].
      rewrite (seedHits_ok hits m Hnd Hnew) in Hseed. injection Hseed as <-.
      rewrite IH. split.
      * intros [Hrest Hfresh]. split; [split; [done|split; [|done]]|].
        -- intros h Hin Hin'. specialize (Hfresh h Hin').
           rewrite seedMap_lookup in Hfresh. by rewrite decide_True in Hfresh.
        -- intros h Hin. apply elem_of_app in Hin as [Hin|Hin]; [by apply Hnew|].
           specialize (Hfresh h Hin). rewrite seedMap_lookup in Hfresh.
           by destruct (decide (h ∈ hits)).
      * intros [(_ & Hdisj & Hrest) Hfresh]. split; [done|]. intros h Hin.
        rewrite seedMap_lookup. rewrite decide_False.
        -- apply Hfresh, elem_of_app. by right.
        -- intros Hin'. by apply (Hdisj h).
    + simpl. split; [done|]. intros [(Hnd & _ & _) Hfresh].
      assert (false = true); [|done]. apply Hhits. split; [done|].
      intros h Hin. apply Hfresh, elem_of_app. by left.
Qed.

Lemma seedLayers_values (orderedCaloHitList : list (Z * list N)) :
  forall (m : gmap N bool) (h : N) (b : bool),
    (seedLayers orderedCaloHitList m).2 !! h = Some b -> m !! h = Some b \/ b = false.
Proof.
  induction orderedCaloHitList as [|[layer hits] layers IH]; intros m h b; simpl;
    [by left|].
  pose proof (seedHits_values hits m h b) as Hhits.
  destruct (seedHits hits m) as [[] m']; simpl in *; [|done].
  intros Hlookup. destruct (IH _ _ _ Hlookup) as [Hold|]; [by apply Hhits|by right].
Qed.

(** X5: [CreateInitialCaloHitUsageMap] always returns; it returns success
    exactly when the name is not registered yet and no hit occurs twice in
    the ordered calo hit list, and [STATUS_CODE_FAILURE] otherwise. *)
Theorem CreateInitialCaloHitUsageMap_status (s : Manager) (usageMapName : string)
  (orderedCaloHitList : list (Z * list N)) :
  exists rc s',
    CreateInitialCaloHitUsageMap s usageMapName orderedCaloHitList = Some (rc, s')
    /\ (rc = STATUS_CODE_SUCCESS
        <-> m_nameToCaloHitUsageMap s !! usageMapName = None
            /\ NoDup (allHits orderedCaloHitList))
    /\ (rc <> STATUS_CODE_SUCCESS -> rc = STATUS_CODE_FAILURE).
Proof.
  unfold CreateInitialCaloHitUsageMap.
  destruct (m_nameToCaloHitUsageMap s !! usageMapName) as [p|] eqn:Hname.
  { eexists _, _. split; [reflexivity|]. split; [|done]. split; [done|]. by intros [? _]. }
  pose proof (seedLayers_true_iff orderedCaloHitList ∅) as Hseed.
  destruct (seedLayers orderedCaloHitList ∅) as [[] m]; simpl in Hseed;
    eexists _, _; (split; [reflexivity|]); (split; [|done]).
  - split; [|done]. intros _. split; [done|]. by apply Hseed.
  - split; [done|]. intros [_ Hnd]. assert (false = true); [|done].
    apply Hseed. split; [done|]. intros h _. apply lookup_empty.
Qed.

(** X6: right after a successful [CreateInitialCaloHitUsageMap], with the
    counter below its largest value, every hit reads as unavailable. *)
Theorem CreateInitialCaloHitUsageMap_then_IsCaloHitAvailable (mem : N -> CaloHit)
  (s s' : Manager) (usageMapName : string) (orderedCaloHitList : list (Z * list N))
  (pCaloHit : N) :
  0 <= m_nReclusteringProcesses s ->
  m_nReclusteringProcesses s + 1 < 2 ^ 32 ->
  CreateInitialCaloHitUsageMap s usageMapName orderedCaloHitList
  = Some (STATUS_CODE_SUCCESS, s') ->
  IsCaloHitAvailable mem s' pCaloHit = Some false.
Proof.
  intros Hpos Hlt. unfold CreateInitialCaloHitUsageMap.
  destruct (m_nameToCaloHitUsageMap s !! usageMapName); [done|].
  pose proof (seedLayers_values orderedCaloHitList ∅ pCaloHit) as Hvalues.
  destruct (seedLayers orderedCaloHitList ∅) as [[] m]; [|done]. simpl in Hvalues.
  intros [= <-]. unfold IsCaloHitAvailable. simpl.
  unfold wrap32. rewrite Z.mod_small by lia. rewrite decide_False by lia.
  rewrite lookup_insert_eq. simpl. f_equal. unfold lookupAvailable.
  destruct (m !! pCaloHit) as [b|] eqn:Hb; [|done].
  destruct (Hvalues b eq_refl) as [Hempty| ->]; [|done]. by rewrite lookup_empty in Hempty.
Qed.

(** X7: right after a successful [CreateAdditionalCaloHitUsageMap] a hit
    reads as available exactly when it is a key of the usage map that was
    current before the call, whatever value it had there. *)
Theorem CreateAdditionalCaloHitUsageMap_then_IsCaloHitAvailable (mem : N -> CaloHit)
  (s s' : Manager) (usageMapName : string) (current : gmap N bool) (pCaloHit : N) :
  usageMapHeap s !! m_pCurrentUsageMap s = Some current ->
  CreateAdditionalCaloHitUsageMap s usageMapName = Some (STATUS_CODE_SUCCESS, s') ->
  IsCaloHitAvailable mem s' pCaloHit = Some (bool_decide (is_Some (current !! pCaloHit))).
Proof.
  intros Hcur. unfold CreateAdditionalCaloHitUsageMap.
  destruct (decide (0 = m_nReclusteringProcesses s)) as [|Hopen]; [done|].
  rewrite Hcur. simpl.
  destruct (m_nameToCaloHitUsageMap s !! usageMapName); [done|].
  destruct (pushNameOnBack (m_nestedUsageMapNames s) usageMapName); [|done].
  simpl. intros [= <-]. unfold IsCaloHitAvailable. simpl.
  rewrite decide_False by done. rewrite lookup_insert_eq. simpl. f_equal.
  unfold lookupAvailable. rewrite lookup_fmap.
  by destruct (current !! pCaloHit).
Qed.

(** ** Creating an initial usage map and applying it at once *)

Lemma invariant_closed_registry (s : Manager) :
  ManagerInvariant s -> m_nReclusteringProcesses s = 0 ->
  m_nameToCaloHitUsageMap s = ∅.
Proof.
  intros (Hlen & _ & _ & Hdom & _) Hzero. apply dom_empty_inv_L. rewrite Hdom.
  destruct (m_nestedUsageMapNames s); [done|]. simpl in Hlen. lia.
Qed.

(** X8: with no reclustering process open, a successful
    [CreateInitialCaloHitUsageMap] followed by [ApplyCaloHitUsageMap] of the
    same name succeeds, marks every hit of the ordered calo hit list as
    unavailable, leaves the other hits alone, and ends with no usage map
    registered, none live that was not live before, and the counter at 0. *)
Theorem CreateInitial_then_Apply (mem : N -> CaloHit) (s : Manager)
  (usageMapName : string) (orderedCaloHitList : list (Z * list N)) :
  ManagerInvariant s ->
  m_nReclusteringProcesses s = 0 ->
  NoDup (allHits orderedCaloHitList) ->
  exists (s1 : Manager) (mem' : N -> CaloHit),
    CreateInitialCaloHitUsageMap s usageMapName orderedCaloHitList
    = Some (STATUS_CODE_SUCCESS, s1)
    /\ ApplyCaloHitUsageMap mem s1 usageMapName
       = Some (STATUS_CODE_SUCCESS, mem', mkManager 0 NULL [] [] ∅ (usageMapHeap s))
    /\ (forall h, h ∈ allHits orderedCaloHitList ->
                  m_isAvailable (mem' h) = false
                  /\ mem' h = set_isAvailable false (mem h))
    /\ (forall h, h ∉ allHits orderedCaloHitList -> mem' h = mem h).
Proof.
  intros Hinv Hzero Hnd.
  pose proof (invariant_closed_registry s Hinv Hzero) as Hreg.
  assert (Hname : m_nameToCaloHitUsageMap s !! usageMapName = None).
  { rewrite Hreg. apply lookup_empty. }
  destruct (newAddress_fresh (usageMapHeap s)) as [Hnull Hfresh].
  set (seed := seedMap (allHits orderedCaloHitList) ∅).
  exists (initialisedManager s usageMapName orderedCaloHitList),
         (writeBack (usageMapEntries seed) mem).
  split; [apply CreateInitialCaloHitUsageMap_run; (lia || done)|].
  split; [|split].
  - rewrite (ApplyCaloHitUsageMap_last_run mem _ usageMapName
               (newAddress (usageMapHeap s)) seed).
    + unfold clearedManager, initialisedManager. simpl. rewrite Hreg.
      rewrite insert_empty, map_to_list_singleton. simpl.
      unfold freeMaps. simpl. by rewrite delete_insert_id.
    + apply ManagerInvariant_initialised; (lia || done).
    + simpl. lia.
    + apply lookup_insert_eq.
    + apply lookup_insert_eq.
  - intros h Hin.
    assert (Hwritten : writeBack (usageMapEntries seed) mem h
                       = set_isAvailable false (mem h)).
    { apply writeBack_in; [apply NoDup_usageMapEntries|].
      apply elem_of_usageMapEntries. unfold seed. rewrite seedMap_lookup.
      by rewrite decide_True. }
    split; [|exact Hwritten]. rewrite Hwritten. reflexivity.
  - intros h Hnotin. apply writeBack_notin. rewrite elem_of_usageMapEntries_keys.
    unfold seed. rewrite seedMap_lookup, decide_False by done.
    rewrite lookup_empty. by intros [? ?].
Qed.

(** ** A nested usage map applied untouched *)

Lemma overwrite_seed_is_setEntries (hits : list N) (current : gmap N bool) :
  overwriteEntries (usageMapEntries (seedMap hits ∅)) current
  = setEntries hits false current.
Proof.
  apply map_eq. intros h. destruct (decide (h ∈ hits)) as [Hin|Hnotin].
  - rewrite setEntries_lookup_in by done.
    apply overwriteEntries_in; [apply NoDup_usageMapEntries|].
    apply elem_of_usageMapEntries. rewrite seedMap_lookup. by rewrite decide_True.
  - rewrite setEntries_lookup_notin by done.
    apply overwriteEntries_notin. rewrite elem_of_usageMapEntries_keys.
    rewrite seedMap_lookup, decide_False by done. rewrite lookup_empty. by intros [? ?].
Qed.

(** X9: with a reclustering process open, creating an initial usage map on
    hits that are all keys of the current usage map and applying it at once
    comes to the same as setting those hits unavailable in the current usage
    map: the same status, the same hits and the same state. *)
Theorem nested_CreateInitial_then_Apply (mem : N -> CaloHit) (s : Manager)
  (usageMapName : string) (orderedCaloHitList : list (Z * list N))
  (current : gmap N bool) :
  ManagerInvariant s ->
  1 <= m_nReclusteringProcesses s ->
  m_nReclusteringProcesses s + 1 < 2 ^ 32 ->
  m_nameToCaloHitUsageMap s !! usageMapName = None ->
  usageMapHeap s !! m_pCurrentUsageMap s = Some current ->
  NoDup (allHits orderedCaloHitList) ->
  Forall (fun h => is_Some (current !! h)) (allHits orderedCaloHitList) ->
  exists s1,
    CreateInitialCaloHitUsageMap s usageMapName orderedCaloHitList
    = Some (STATUS_CODE_SUCCESS, s1)
    /\ ApplyCaloHitUsageMap mem s1 usageMapName
       = SetCaloHitAvailabilityList mem s (allHits orderedCaloHitList) false
    /\ exists s', ApplyCaloHitUsageMap mem s1 usageMapName
                  = Some (STATUS_CODE_SUCCESS, mem, s').
Proof.
  intros Hinv Hopen Hlt Hname Hcur Hnd Hkeys.
  destruct (newAddress_fresh (usageMapHeap s)) as [Hnull Hfresh].
  destruct (invariant_levels s Hinv Hopen) as (levels & back & Hlevels).
  set (p := newAddress (usageMapHeap s)).
  set (seed := seedMap (allHits orderedCaloHitList) ∅).
  assert (Hpcur : p <> m_pCurrentUsageMap s).
  { intros Heq. unfold p in Heq. rewrite Heq in Hfresh. congruence. }
  set (s1 := initialisedManager s usageMapName orderedCaloHitList).
  assert (Hset : SetCaloHitAvailabilityList mem s (allHits orderedCaloHitList) false
                 = Some (STATUS_CODE_SUCCESS, mem,
                         withHeap s (<[m_pCurrentUsageMap s :=
                                        setEntries (allHits orderedCaloHitList) false current]>
                                       (usageMapHeap s)))).
  { unfold SetCaloHitAvailabilityList. rewrite decide_False by lia.
    rewrite <- (app_nil_r (allHits orderedCaloHitList)) at 1.
    by rewrite (SetCaloHitAvailability_loop_app _ [] false s current Hcur Hkeys). }
  assert (Happly : ApplyCaloHitUsageMap mem s1 usageMapName
                   = Some (STATUS_CODE_SUCCESS, mem,
                           withHeap s (<[m_pCurrentUsageMap s :=
                                          setEntries (allHits orderedCaloHitList) false current]>
                                         (usageMapHeap s)))).
  { rewrite (ApplyCaloHitUsageMap_nested_run mem s1 usageMapName p seed
               (m_pCurrentUsageMap s) current (m_nestedUsageMapNames s) [usageMapName]).
    - f_equal. f_equal. unfold mergedManager, withHeap, s1, initialisedManager. simpl.
      rewrite decide_True by lia. rewrite removelast_last.
      rewrite lookup_insert_eq. simpl. unfold eraseNames, freeMaps. simpl.
      rewrite delete_insert_id by done.
      rewrite (insert_insert_ne _ (m_pCurrentUsageMap s) p) by done.
      rewrite delete_insert_id by (by rewrite lookup_insert_ne).
      fold p seed. unfold seed. rewrite overwrite_seed_is_setEntries.
      f_equal. lia.
    - apply ManagerInvariant_initialised; (lia || done).
    - unfold s1. simpl. lia.
    - apply lookup_insert_eq.
    - apply lookup_insert_eq.
    - unfold s1. simpl. rewrite decide_True by lia. apply last_snoc.
    - unfold s1. simpl. by rewrite lookup_insert_ne.
    - reflexivity.
    - intros hit [b Hb]. unfold seed in Hb. rewrite seedMap_lookup in Hb.
      destruct (decide (hit ∈ allHits orderedCaloHitList)) as [Hin|]; [|by rewrite lookup_empty in Hb].
      rewrite Forall_forall in Hkeys. by apply Hkeys. }
  exists s1. split; [apply CreateInitialCaloHitUsageMap_run; (lia || done)|].
  split; [by rewrite Happly, Hset|eauto].
Qed.

(** ** A sibling under a name that is taken *)

Lemma invariant_parents_live (s : Manager) (q : N) :
  ManagerInvariant s -> q ∈ m_parentCaloHitUsageMaps s ->
  is_Some (usageMapHeap s !! q).
Proof.
  intros Hinv Hin. pose proof Hinv as (_ & _ & _ & _ & _ & _ & Hparents & _).
  apply list_elem_of_lookup in Hin as [i Hi].
  destruct (Forall2_lookup_l _ _ _ _ _ Hparents Hi) as (level & _ & Hreg).
  apply Exists_exists in Hreg as (name & _ & Hname).
  by apply (invariant_registry_live s name).
Qed.

(** X10: with a reclustering process open, [CreateAdditionalCaloHitUsageMap]
    called with a name that is already registered returns
    [STATUS_CODE_FAILURE] and leaves the counter, the current usage map, the
    parents, the nested names and the registry as they were; but the copy of
    the current usage map it made stays allocated, at an address that
    neither the current pointer nor a parent nor the registry holds. *)
Theorem CreateAdditionalCaloHitUsageMap_name_taken (s : Manager)
  (usageMapName : string) (current : gmap N bool) :
  ManagerInvariant s ->
  1 <= m_nReclusteringProcesses s ->
  usageMapHeap s !! m_pCurrentUsageMap s = Some current ->
  is_Some (m_nameToCaloHitUsageMap s !! usageMapName) ->
  exists p,
    CreateAdditionalCaloHitUsageMap s usageMapName
    = Some (STATUS_CODE_FAILURE, withHeap s (<[p := current]> (usageMapHeap s)))
    /\ usageMapHeap s !! p = None
    /\ p <> m_pCurrentUsageMap s
    /\ (p ∉ m_parentCaloHitUsageMaps s)
    /\ (forall name, m_nameToCaloHitUsageMap s !! name <> Some p)
    /\ ManagerInvariant (withHeap s (<[p := current]> (usageMapHeap s))).
Proof.
  intros Hinv Hopen Hcur [q Hname].
  destruct (newAddress_fresh (usageMapHeap s)) as [Hnull Hfresh].
  exists (newAddress (usageMapHeap s)). split.
  { unfold CreateAdditionalCaloHitUsageMap. rewrite decide_False by lia.
    rewrite Hcur. simpl. by rewrite Hname. }
  split; [done|]. split; [intros Heq; rewrite Heq in Hfresh; congruence|].
  split.
  { intros Hin. destruct (invariant_parents_live s _ Hinv Hin) as [? ?]. congruence. }
  split.
  { intros name Hp. destruct (invariant_registry_live s name _ Hinv Hp) as [_ [? ?]].
    congruence. }
  apply ManagerInvariant_withHeap; [done|]. intros p' Hlive.
  destruct (decide (newAddress (usageMapHeap s) = p')) as [<-|Hne].
  - rewrite lookup_insert_eq. eauto.
  - by rewrite lookup_insert_ne.
Qed.

(** ** A failed merge *)

Lemma mergeIntoCurrent_status (entries : list (N * bool)) (pCurrent : N) :
  forall heap rc heap',
    mergeIntoCurrent entries pCurrent heap = Some (rc, heap') ->
    rc = STATUS_CODE_SUCCESS \/ rc = STATUS_CODE_FAILURE.
Proof.
  induction entries as [|[h v] entries IH]; intros heap rc heap'; simpl.
  - intros [= <- _]. by left.
  - destruct (heap !! pCurrent) as [current|]; [|done]. simpl.
    destruct (current !! h); [apply IH|]. intros [= <- _]. by right.
Qed.

Lemma clearNames_status (names : list string) :
  forall registry heap rc registry' heap',
    clearNames names registry heap = Some (rc, registry', heap') ->
    rc = STATUS_CODE_SUCCESS \/ rc = STATUS_CODE_NOT_FOUND.
Proof.
  induction names as [|name names IH]; intros registry heap rc registry' heap'; simpl.
  - intros [= <- _ _]. by left.
  - destruct (registry !! name) as [p|]; [|intros [= <- _ _]; by right].
    destruct (deleteMap p heap) as [heap1|]; [|done]. simpl. apply IH.
Qed.

(** X11: when [ApplyCaloHitUsageMap] returns [STATUS_CODE_FAILURE] on a state
    that meets the invariant, at least two reclustering processes were open,
    no hit has been written to, and the call has stopped half way: the
    counter is one less and the last parent has been taken off the vector of
    parents and made current, but the registry and the nested names are as
    before, so that the state no longer meets the invariant. *)
Theorem ApplyCaloHitUsageMap_failure_state (mem mem' : N -> CaloHit) (s s' : Manager)
  (usageMapName : string) :
  ManagerInvariant s ->
  ApplyCaloHitUsageMap mem s usageMapName = Some (STATUS_CODE_FAILURE, mem', s') ->
  mem' = mem
  /\ 2 <= m_nReclusteringProcesses s
  /\ m_nReclusteringProcesses s' = m_nReclusteringProcesses s - 1
  /\ last (m_parentCaloHitUsageMaps s) = Some (m_pCurrentUsageMap s')
  /\ m_parentCaloHitUsageMaps s' = removelast (m_parentCaloHitUsageMaps s)
  /\ m_nameToCaloHitUsageMap s' = m_nameToCaloHitUsageMap s
  /\ m_nestedUsageMapNames s' = m_nestedUsageMapNames s
  /\ ~ ManagerInvariant s'.
Proof.
  intros Hinv. pose proof Hinv as (Hlen & Hlt & _).
  unfold ApplyCaloHitUsageMap.
  destruct (decide (0 = m_nReclusteringProcesses s)) as [|Hopen]; [done|].
  destruct (m_nameToCaloHitUsageMap s !! usageMapName) as [pUsageMap|]; [|done].
  destruct (decide (1 = m_nReclusteringProcesses s)) as [Hone|Hmore].
  { destruct (usageMapHeap s !! pUsageMap); [|done]. simpl.
    unfold ClearCaloHitUsageMaps. simpl.
    destruct (deleteMaps _ _); [|done]. simpl. done. }
  destruct (last (m_parentCaloHitUsageMaps s)) as [pParent|] eqn:Hlast; [|done]. simpl.
  destruct (usageMapHeap s !! pUsageMap) as [usageMap|]; [|done]. simpl.
  destruct (mergeIntoCurrent _ _ _) as [[rc heap]|] eqn:Hmerge; [|done]. simpl.
  destruct (mergeIntoCurrent_status _ _ _ _ _ Hmerge) as [-> | ->]; simpl.
  - unfold ClearMostRecentCaloHitUsageMaps. simpl.
    destruct (last (m_nestedUsageMapNames s)) as [names|]; [|done]. simpl.
    destruct (clearNames _ _ _) as [[[rc registry] heap1]|] eqn:Hclear; [|done]. simpl.
    destruct (clearNames_status _ _ _ _ _ _ Hclear) as [-> | ->]; simpl; done.
  - intros [= <- <-]. simpl.
    assert (Hwrap : wrap32 (m_nReclusteringProcesses s - 1) = m_nReclusteringProcesses s - 1).
    { unfold wrap32. apply Z.mod_small. lia. }
    split; [done|]. split; [lia|]. split; [done|]. split; [done|].
    split; [done|]. split; [done|]. split; [done|].
    intros (Hlen' & _). simpl in Hlen'. lia.
Qed.

(** ** The invariant along a sequence of successful calls *)

Lemma ApplyCaloHitUsageMap_success_state (mem mem' : N -> CaloHit) (s s' : Manager)
  (usageMapName : string) :
  ManagerInvariant s ->
  ApplyCaloHitUsageMap mem s usageMapName = Some (STATUS_CODE_SUCCESS, mem', s') ->
  ManagerInvariant s' /\ m_nReclusteringProcesses s' < m_nReclusteringProcesses s.
Proof.
  intros Hinv Hrun.
  assert (Hpos : 0 <= m_nReclusteringProcesses s).
  { destruct Hinv as [Hlen _]. lia. }
  destruct (decide (0 = m_nReclusteringProcesses s)) as [Hzero|Hopen].
  { unfold ApplyCaloHitUsageMap in Hrun. by rewrite decide_True in Hrun. }
  destruct (m_nameToCaloHitUsageMap s !! usageMapName) as [pUsageMap|] eqn:Hname.
  2:{ unfold ApplyCaloHitUsageMap in Hrun. rewrite decide_False in Hrun by done.
      by rewrite Hname in Hrun. }
  destruct (invariant_registry_live s usageMapName pUsageMap Hinv Hname)
    as [_ [usageMap Hmap]].
  destruct (decide (m_nReclusteringProcesses s = 1)) as [Hone|Hmore].
  - rewrite (ApplyCaloHitUsageMap_last_run mem s usageMapName pUsageMap usageMap)
      in Hrun by done.
    injection Hrun as _ <-. split; [apply ManagerInvariant_cleared|]. simpl. lia.
  - destruct (invariant_parent s Hinv) as (pParent & parent & levels & back
                                          & Hlast & Hparent & Hlevels); [lia|].
    destruct (decide (Forall (fun e : N * bool => is_Some (parent !! e.1))
                             (usageMapEntries usageMap))) as [Hkeys|Hmissing].
    + rewrite (ApplyCaloHitUsageMap_nested_run mem s usageMapName pUsageMap usageMap
                 pParent parent levels back) in Hrun; try done; [|lia|].
      * injection Hrun as _ <-. split; [apply ManagerInvariant_merged; (lia || done)|].
        simpl. lia.
      * intros hit [value Hv]. rewrite Forall_forall in Hkeys.
        apply (Hkeys (hit, value)). by apply elem_of_usageMapEntries.
    + destruct (ApplyCaloHitUsageMap_nested_fail mem s usageMapName pUsageMap usageMap
                  pParent parent) as [s'' Hfail]; try done.
      * apply not_Forall_Exists in Hmissing; [|apply _].
        apply Exists_exists in Hmissing as ([hit value] & Hin & Hnot). simpl in Hnot.
        exists hit. apply elem_of_usageMapEntries in Hin. split; [eauto|].
        by apply eq_None_not_Some.
      * rewrite Hfail in Hrun. done.
Qed.

Lemma runCall_success_state (c : Call) (mem mem' : N -> CaloHit) (s s' : Manager) :
  ManagerInvariant s ->
  m_nReclusteringProcesses s + 1 < 2 ^ 32 ->
  runCall c mem s = Some (STATUS_CODE_SUCCESS, mem', s') ->
  ManagerInvariant s' /\ m_nReclusteringProcesses s' <= m_nReclusteringProcesses s + 1.
Proof.
  intros Hinv Hlt. assert (Hpos : 0 <= m_nReclusteringProcesses s).
  { destruct Hinv as [Hlen _]. lia. }
  destruct c as [name ol|name|name|h v|l v]; simpl.
  - destruct (CreateInitialCaloHitUsageMap_outcomes s name ol)
      as [[s1 Hs]|(s1 & Hs & Hkeep)]; rewrite Hs; simpl; [done|].
    intros [= <- <-]. split; [by apply Hkeep|].
    unfold CreateInitialCaloHitUsageMap in Hs.
    destruct (m_nameToCaloHitUsageMap s !! name); [done|].
    destruct (seedLayers ol ∅) as [[] m]; [|done]. injection Hs as <-. simpl.
    unfold wrap32. rewrite Z.mod_small by lia. lia.
  - destruct (CreateAdditionalCaloHitUsageMap_outcomes s name Hinv)
      as [[_ Hs]|[(_ & heap & Hs)|(s1 & Hs & Hkeep)]]; rewrite Hs; simpl; [done..|].
    intros [= <- <-]. split; [done|].
    unfold CreateAdditionalCaloHitUsageMap in Hs.
    destruct (decide (0 = m_nReclusteringProcesses s)); [done|].
    destruct (usageMapHeap s !! m_pCurrentUsageMap s); [|done]. simpl in Hs.
    destruct (m_nameToCaloHitUsageMap s !! name); [done|].
    destruct (pushNameOnBack _ _); [|done]. simpl in Hs. injection Hs as <-. simpl. lia.
  - intros Hrun. destruct (ApplyCaloHitUsageMap_success_state _ _ _ _ _ Hinv Hrun).
    split; [done|lia].
  - intros Hrun. split; [by eapply SetCaloHitAvailability_invariant|].
    unfold SetCaloHitAvailability in Hrun.
    destruct (decide (0 = m_nReclusteringProcesses s)); [injection Hrun as _ <-; lia|].
    destruct (usageMapHeap s !! m_pCurrentUsageMap s) as [m|]; [|done]. simpl in Hrun.
    destruct (m !! h); [|done]. injection Hrun as _ <-. simpl. lia.
  - unfold SetCaloHitAvailabilityList.
    destruct (decide (0 = m_nReclusteringProcesses s)); [intros [= _ <-]; split; [done|lia]|].
    destruct (SetCaloHitAvailability_loop s l v) as [[rc s1]|] eqn:Hloop; [|done].
    simpl. intros [= -> _ <-].
    destruct (SetCaloHitAvailability_loop_success _ _ _ _ Hloop)
      as [[_ ->]|(current & Hcur & _ & ->)]; [split; [done|lia]|].
    split; [|simpl; lia]. apply ManagerInvariant_withHeap; [done|]. intros p Hlive.
    destruct (decide (m_pCurrentUsageMap s = p)) as [<-|Hne].
    + rewrite lookup_insert_eq. eauto.
    + by rewrite lookup_insert_ne.
Qed.

(** X12: from a state that meets the invariant, any sequence of calls of
    the helper that all return success, too short for the counter to
    overflow, ends in a state that meets the invariant. *)
Theorem runSuccessfulCalls_invariant (cs : list Call) (mem mem' : N -> CaloHit)
  (s s' : Manager) :
  ManagerInvariant s ->
  m_nReclusteringProcesses s + Z.of_nat (length cs) < 2 ^ 32 ->
  runSuccessfulCalls cs mem s = Some (mem', s') ->
  ManagerInvariant s'.
Proof.
  revert mem s. induction cs as [|c cs IH]; intros mem s Hinv Hlt; simpl.
  - by intros [= _ <-].
  - destruct (runCall c mem s) as [[[rc mem1] s1]|] eqn:Hcall; [|done]. simpl.
    destruct (decide (rc = STATUS_CODE_SUCCESS)) as [->|]; [|done].
    simpl in Hlt.
    destruct (runCall_success_state c mem mem1 s s1 Hinv) as [Hinv1 Hdepth];
      [lia|done|].
    apply IH; [done|lia].
Qed.

(** ** Density weight: the hits that take part *)

(** X13: the hit itself and the hits farther away than the maximum
    separation take no part in [GetDensityWeightContribution]: it returns, or
    throws, what it does on the list without them; on a list with no other
    hit within the maximum separation it returns zero. *)
Theorem GetDensityWeightContribution_filter (settings : PandoraSettings)
  (mem : N -> CaloHit) (pCaloHit : N) (pCaloHitList : list N) :
  GetDensityWeightContribution settings mem pCaloHit pCaloHitList
  = GetDensityWeightContribution settings mem pCaloHit
      (filter (contributes settings mem pCaloHit) pCaloHitList)
  /\ (filter (contributes settings mem pCaloHit) pCaloHitList = [] ->
      GetDensityWeightContribution settings mem pCaloHit pCaloHitList
      = inr (Float32.of_Z 0)).
Proof.
  assert (Hfilter : GetDensityWeightContribution settings mem pCaloHit pCaloHitList
                    = GetDensityWeightContribution settings mem pCaloHit
                        (filter (contributes settings mem pCaloHit) pCaloHitList)).
  { unfold GetDensityWeightContribution. generalize (Float32.of_Z 0).
    induction pCaloHitList as [|iter l IH]; intros acc; [done|].
    destruct (decide (contributes settings mem pCaloHit iter)) as [[Hne Hnear]|Hnot].
    - rewrite filter_cons_True by done. simpl.
      destruct (decide (pCaloHit = iter)) as [|_]; [done|]. rewrite Hnear.
      destruct (Float32.eqb _ _); [done|]. apply IH.
    - rewrite filter_cons_False by done. simpl.
      destruct (decide (pCaloHit = iter)) as [Heq|Hne]; [apply IH|].
      destruct (Float32.gtb _ _) eqn:Hfar; [apply IH|].
      destruct Hnot. by split. }
  split; [exact Hfilter|]. intros Hnone. by rewrite Hfilter, Hnone.
Qed.

(** ** Density weight: signs *)

Lemma signClear_mul (x y : spec_float) :
  signClear x = true -> signClear y = true -> signClear (Float32.mul x y) = true.
Proof.
  destruct x as [sx|sx| |sx mx ex], y as [sy|sy| |sy my ey]; simpl; intros Hx Hy;
    try done; try (apply negb_true_iff in Hx, Hy; by subst).
  apply negb_true_iff in Hx, Hy. subst.
  pose proof (binary_round_aux_sign Float32.prec Float32.emax (xorb false false)
                (Z.pos (mx * my)) (ex + ey) loc_Exact) as Hsign.
  unfold Float32.mul, SFmul.
  change (IntDef.Z.add ex ey) with (ex + ey) in *.
  change (PosDef.Pos.mul mx my) with (mx * my)%positive in *.
  destruct (binary_round_aux _ _ _ _ _ _); simpl; try done; by subst.
Qed.

Lemma signClear_square (x : spec_float) : signClear (Float32.mul x x) = true.
Proof.
  destruct x as [s|s| |s m e]; try (by destruct s); try done.
  pose proof (binary_round_aux_sign Float32.prec Float32.emax (xorb s s)
                (Z.pos (m * m)) (e + e) loc_Exact) as Hsign.
  unfold Float32.mul, SFmul.
  change (IntDef.Z.add e e) with (e + e) in *.
  change (PosDef.Pos.mul m m) with (m * m)%positive in *.
  destruct (binary_round_aux _ _ _ _ _ _); simpl; try done; subst; by destruct s.
Qed.

Lemma signClear_binary_round (m : positive) (e : Z) :
  signClear (binary_round Float32.prec Float32.emax false m e) = true.
Proof.
  unfold binary_round. destruct (shl_align _ _ _) as [mz ez].
  pose proof (binary_round_aux_sign Float32.prec Float32.emax false (Z.pos mz) ez loc_Exact)
    as Hsign.
  destruct (binary_round_aux _ _ _ _ _ _); simpl; try done; by subst.
Qed.

Lemma signClear_add (x y : spec_float) :
  signClear x = true -> signClear y = true -> signClear (Float32.add x y) = true.
Proof.
  destruct x as [sx|sx| |sx mx ex], y as [sy|sy| |sy my ey]; simpl; intros Hx Hy;
    try done; try (apply negb_true_iff in Hx, Hy; by subst).
  apply negb_true_iff in Hx, Hy. subst.
  unfold Float32.add, SFadd. simpl. apply signClear_binary_round.
Qed.

Lemma signClear_div (x y : spec_float) :
  signClear x = true -> signClear y = true -> signClear (Float32.div x y) = true.
Proof.
  destruct x as [sx|sx| |sx mx ex], y as [sy|sy| |sy my ey]; simpl; intros Hx Hy;
    try done; try (apply negb_true_iff in Hx, Hy; by subst).
  apply negb_true_iff in Hx, Hy. subst.
  unfold Float32.div, SFdiv.
  destruct (SFdiv_core_binary _ _ _ _ _ _) as [[mz ez] lz].
  pose proof (binary_round_aux_sign Float32.prec Float32.emax (xorb false false) mz ez lz)
    as Hsign.
  destruct (binary_round_aux _ _ _ _ _ _); simpl; try done; by subst.
Qed.

Lemma signClear_sqrt (x : spec_float) :
  signClear x = true -> signClear (Float32.sqrt x) = true.
Proof.
  destruct x as [s|s| |s m e]; simpl; intros Hx; try done;
    apply negb_true_iff in Hx; subst; try done.
  unfold Float32.sqrt, SFsqrt.
  destruct (SFsqrt_core_binary _ _ _ _) as [[mz ez] lz].
  pose proof (binary_round_aux_sign Float32.prec Float32.emax false mz ez lz) as Hsign.
  destruct (binary_round_aux _ _ _ _ _ _); simpl; try done; by subst.
Qed.

Lemma signClear_not_below_zero (x : spec_float) :
  signClear x = true -> Float32.ltb x (Float32.of_Z 0) = false.
Proof. destruct x as [s|s| |s m e]; simpl; intros Hx; try done;
         apply negb_true_iff in Hx; by subst. Qed.

Lemma signClear_GetMagnitudeSquared (v : CartesianVector) :
  signClear (CartesianVector.GetMagnitudeSquared v) = true.
Proof.
  unfold CartesianVector.GetMagnitudeSquared.
  repeat apply signClear_add; apply signClear_square.
Qed.

Lemma signClear_GetMagnitude (v : CartesianVector) :
  signClear (CartesianVector.GetMagnitude v) = true.
Proof. apply signClear_sqrt, signClear_GetMagnitudeSquared. Qed.

Lemma signClear_powerOfR (densityWeightPower : N) (r : spec_float) :
  signClear r = true -> signClear (powerOfR densityWeightPower r) = true.
Proof.
  intros Hr. unfold powerOfR.
  induction densityWeightPower as [|n IH] using N.peano_ind; [done|].
  rewrite N.iter_succ. by apply signClear_mul.
Qed.

Lemma GetDensityWeightContribution_loop_cons (caloHitMaxSeparationSquared : spec_float)
  (densityWeightPower : N) (mem : N -> CaloHit) (pCaloHit : N)
  (positionVector : CartesianVector) (positionMagnitude : spec_float)
  (iter : N) (l : list N) (acc : spec_float) :
  GetDensityWeightContribution_loop caloHitMaxSeparationSquared densityWeightPower mem
    pCaloHit positionVector positionMagnitude (iter :: l) acc
  = if decide (pCaloHit = iter) then
      GetDensityWeightContribution_loop caloHitMaxSeparationSquared densityWeightPower
        mem pCaloHit positionVector positionMagnitude l acc
    else
      let positionDifference :=
        CartesianVector.minus positionVector (m_positionVector (mem iter)) in
      if Float32.gtb (CartesianVector.GetMagnitudeSquared positionDifference)
                     caloHitMaxSeparationSquared then
        GetDensityWeightContribution_loop caloHitMaxSeparationSquared densityWeightPower
          mem pCaloHit positionVector positionMagnitude l acc
      else
        let r := Float32.div
                   (CartesianVector.GetMagnitude
                      (CartesianVector.GetCrossProduct positionVector positionDifference))
                   positionMagnitude in
        let rN := powerOfR densityWeightPower r in
        if Float32.eqb (Float32.of_Z 0) rN then inl STATUS_CODE_FAILURE
        else
          GetDensityWeightContribution_loop caloHitMaxSeparationSquared densityWeightPower
            mem pCaloHit positionVector positionMagnitude l
            (Float32.add acc (Float32.div (Float32.of_Z 100) rN)).
Proof. reflexivity. Qed.

(** X14: a value that [GetDensityWeightContribution] returns is never below
    zero: its comparison with zero, [w < 0], is false. *)
Theorem GetDensityWeightContribution_not_negative (settings : PandoraSettings)
  (mem : N -> CaloHit) (pCaloHit : N) (pCaloHitList : list N) (w : spec_float) :
  GetDensityWeightContribution settings mem pCaloHit pCaloHitList = inr w ->
  Float32.ltb w (Float32.of_Z 0) = false.
Proof.
  intros Hrun. assert (Hsign : signClear w = true);
    [|by apply signClear_not_below_zero].
  revert Hrun. unfold GetDensityWeightContribution.
  assert (Hzero : signClear (Float32.of_Z 0) = true) by done.
  revert Hzero. generalize (Float32.of_Z 0).
  induction pCaloHitList as [|iter l IH]; intros acc Hacc.
  - simpl. by intros [= <-].
  - rewrite GetDensityWeightContribution_loop_cons. cbv zeta.
    destruct (decide (pCaloHit = iter)); [by apply IH|].
    destruct (Float32.gtb _ _); [by apply IH|].
    destruct (Float32.eqb _ _); [done|]. apply IH.
    apply signClear_add; [done|]. apply signClear_div; [done|].
    apply signClear_powerOfR, signClear_div; apply signClear_GetMagnitude.
Qed.

(** ** Cartesian vectors *)

Lemma Float32_mul_comm (x y : spec_float) : Float32.mul x y = Float32.mul y x.
Proof.
  destruct x as [sx|sx| |sx mx ex], y as [sy|sy| |sy my ey]; simpl;
    try reflexivity; try (by rewrite xorb_comm).
  unfold Float32.mul, SFmul.
  change (IntDef.Z.add ex ey) with (ex + ey).
  change (IntDef.Z.add ey ex) with (ey + ex).
  change (PosDef.Pos.mul mx my) with (mx * my)%positive.
  change (PosDef.Pos.mul my mx) with (my * mx)%positive.
  by rewrite xorb_comm, Pos.mul_comm, Z.add_comm.
Qed.

(** X15: the dot product does not depend on the order of its operands. *)
Theorem GetDotProduct_comm (v rhs : CartesianVector) :
  CartesianVector.GetDotProduct v rhs = CartesianVector.GetDotProduct rhs v.
Proof.
  unfold CartesianVector.GetDotProduct.
  by rewrite (Float32_mul_comm (m_x v)), (Float32_mul_comm (m_y v)),
             (Float32_mul_comm (m_z v)).
Qed.

(** X16: neither the squared magnitude nor the magnitude of a vector is ever
    below zero, whatever its coordinates: each is zero, a positive number,
    plus infinity or a NaN. *)
Theorem GetMagnitude_not_negative (v : CartesianVector) :
  Float32.ltb (CartesianVector.GetMagnitudeSquared v) (Float32.of_Z 0) = false
  /\ Float32.ltb (CartesianVector.GetMagnitude v) (Float32.of_Z 0) = false.
Proof.
  split.
  - apply signClear_not_below_zero, signClear_GetMagnitudeSquared.
  - apply signClear_not_below_zero, signClear_GetMagnitude.
Qed.

(** ** Counting the nearby hits for the isolation flag *)

Lemma IsolationCountNearbyHits_loop_bound
  (caloHitMaxSeparation isolationCutDistance : spec_float) (mem : N -> CaloHit)
  (pCaloHit : N) (positionVector : CartesianVector) (positionMagnitude : spec_float)
  (l : list N) :
  forall n : Z,
    0 <= n ->
    n + Z.of_nat (length (filter (fun h => pCaloHit <> h) l)) < 2 ^ 32 ->
    n <= IsolationCountNearbyHits_loop caloHitMaxSeparation isolationCutDistance mem
           pCaloHit positionVector positionMagnitude l n
      <= n + Z.of_nat (length (filter (fun h => pCaloHit <> h) l)).
Proof.
  induction l as [|iter l IH]; intros n Hpos Hlt; simpl; [lia|].
  destruct (decide (pCaloHit = iter)) as [Heq|Hne].
  - rewrite filter_cons_False in * by (intros ?; done). by apply IH.
  - rewrite filter_cons_True in * by done. simpl in *.
    destruct (Float64.gtb _ _); [specialize (IH n Hpos); lia|].
    destruct (Float32.ltb _ _).
    + assert (Hwrap : wrap32 (n + 1) = n + 1) by (unfold wrap32; apply Z.mod_small; lia).
      rewrite Hwrap. specialize (IH (n + 1)). lia.
    + specialize (IH n Hpos). lia.
Qed.

(** X17: [IsolationCountNearbyHits] never counts the hit itself: for a list
    of fewer than 2^32 hits its result lies between zero and the number of
    hits of the list other than the hit. *)
Theorem IsolationCountNearbyHits_bound
  (caloHitMaxSeparation isolationCutDistanceECal isolationCutDistanceHCal : spec_float)
  (mem : N -> CaloHit) (pCaloHit : N) (pCaloHitList : list N) :
  Z.of_nat (length pCaloHitList) < 2 ^ 32 ->
  0 <= IsolationCountNearbyHits caloHitMaxSeparation isolationCutDistanceECal
         isolationCutDistanceHCal mem pCaloHit pCaloHitList
    <= Z.of_nat (length (filter (fun h => pCaloHit <> h) pCaloHitList)).
Proof.
  intros Hlen. unfold IsolationCountNearbyHits.
  pose proof (length_filter (fun h => pCaloHit <> h) pCaloHitList) as Hle.
  apply (IsolationCountNearbyHits_loop_bound _ _ _ _ _ _ _ 0); lia.
Qed.

Lemma zeroOrNaN_mul_l (x y : spec_float) :
  Float32.is_zero x = true -> zeroOrNaN (Float32.mul x y) = true.
Proof. by destruct x, y. Qed.

Lemma zeroOrNaN_mul_r (x y : spec_float) :
  Float32.is_zero y = true -> zeroOrNaN (Float32.mul x y) = true.
Proof. by destruct x, y. Qed.

Lemma zeroOrNaN_sub (x y : spec_float) :
  zeroOrNaN x = true -> zeroOrNaN y = true -> zeroOrNaN (Float32.sub x y) = true.
Proof. destruct x as [[]| | |], y as [[]| | |]; done. Qed.

Lemma zeroOrNaN_add (x y : spec_float) :
  zeroOrNaN x = true -> zeroOrNaN y = true -> zeroOrNaN (Float32.add x y) = true.
Proof. destruct x as [[]| | |], y as [[]| | |]; done. Qed.

Lemma zeroOrNaN_square (x : spec_float) :
  zeroOrNaN x = true -> zeroOrNaN (Float32.mul x x) = true.
Proof. destruct x as [[]| | |]; done. Qed.

Lemma zeroOrNaN_sqrt (x : spec_float) :
  zeroOrNaN x = true -> zeroOrNaN (Float32.sqrt x) = true.
Proof. destruct x as [[]| | |]; done. Qed.

Lemma zeroOrNaN_GetMagnitude (v : CartesianVector) :
  zeroOrNaN (m_x v) = true -> zeroOrNaN (m_y v) = true -> zeroOrNaN (m_z v) = true ->
  zeroOrNaN (CartesianVector.GetMagnitude v) = true.
Proof.
  intros Hx Hy Hz. unfold CartesianVector.GetMagnitude, CartesianVector.GetMagnitudeSquared.
  apply zeroOrNaN_sqrt. repeat apply zeroOrNaN_add; by apply zeroOrNaN_square.
Qed.

Lemma div_by_zero_magnitude_not_below (x cut : spec_float) :
  zeroOrNaN x = true ->
  Float32.ltb (Float32.div x (S754_zero false)) cut = false.
Proof. destruct x as [[]| | |]; done. Qed.

(** X18: for a hit at the origin the magnitude of the position is zero, the
    perpendicular distance to every other hit is 0/0, a NaN, which is below
    no cut: [IsolationCountNearbyHits] returns 0 whatever the hit list. *)
Theorem IsolationCountNearbyHits_at_origin
  (caloHitMaxSeparation isolationCutDistanceECal isolationCutDistanceHCal : spec_float)
  (mem : N -> CaloHit) (pCaloHit : N) (pCaloHitList : list N) :
  Float32.is_zero (m_x (m_positionVector (mem pCaloHit))) = true ->
  Float32.is_zero (m_y (m_positionVector (mem pCaloHit))) = true ->
  Float32.is_zero (m_z (m_positionVector (mem pCaloHit))) = true ->
  IsolationCountNearbyHits caloHitMaxSeparation isolationCutDistanceECal
    isolationCutDistanceHCal mem pCaloHit pCaloHitList = 0.
Proof.
  intros Hx Hy Hz. unfold IsolationCountNearbyHits.
  rewrite (GetMagnitude_zeros _ Hx Hy Hz).
  generalize (if decide (m_hitType (mem pCaloHit) = ECAL) then isolationCutDistanceECal
              else isolationCutDistanceHCal).
  intros cut. induction pCaloHitList as [|iter l IH]; [done|]. simpl.
  destruct (decide (pCaloHit = iter)); [exact IH|].
  destruct (Float64.gtb _ _); [exact IH|].
  rewrite div_by_zero_magnitude_not_below; [exact IH|].
  apply zeroOrNaN_GetMagnitude; unfold CartesianVector.GetCrossProduct; cbn [m_x m_y m_z];
    apply zeroOrNaN_sub;
    (by apply zeroOrNaN_mul_l) || (by apply zeroOrNaN_mul_r).
Qed.

(** ** Objects/Track.cc: associations of a track *)

(** X19: a cluster that [SetAssociatedCluster] has associated with success
    is removed with success by [RemoveAssociatedCluster], which gives back
    the track as it was; until then another [SetAssociatedCluster] returns
    [STATUS_CODE_ALREADY_INITIALIZED], and [RemoveAssociatedCluster] of any
    other cluster returns [STATUS_CODE_NOT_FOUND], both leaving the track as
    it is. *)
Theorem Track_association_round_trip (t t' : Track) (pCluster : N) :
  Track_SetAssociatedCluster t pCluster = (STATUS_CODE_SUCCESS, t') ->
  Track_RemoveAssociatedCluster t' pCluster = (STATUS_CODE_SUCCESS, t)
  /\ (forall other, other <> NULL ->
        Track_SetAssociatedCluster t' other = (STATUS_CODE_ALREADY_INITIALIZED, t'))
  /\ (forall other, other <> pCluster ->
        Track_RemoveAssociatedCluster t' other = (STATUS_CODE_NOT_FOUND, t')).
Proof.
  unfold Track_SetAssociatedCluster.
  destruct (decide (NULL = pCluster)) as [|Hnull]; [done|].
  destruct (decide (NULL <> m_pAssociatedCluster t)) as [|Hfree]; [done|].
  apply dec_stable in Hfree. intros [= <-]. split; [|split].
  - unfold Track_RemoveAssociatedCluster. simpl. rewrite decide_False by auto.
    destruct t. simpl in *. by subst.
  - intros other Hother. unfold Track_SetAssociatedCluster. simpl.
    rewrite decide_False by done. by rewrite decide_True.
  - intros other Hother. unfold Track_RemoveAssociatedCluster. simpl.
    by rewrite decide_True.
Qed.

(** X20: [AddParent], [AddDaughter] and [AddSibling] put a track in their
    list once: after a successful call the track is in the list, the other
    two lists are as before, and the same call again returns
    [STATUS_CODE_ALREADY_PRESENT] and changes nothing. *)
Theorem Track_Add_once (t t' : Track) (pTrack : N) :
  (Track_AddParent t pTrack = (STATUS_CODE_SUCCESS, t') ->
     pTrack ∈ m_parentTrackList t'
     /\ m_daughterTrackList t' = m_daughterTrackList t
     /\ m_siblingTrackList t' = m_siblingTrackList t
     /\ Track_AddParent t' pTrack = (STATUS_CODE_ALREADY_PRESENT, t'))
  /\ (Track_AddDaughter t pTrack = (STATUS_CODE_SUCCESS, t') ->
        pTrack ∈ m_daughterTrackList t'
        /\ m_parentTrackList t' = m_parentTrackList t
        /\ m_siblingTrackList t' = m_siblingTrackList t
        /\ Track_AddDaughter t' pTrack = (STATUS_CODE_ALREADY_PRESENT, t'))
  /\ (Track_AddSibling t pTrack = (STATUS_CODE_SUCCESS, t') ->
        pTrack ∈ m_siblingTrackList t'
        /\ m_parentTrackList t' = m_parentTrackList t
        /\ m_daughterTrackList t' = m_daughterTrackList t
        /\ Track_AddSibling t' pTrack = (STATUS_CODE_ALREADY_PRESENT, t')).
Proof.
  assert (Hin : forall l : gset N, pTrack ∈ {[pTrack]} ∪ l).
  { intros l. apply elem_of_union. left. by apply elem_of_singleton. }
  split; [|split].
  - unfold Track_AddParent at 1.
    destruct (decide (NULL = pTrack)) as [|Hnull]; [done|].
    destruct (decide (pTrack ∈ m_parentTrackList t)); [done|]. intros [= <-].
    split; [apply Hin|]. split; [done|]. split; [done|].
    unfold Track_AddParent. simpl. rewrite decide_False by done.
    rewrite decide_True; [done|apply Hin].
  - unfold Track_AddDaughter at 1.
    destruct (decide (NULL = pTrack)) as [|Hnull]; [done|].
    destruct (decide (pTrack ∈ m_daughterTrackList t)); [done|]. intros [= <-].
    split; [apply Hin|]. split; [done|]. split; [done|].
    unfold Track_AddDaughter. simpl. rewrite decide_False by done.
    rewrite decide_True; [done|apply Hin].
  - unfold Track_AddSibling at 1.
    destruct (decide (NULL = pTrack)) as [|Hnull]; [done|].
    destruct (decide (pTrack ∈ m_siblingTrackList t)); [done|]. intros [= <-].
    split; [apply Hin|]. split; [done|]. split; [done|].
    unfold Track_AddSibling. simpl. rewrite decide_False by done.
    rewrite decide_True; [done|apply Hin].
Qed.

(** ** What [RemoveUnavailableCaloHits] hands to [Remove] *)

Lemma CaloHitList_insert_sorted (hit : N) (l : list N) :
  StronglySorted N.lt l -> StronglySorted N.lt (CaloHitList_insert hit l).
Proof.
  induction l as [|a l IH]; intros Hsorted; simpl.
  - repeat constructor.
  - apply StronglySorted_inv in Hsorted as [Hl Ha].
    destruct (hit <? a)%N eqn:Hlt.
    + apply N.ltb_lt in Hlt. constructor; [by constructor|].
      constructor; [done|]. eapply Forall_impl; [exact Ha|]. intros x Hx. simpl in *. lia.
    + destruct (hit =? a)%N eqn:Heq; [by constructor|].
      apply N.ltb_ge in Hlt. apply N.eqb_neq in Heq.
      constructor; [by apply IH|]. apply Forall_forall. intros x Hx.
      apply elem_of_CaloHitList_insert in Hx as [->|Hx]; [lia|].
      rewrite Forall_forall in Ha. by apply Ha.
Qed.

Lemma collectUnavailableHits_exact (mem : N -> CaloHit) (s : Manager) (hits : list N) :
  forall acc acc',
    collectUnavailableHits mem s hits acc = Some acc' ->
    (StronglySorted N.lt acc -> StronglySorted N.lt acc')
    /\ forall x, x ∈ acc'
                 <-> x ∈ acc \/ (x ∈ hits /\ IsCaloHitAvailable mem s x = Some false).
Proof.
  induction hits as [|h hits IH]; intros acc acc' Hrun; simpl in Hrun.
  - injection Hrun as <-. split; [done|]. intros x. rewrite elem_of_nil. tauto.
  - destruct (IsCaloHitAvailable mem s h) as [b|] eqn:Hb; [|done]. simpl in Hrun.
    destruct (IH _ _ Hrun) as [Hsorted Hin]. split.
    + intros Hacc. apply Hsorted. destruct b; simpl; [done|].
      by apply CaloHitList_insert_sorted.
    + intros x. rewrite Hin, elem_of_cons. destruct b; simpl.
      * split; [tauto|]. intros [?|[[->|?] Hx]]; [tauto|congruence|tauto].
      * rewrite elem_of_CaloHitList_insert. split; [|tauto].
        intros [[->|?]|?]; tauto.
Qed.

Lemma collectUnavailableLayers_exact (mem : N -> CaloHit) (s : Manager)
  (orderedCaloHitList : list (Z * list N)) :
  forall acc acc',
    collectUnavailableLayers mem s orderedCaloHitList acc = Some acc' ->
    (StronglySorted N.lt acc -> StronglySorted N.lt acc')
    /\ forall x, x ∈ acc'
                 <-> x ∈ acc \/ (x ∈ allHits orderedCaloHitList
                                 /\ IsCaloHitAvailable mem s x = Some false).
Proof.
  unfold allHits.
  induction orderedCaloHitList as [|[layer hits] layers IH]; intros acc acc' Hrun;
    simpl in Hrun.
  - injection Hrun as <-. split; [done|]. intros x. simpl. rewrite elem_of_nil. tauto.
  - destruct (collectUnavailableHits mem s hits acc) as [acc0|] eqn:Hhits; [|done].
    simpl in Hrun. destruct (collectUnavailableHits_exact _ _ _ _ _ Hhits) as [Hs0 Hin0].
    destruct (IH _ _ Hrun) as [Hs Hin]. split; [auto|].
    intros x. rewrite Hin, Hin0. simpl. rewrite elem_of_app. tauto.
Qed.

(** X21: [RemoveUnavailableCaloHits] on an ordered calo hit list does not
    call [Remove] when no hit is unavailable, and returns success with the
    list as it is; otherwise it returns what [Remove] returns for the
    unavailable hits of the list, each of them once, in ascending order of
    address, and no other hit. *)
Theorem RemoveUnavailableCaloHits_argument
  (Remove : list (Z * list N) -> list N -> StatusCode * list (Z * list N))
  (mem : N -> CaloHit) (s : Manager) (orderedCaloHitList : list (Z * list N))
  (result : StatusCode * list (Z * list N)) :
  RemoveUnavailableCaloHits Remove mem s orderedCaloHitList = Some result ->
  exists unavailableHits,
    StronglySorted N.lt unavailableHits
    /\ (forall h, h ∈ unavailableHits
                  <-> h ∈ allHits orderedCaloHitList
                      /\ IsCaloHitAvailable mem s h = Some false)
    /\ result = (if decide (unavailableHits = [])
                 then (STATUS_CODE_SUCCESS, orderedCaloHitList)
                 else Remove orderedCaloHitList unavailableHits).
Proof.
  unfold RemoveUnavailableCaloHits.
  destruct (collectUnavailableLayers mem s orderedCaloHitList []) as [u|] eqn:Hcollect;
    [|done].
  simpl. intros Hresult.
  destruct (collectUnavailableLayers_exact _ _ _ _ _ Hcollect) as [Hsorted Hin].
  exists u. split; [apply Hsorted; constructor|]. split.
  { intros h. rewrite Hin, elem_of_nil. tauto. }
  destruct (decide (u = [])) as [->|Hne].
  - simpl in Hresult. by injection Hresult as <-.
  - rewrite bool_decide_eq_false_2 in Hresult by done. simpl in Hresult.
    destruct (Remove orderedCaloHitList u) as [rc removed].
    destruct (bool_decide (rc = STATUS_CODE_SUCCESS)) eqn:Hrc; simpl in Hresult;
      injection Hresult as <-; [|done].
    by apply bool_decide_eq_true in Hrc as ->.
Qed.

(** ** Clearing every usage map *)

(** X23: on a state that meets the invariant, whatever the number of open
    reclustering processes, [ClearCaloHitUsageMaps] returns success, deletes
    each registered usage map once and no other heap object, and leaves the
    counter at 0, the current usage map [NULL] and the registry, the parent
    vector and the nested names empty; the state meets the invariant again,
    and every hit then reads as its own flag. *)
Theorem ClearCaloHitUsageMaps_resets (mem : N -> CaloHit) (s : Manager) :
  ManagerInvariant s ->
  exists heap,
    ClearCaloHitUsageMaps s = Some (STATUS_CODE_SUCCESS, mkManager 0 NULL [] [] ∅ heap)
    /\ (forall name p, m_nameToCaloHitUsageMap s !! name = Some p -> heap !! p = None)
    /\ (forall p, (forall name, m_nameToCaloHitUsageMap s !! name <> Some p) ->
                  heap !! p = usageMapHeap s !! p)
    /\ ManagerInvariant (mkManager 0 NULL [] [] ∅ heap)
    /\ forall h, IsCaloHitAvailable mem (mkManager 0 NULL [] [] ∅ heap) h
                 = Some (m_isAvailable (mem h)).
Proof.
  intros Hinv.
  exists (freeMaps (map_to_list (m_nameToCaloHitUsageMap s)).*2 (usageMapHeap s)).
  split; [|split; [|split; [|split]]].
  - unfold ClearCaloHitUsageMaps.
    rewrite deleteMaps_ok;
      [|by destruct Hinv as (_ & _ & _ & _ & Hnd & _)
       |by apply invariant_registry_pointers].
    reflexivity.
  - intros name p Hname. rewrite freeMaps_lookup. rewrite decide_True; [done|].
    apply list_elem_of_fmap. exists (name, p). split; [done|].
    by apply elem_of_map_to_list.
  - intros p Hp. rewrite freeMaps_lookup. rewrite decide_False; [done|].
    intros Hin. apply list_elem_of_fmap in Hin as [[name q] [-> Hin]].
    apply elem_of_map_to_list in Hin. by apply (Hp name).
  - apply (ManagerInvariant_cleared s).
  - intros h. reflexivity.
Qed.

(** ** The properties above at concrete inputs *)

Lemma SetCaloHitAvailability_then_IsCaloHitAvailable_witness :
  IsCaloHitAvailable hitsAtOne (setCurrentEntry oneLevelManager seedOneTwo 1 true) 1
  = Some true
  /\ forall other, other <> 1%N ->
       IsCaloHitAvailable hitsAtOne (setCurrentEntry oneLevelManager seedOneTwo 1 true) other
       = IsCaloHitAvailable hitsAtOne oneLevelManager other.
Proof.
  apply (SetCaloHitAvailability_then_IsCaloHitAvailable hitsAtOne hitsAtOne
           oneLevelManager (setCurrentEntry oneLevelManager seedOneTwo 1 true) 1 true).
  vm_compute. reflexivity.
Defined.

Lemma AreCaloHitsAvailable_iff_witness :
  AreCaloHitsAvailable hitOneUnavailable initialManager [2%N; 3%N] = Some true.
Proof.
  apply (proj1 (AreCaloHitsAvailable_iff hitOneUnavailable initialManager [2%N; 3%N])).
  intros h Hh. apply elem_of_cons in Hh as [->|Hh]; [vm_compute; reflexivity|].
  apply list_elem_of_singleton in Hh as ->. vm_compute. reflexivity.
Defined.

Lemma RemoveUnavailableCaloHitsList_spec_witness :
  sublist [2%N; 3%N] [1%N; 2%N; 3%N]
  /\ (forall h, h ∈ [2%N; 3%N]
                <-> h ∈ [1%N; 2%N; 3%N]
                    /\ IsCaloHitAvailable hitOneUnavailable initialManager h = Some true)
  /\ RemoveUnavailableCaloHitsList hitOneUnavailable initialManager [2%N; 3%N]
     = Some [2%N; 3%N].
Proof.
  apply (RemoveUnavailableCaloHitsList_spec hitOneUnavailable initialManager
           [1%N; 2%N; 3%N] [2%N; 3%N]).
  vm_compute. reflexivity.
Defined.

Lemma SetCaloHitAvailabilityList_then_IsCaloHitAvailable_witness :
  exists s',
    SetCaloHitAvailabilityList hitsAtOne oneLevelManager [1%N; 2%N] true
    = Some (STATUS_CODE_SUCCESS, hitsAtOne, s')
    /\ (forall h, h ∈ [1%N; 2%N] -> IsCaloHitAvailable hitsAtOne s' h = Some true)
    /\ (forall h, h ∉ [1%N; 2%N] ->
                  IsCaloHitAvailable hitsAtOne s' h
                  = IsCaloHitAvailable hitsAtOne oneLevelManager h).
Proof.
  destruct (SetCaloHitAvailabilityList hitsAtOne oneLevelManager [1%N; 2%N] true)
    as [[[rc mem'] s']|] eqn:Hrun; [|vm_compute in Hrun; discriminate].
  assert (rc = STATUS_CODE_SUCCESS) as -> by (vm_compute in Hrun; congruence).
  assert (mem' = hitsAtOne) as ->
    by (vm_compute in Hrun; injection Hrun as <- _; reflexivity).
  exists s'. split; [reflexivity|].
  exact (SetCaloHitAvailabilityList_then_IsCaloHitAvailable hitsAtOne hitsAtOne
           oneLevelManager s' [1%N; 2%N] true Hrun).
Defined.

Lemma CreateInitialCaloHitUsageMap_then_IsCaloHitAvailable_witness :
  IsCaloHitAvailable hitsAtOne oneLevelManager 1 = Some false
  /\ IsCaloHitAvailable hitsAtOne oneLevelManager 3 = Some false.
Proof.
  split.
  - apply (CreateInitialCaloHitUsageMap_then_IsCaloHitAvailable hitsAtOne initialManager
             oneLevelManager "h0" [(0, [1%N; 2%N])] 1).
    + vm_compute. discriminate.
    + vm_compute. reflexivity.
    + vm_compute. reflexivity.
  - apply (CreateInitialCaloHitUsageMap_then_IsCaloHitAvailable hitsAtOne initialManager
             oneLevelManager "h0" [(0, [1%N; 2%N])] 3).
    + vm_compute. discriminate.
    + vm_compute. reflexivity.
    + vm_compute. reflexivity.
Defined.

Lemma CreateAdditionalCaloHitUsageMap_then_IsCaloHitAvailable_witness :
  IsCaloHitAvailable hitsAtOne (siblingManager oneLevelManager "h1" seedOneTwo [] ["h0"]) 1
  = Some true
  /\ IsCaloHitAvailable hitsAtOne (siblingManager oneLevelManager "h1" seedOneTwo [] ["h0"]) 3
     = Some false.
Proof.
  split.
  - apply (CreateAdditionalCaloHitUsageMap_then_IsCaloHitAvailable hitsAtOne
             oneLevelManager (siblingManager oneLevelManager "h1" seedOneTwo [] ["h0"])
             "h1" seedOneTwo 1).
    + vm_compute. reflexivity.
    + vm_compute. reflexivity.
  - apply (CreateAdditionalCaloHitUsageMap_then_IsCaloHitAvailable hitsAtOne
             oneLevelManager (siblingManager oneLevelManager "h1" seedOneTwo [] ["h0"])
             "h1" seedOneTwo 3).
    + vm_compute. reflexivity.
    + vm_compute. reflexivity.
Defined.

Lemma CreateInitial_then_Apply_witness :
  exists (s1 : Manager) (mem' : N -> CaloHit),
    CreateInitialCaloHitUsageMap initialManager "h0" [(0, [1%N; 2%N])]
    = Some (STATUS_CODE_SUCCESS, s1)
    /\ ApplyCaloHitUsageMap hitsAtOne s1 "h0"
       = Some (STATUS_CODE_SUCCESS, mem',
               mkManager 0 NULL [] [] ∅ (usageMapHeap initialManager))
    /\ (forall h, h ∈ allHits [(0, [1%N; 2%N])] ->
                  m_isAvailable (mem' h) = false
                  /\ mem' h = set_isAvailable false (hitsAtOne h))
    /\ (forall h, h ∉ allHits [(0, [1%N; 2%N])] -> mem' h = hitsAtOne h).
Proof.
  apply (CreateInitial_then_Apply hitsAtOne initialManager "h0" [(0, [1%N; 2%N])]).
  - exact ManagerInvariant_initial.
  - reflexivity.
  - apply (bool_decide_unpack _). vm_compute. exact I.
Defined.

Lemma nested_CreateInitial_then_Apply_witness :
  exists s1,
    CreateInitialCaloHitUsageMap oneLevelManager "h1" [(0, [1%N; 2%N])]
    = Some (STATUS_CODE_SUCCESS, s1)
    /\ ApplyCaloHitUsageMap hitsAtOne s1 "h1"
       = SetCaloHitAvailabilityList hitsAtOne oneLevelManager
           (allHits [(0, [1%N; 2%N])]) false
    /\ exists s', ApplyCaloHitUsageMap hitsAtOne s1 "h1"
                  = Some (STATUS_CODE_SUCCESS, hitsAtOne, s').
Proof.
  apply (nested_CreateInitial_then_Apply hitsAtOne oneLevelManager "h1"
           [(0, [1%N; 2%N])] seedOneTwo).
  - exact ManagerInvariant_oneLevel.
  - vm_compute. discriminate.
  - vm_compute. reflexivity.
  - vm_compute. reflexivity.
  - vm_compute. reflexivity.
  - apply (bool_decide_unpack _). vm_compute. exact I.
  - apply (bool_decide_unpack _). vm_compute. exact I.
Defined.

Lemma CreateAdditionalCaloHitUsageMap_name_taken_witness :
  exists p,
    CreateAdditionalCaloHitUsageMap oneLevelManager "h0"
    = Some (STATUS_CODE_FAILURE,
            withHeap oneLevelManager (<[p := seedOneTwo]> (usageMapHeap oneLevelManager)))
    /\ usageMapHeap oneLevelManager !! p = None
    /\ p <> m_pCurrentUsageMap oneLevelManager
    /\ (p ∉ m_parentCaloHitUsageMaps oneLevelManager)
    /\ (forall name, m_nameToCaloHitUsageMap oneLevelManager !! name <> Some p)
    /\ ManagerInvariant
         (withHeap oneLevelManager (<[p := seedOneTwo]> (usageMapHeap oneLevelManager))).
Proof.
  apply (CreateAdditionalCaloHitUsageMap_name_taken oneLevelManager "h0" seedOneTwo).
  - exact ManagerInvariant_oneLevel.
  - vm_compute. discriminate.
  - vm_compute. reflexivity.
  - exists 1%N. vm_compute. reflexivity.
Defined.

Lemma ApplyCaloHitUsageMap_failure_state_witness :
  exists s',
    ApplyCaloHitUsageMap hitsAtOne mismatchedManager "h1"
    = Some (STATUS_CODE_FAILURE, hitsAtOne, s')
    /\ m_nReclusteringProcesses s' = 1
    /\ m_nameToCaloHitUsageMap s' = m_nameToCaloHitUsageMap mismatchedManager
    /\ m_nestedUsageMapNames s' = m_nestedUsageMapNames mismatchedManager
    /\ ~ ManagerInvariant s'.
Proof.
  destruct (ApplyCaloHitUsageMap hitsAtOne mismatchedManager "h1")
    as [[[rc mem'] s']|] eqn:Hrun; [|vm_compute in Hrun; discriminate].
  assert (rc = STATUS_CODE_FAILURE) as -> by (vm_compute in Hrun; congruence).
  assert (mem' = hitsAtOne) as ->
    by (vm_compute in Hrun; injection Hrun as <- _; reflexivity).
  exists s'. split; [reflexivity|].
  destruct (ApplyCaloHitUsageMap_failure_state hitsAtOne hitsAtOne mismatchedManager s'
              "h1") as (_ & _ & Hdepth & _ & _ & Hregistry & Hnames & Hbroken).
  - apply (bool_decide_unpack _). vm_compute. exact I.
  - exact Hrun.
  - split; [rewrite Hdepth; reflexivity|]. done.
Defined.

Lemma runSuccessfulCalls_invariant_witness :
  exists mem' s',
    runSuccessfulCalls reclusteringCalls hitsAtOne initialManager = Some (mem', s')
    /\ ManagerInvariant s'.
Proof.
  destruct (runSuccessfulCalls reclusteringCalls hitsAtOne initialManager)
    as [[mem' s']|] eqn:Hrun; [|vm_compute in Hrun; discriminate].
  exists mem', s'. split; [reflexivity|].
  apply (runSuccessfulCalls_invariant reclusteringCalls hitsAtOne mem' initialManager s').
  - exact ManagerInvariant_initial.
  - vm_compute. reflexivity.
  - exact Hrun.
Defined.

Lemma GetDensityWeightContribution_filter_witness :
  GetDensityWeightContribution (settingsWithPower 2) hitsAtOne 1 [1%N]
  = inr (Float32.of_Z 0).
Proof.
  apply (proj2 (GetDensityWeightContribution_filter (settingsWithPower 2) hitsAtOne 1
                  [1%N])).
  vm_compute. reflexivity.
Defined.

Lemma GetDensityWeightContribution_not_negative_witness :
  Float32.ltb (Float32.of_Z 100) (Float32.of_Z 0) = false.
Proof.
  apply (GetDensityWeightContribution_not_negative (settingsWithPower 2) hitTwoAside 1
           [2%N] (Float32.of_Z 100)).
  vm_compute. reflexivity.
Defined.

Lemma IsolationCountNearbyHits_bound_witness :
  0 <= IsolationCountNearbyHits (Float32.of_Z 10) (Float32.of_Z 5) (Float32.of_Z 5)
         hitTwoAside 1 [1%N; 2%N]
    <= Z.of_nat (length (filter (fun h => 1%N <> h) [1%N; 2%N])).
Proof.
  apply (IsolationCountNearbyHits_bound (Float32.of_Z 10) (Float32.of_Z 5)
           (Float32.of_Z 5) hitTwoAside 1 [1%N; 2%N]).
  vm_compute. reflexivity.
Defined.

Lemma IsolationCountNearbyHits_at_origin_witness :
  IsolationCountNearbyHits (Float32.of_Z 10) (Float32.of_Z 5) (Float32.of_Z 5)
    hitsAtOrigin 1 [1%N; 2%N; 3%N] = 0.
Proof.
  apply (IsolationCountNearbyHits_at_origin (Float32.of_Z 10) (Float32.of_Z 5)
           (Float32.of_Z 5) hitsAtOrigin 1 [1%N; 2%N; 3%N]); reflexivity.
Defined.

Lemma Track_association_round_trip_witness :
  Track_RemoveAssociatedCluster trackWithCluster 7 = (STATUS_CODE_SUCCESS, newTrack)
  /\ (forall other, other <> NULL ->
        Track_SetAssociatedCluster trackWithCluster other
        = (STATUS_CODE_ALREADY_INITIALIZED, trackWithCluster))
  /\ (forall other, other <> 7%N ->
        Track_RemoveAssociatedCluster trackWithCluster other
        = (STATUS_CODE_NOT_FOUND, trackWithCluster)).
Proof.
  apply (Track_association_round_trip newTrack trackWithCluster 7).
  vm_compute. reflexivity.
Defined.

Lemma Track_Add_once_witness :
  Track_AddParent (mkTrack NULL NULL ({[5%N]} ∪ ∅) ∅ ∅) 5
  = (STATUS_CODE_ALREADY_PRESENT, mkTrack NULL NULL ({[5%N]} ∪ ∅) ∅ ∅).
Proof.
  apply (proj1 (Track_Add_once newTrack (mkTrack NULL NULL ({[5%N]} ∪ ∅) ∅ ∅) 5)).
  vm_compute. reflexivity.
Defined.

Lemma RemoveUnavailableCaloHits_argument_witness :
  exists unavailableHits,
    StronglySorted N.lt unavailableHits
    /\ (forall h, h ∈ unavailableHits
                  <-> h ∈ allHits [(0, [1%N; 2%N]); (1, [3%N])]
                      /\ IsCaloHitAvailable hitOneUnavailable initialManager h = Some false)
    /\ (STATUS_CODE_SUCCESS, [(0, [2%N]); (1, [3%N])])
       = (if decide (unavailableHits = [])
          then (STATUS_CODE_SUCCESS, [(0, [1%N; 2%N]); (1, [3%N])])
          else OrderedCaloHitList_Remove [(0, [1%N; 2%N]); (1, [3%N])] unavailableHits).
Proof.
  apply (RemoveUnavailableCaloHits_argument OrderedCaloHitList_Remove hitOneUnavailable
           initialManager [(0, [1%N; 2%N]); (1, [3%N])]).
  vm_compute. reflexivity.
Defined.


Lemma ClearCaloHitUsageMaps_resets_witness :
  exists heap,
    ClearCaloHitUsageMaps twoLevelManager
    = Some (STATUS_CODE_SUCCESS, mkManager 0 NULL [] [] ∅ heap)
    /\ (forall name p, m_nameToCaloHitUsageMap twoLevelManager !! name = Some p ->
                       heap !! p = None)
    /\ (forall p, (forall name, m_nameToCaloHitUsageMap twoLevelManager !! name <> Some p) ->
                  heap !! p = usageMapHeap twoLevelManager !! p)
    /\ ManagerInvariant (mkManager 0 NULL [] [] ∅ heap)
    /\ forall h, IsCaloHitAvailable hitsAtOne (mkManager 0 NULL [] [] ∅ heap) h
                 = Some (m_isAvailable (hitsAtOne h)).
Proof.
  apply (ClearCaloHitUsageMaps_resets hitsAtOne twoLevelManager).
  apply (bool_decide_unpack _). vm_compute. exact I.
Defined.
